(** * The slash-commands bundle patcher (scripts/patch-slash-commands.js)

    A shallow embedding of the AST patch engine: the generic tree walker,
    the declarative rule, the patch collector and the check-mode scanner,
    the descending-offset text splicer, the literal-occurrence counter,
    the bundle locator and the driver's branch structure.

    The parser (acorn) is an external collaborator.  Its result, an ESTree
    value, is an input of every function below; where a statement needs the
    tree of a particular text, that tree is written out as acorn produces
    it (node `type`, `start`, `end`, then the kind-specific fields in the
    order acorn assigns them). *)

From stdpp Require Import gmap strings list sorting.
From Stdlib Require Import ZArith Ascii Lia.

Local Open Scope Z_scope.

(** ** JavaScript values *)

(** A JavaScript value as the walker sees it.  An object is the list of its
    own enumerable properties in [Object.keys] order (insertion order for
    the string keys of a syntax node).  Numbers are the integers: node
    offsets are, and the only tests made on any other number (truthiness,
    having no [type] property, being different from a string) come out as
    they do for an integer.  A string is a sequence of code units, each
    an [ascii] character. *)
#[local] Unset Elimination Schemes.
Inductive value : Type :=
| VUndef
| VNull
| VBool (b : bool)
| VNum (n : Z)
| VStr (s : string)
| VArr (items : list value)
| VObj (fields : list (string * value)).
#[local] Set Elimination Schemes.

Fixpoint lookup_field (k : string) (fields : list (string * value)) : value :=
  match fields with
  | [] => VUndef
  | (k', v) :: rest => if String.eqb k k' then v else lookup_field k rest
  end.

(** [v.k] for a named property [k]: [undefined] when [v] has no such
    property (primitives and arrays have none of the names read here). *)
Definition get (v : value) (k : string) : value :=
  match v with
  | VObj fields => lookup_field k fields
  | _ => VUndef
  end.

(** ToBoolean. *)
Definition truthy (v : value) : bool :=
  match v with
  | VUndef | VNull => false
  | VBool b => b
  | VNum n => negb (n =? 0)
  | VStr s => negb (String.eqb s "")
  | VArr _ | VObj _ => true
  end.

(** [typeof v === "string"]. *)
Definition typeof_string (v : value) : bool :=
  match v with VStr _ => true | _ => false end.

(** [typeof v === "object"] (which [null] satisfies too). *)
Definition typeof_object (v : value) : bool :=
  match v with VNull | VArr _ | VObj _ => true | _ => false end.

(** [v === s] for a string literal [s]. *)
Definition strict_eq_str (v : value) (s : string) : bool :=
  match v with VStr t => String.eqb t s | _ => false end.

(** [item && typeof item.type === "string"]: the walker's test for a value
    that looks like a syntax node. *)
Definition is_node_like (item : value) : bool :=
  truthy item && typeof_string (get item "type").

(** ** Layer 1: the tree walker *)

Section Walk.
Context {St : Type}.
Variable visitor : value → St → St.

(** [walk(node, visitor)], with the visitor's effect on the enclosing
    closure's variables threaded as a state [St].  The fields of an array
    are its elements (its [Object.keys] are the indices). *)
Fixpoint walk (node : value) (s : St) {struct node} : St :=
  let walk_child :=
    fun (s : St) (child : value) =>
      match child with
      | VArr items =>
          fold_left
            (fun s item => if is_node_like item then walk item s else s)
            items s
      | _ => if is_node_like child then walk child s else s
      end in
  match node with
  | VObj fields =>
      fold_left (fun s kv => walk_child s (snd kv)) fields (visitor node s)
  | VArr items =>
      fold_left walk_child items (visitor node s)
  | _ => s
  end.
End Walk.

(** The sequence of nodes on which the visitor is invoked, in call order. *)
Definition walk_nodes (root : value) : list value :=
  walk (fun node acc => acc ++ [node]) root [].

(** ** String primitives *)

Fixpoint take (n : nat) (s : string) : string :=
  match n, s with
  | S n', String c s' => String c (take n' s')
  | _, _ => ""
  end.

Fixpoint drop (n : nat) (s : string) : string :=
  match n, s with
  | S n', String _ s' => drop n' s'
  | _, _ => s
  end.

(** How [String.prototype.slice] resolves an integer index against a string
    of [len] code units: a negative index counts from the end, and the
    result is clamped to [0, len]. *)
Definition clamp_index (len : nat) (i : Z) : nat :=
  if i <? 0 then Z.to_nat (Z.max (Z.of_nat len + i) 0)
  else Z.to_nat (Z.min i (Z.of_nat len)).

(** [s.slice(from, to)]: empty when the resolved [to] is not after [from]. *)
Definition slice (s : string) (from to : Z) : string :=
  let len := String.length s in
  let k := clamp_index len from in
  take (clamp_index len to - k) (drop k s).

(** [s.slice(from)]. *)
Definition slice_from (s : string) (from : Z) : string :=
  drop (clamp_index (String.length s) from) s.

(** [s.includes(needle)]. *)
Fixpoint includes (s needle : string) : bool :=
  String.prefix needle s
  || match s with
     | EmptyString => false
     | String _ s' => includes s' needle
     end.

(** First position at or after the head of [s], numbered from [pos], at
    which [needle] starts. *)
Fixpoint find_from (s needle : string) (pos : nat) : option nat :=
  if String.prefix needle s then Some pos
  else match s with
       | EmptyString => None
       | String _ s' => find_from s' needle (S pos)
       end.

(** [s.indexOf(needle, from)]: the search position is clamped to
    [0, s.length]; the result is [-1] when there is no occurrence. *)
Definition indexOf (s needle : string) (from : Z) : Z :=
  let k := Z.to_nat (Z.min (Z.max from 0) (Z.of_nat (String.length s))) in
  match find_from (drop k s) needle k with
  | Some i => Z.of_nat i
  | None => -1
  end.

(** The double-quote character. *)
Definition dquote : string := String "034"%char "".

(** ** Layer 1 (continued): property names of member expressions *)

Definition getPropertyName (memberExpr : value) : value :=
  if negb (truthy memberExpr) || negb (truthy (get memberExpr "property"))
  then VNull
  else if negb (truthy (get memberExpr "computed"))
          && strict_eq_str (get (get memberExpr "property") "type") "Identifier"
  then get (get memberExpr "property") "name"
  else if truthy (get memberExpr "computed")
          && strict_eq_str (get (get memberExpr "property") "type") "Literal"
  then get (get memberExpr "property") "value"
  else VNull.

(** ** Layer 2: the declarative patch rule *)

Definition GATE_NAME : string := "codex-extension-slash-commands".

Definition ELECTRON_FORCE_EXPR : string :=
  "window.codexWindowType===" +:+ dquote +:+ "electron" +:+ dquote.

Record MatchResult : Type := mkMatch {
  start : Z;
  end_ : Z;
  replacement : string;
  original : string
}.

(** A rule: its identifier and its match function (the [description] is a
    log string and is left out). *)
Record Rule : Type := mkRule {
  id : string;
  rule_match : value → string → option MatchResult
}.

(** A node offset.  acorn stores a number in [start] and [end] of every
    node; any other value is outside the embedding's domain (see
    [estree_shape]) and read as 0. *)
Definition offset (v : value) : Z :=
  match v with VNum n => n | _ => 0 end.

(** The elements of an [arguments] field.  ESTree makes it an array of
    nodes; any other value is outside the domain and read as no
    arguments. *)
Definition elements (v : value) : list value :=
  match v with VArr items => items | _ => [] end.

(** [RULES[0].match]. *)
Definition enable_slash_commands_match
    (node : value) (source : string) : option MatchResult :=
  if negb (strict_eq_str (get node "type") "VariableDeclarator") then None else
  let init := get node "init" in
  if negb (truthy init)
     || negb (strict_eq_str (get init "type") "CallExpression") then None else
  let callee := get init "callee" in
  if negb (truthy callee)
     || negb (strict_eq_str (get callee "type") "MemberExpression") then None else
  if negb (strict_eq_str (getPropertyName callee) "useGateValue") then None else
  let args := get init "arguments" in
  if negb (truthy args) || (Z.of_nat (length (elements args)) <? 1) then None else
  let arg0 := nth 0 (elements args) VUndef in
  if negb (strict_eq_str (get arg0 "type") "Literal")
     || negb (strict_eq_str (get arg0 "value") GATE_NAME) then None else
  let original := slice source (offset (get init "start")) (offset (get init "end")) in
  if includes original "window.codexWindowType" then None else
  Some {| start := offset (get init "start");
          end_ := offset (get init "end");
          replacement := "(" +:+ original +:+ "||" +:+ ELECTRON_FORCE_EXPR +:+ ")";
          original := original |}.

Definition RULES : list Rule :=
  [ {| id := "enable_slash_commands_in_electron";
       rule_match := enable_slash_commands_match |} ].

(** ** Layer 3: locating the bundle, collecting and splicing *)

(** What a function that may call [process.exit] does. *)
Inductive exit_or (A : Type) : Type :=
| Exit (code : Z)
| Return (a : A).
Arguments Exit {A} code.
Arguments Return {A} a.

(** A line terminator, which [.] of a regular expression does not match
    (U+2028 and U+2029 are beyond the code units of [string]). *)
Definition is_line_terminator (c : ascii) : bool :=
  bool_decide (c = "010"%char) || bool_decide (c = "013"%char).

Fixpoint no_line_terminator (s : string) : bool :=
  match s with
  | EmptyString => true
  | String c s' => negb (is_line_terminator c) && no_line_terminator s'
  end.

(** [/^index-.*\.js$/.test(f)]. *)
Definition is_index_bundle (f : string) : bool :=
  String.prefix "index-" f
  && (let rest := drop 6 f in
      let n := String.length rest in
      (3 <=? Z.of_nat n)
      && String.eqb (drop (n - 3) rest) ".js"
      && no_line_terminator (take (n - 3) rest)).

Section Locate.
(** The file system as [locateBundle] sees it: the assets directory, whether
    it exists, its listing, and [path.join] of the directory and a name. *)
Variable assetsDir : string.
Variable existsSync : bool.
Variable readdirSync : list string.
Variable path_join : string → string → string.

Definition locateBundle : exit_or string :=
  if negb existsSync then Exit 1 else
  let files := filter (fun f => is_index_bundle f = true) readdirSync in
  if Z.of_nat (length files) =? 0 then Exit 1 else
  if Z.of_nat (length files) >? 1 then Exit 1 else
  Return (path_join assetsDir (nth 0 files "")).
End Locate.

(** A collected patch: [{ ...result, ruleId: rule.id }]. *)
Record Patch : Type := mkPatch {
  result : MatchResult;
  ruleId : string
}.

(** A log entry of [collectPatches]; [change] is the line
    [`${original} → ${replacement}`], kept as its two parts. *)
Record Detail : Type := mkDetail {
  detail_ruleId : string;
  detail_position : Z;
  change : string * string
}.

(** A check-mode report entry. *)
Record ScanMatch : Type := mkScanMatch {
  match_ruleId : string;
  position : Z;
  match_original : string;
  context : string;
  wouldPatch : bool
}.

(** The variables the visitor closure of [collectPatches] updates. *)
Record collect_state : Type := mkCollect {
  patches : list Patch;
  details : list Detail;
  seen : gset Z
}.

Definition collect_rule (node : value) (source : string)
    (st : collect_state) (rule : Rule) : collect_state :=
  match rule_match rule node source with
  | Some r =>
      if bool_decide (start r ∈ seen st) then st
      else {| patches := patches st ++ [mkPatch r (id rule)];
              details := details st
                         ++ [mkDetail (id rule) (start r) (original r, replacement r)];
              seen := {[ start r ]} ∪ seen st |}
  | None => st
  end.

Definition collect_visitor (source : string) (node : value)
    (st : collect_state) : collect_state :=
  fold_left (collect_rule node source) RULES st.

Definition collectPatches (ast : value) (source : string)
    : list Patch * list Detail :=
  let st := walk (collect_visitor source) ast (mkCollect [] [] ∅) in
  (patches st, details st).

Definition CONTEXT_CHARS : Z := 60.

(** The variables the visitor closure of [scanMatches] updates. *)
Record scan_state : Type := mkScan {
  matches : list ScanMatch;
  scan_seen : gset Z
}.

Definition scan_rule (node : value) (source : string)
    (st : scan_state) (rule : Rule) : scan_state :=
  match rule_match rule node source with
  | Some r =>
      if bool_decide (start r ∈ scan_seen st) then st
      else
        let ctxStart := Z.max 0 (start r - CONTEXT_CHARS) in
        let ctxEnd := Z.min (Z.of_nat (String.length source)) (end_ r + CONTEXT_CHARS) in
        {| matches := matches st
                      ++ [mkScanMatch (id rule) (start r) (original r)
                            (slice source ctxStart ctxEnd) true];
           scan_seen := {[ start r ]} ∪ scan_seen st |}
  | None => st
  end.

Definition scan_visitor (source : string) (node : value)
    (st : scan_state) : scan_state :=
  fold_left (scan_rule node source) RULES st.

Definition scanMatches (ast : value) (source : string) : list ScanMatch :=
  matches (walk (scan_visitor source) ast (mkScan [] ∅)).

(** The loop of [countAllOccurrences]: one unit of [fuel] per evaluation of
    the loop condition; [None] when the fuel runs out first. *)
Fixpoint count_loop (fuel : nat) (source needle : string) (idx total : Z)
    : option Z :=
  match fuel with
  | O => None
  | S fuel' =>
      let idx' := indexOf source needle (idx + 1) in
      if idx' =? -1 then Some total
      else count_loop fuel' source needle idx' (total + 1)
  end.

Definition gate_needle : string := dquote +:+ GATE_NAME +:+ dquote.

(** [countAllOccurrences], run with enough fuel for any source (see
    [count_loop_terminates]). *)
Definition countAllOccurrences (source : string) : Z :=
  default 0 (count_loop (String.length source + 2) source gate_needle (-1) 0).

(** [patches.sort((a, b) => b.start - a.start)]: the sort is stable; [p]
    stays before [q] when the comparator gives [q.start - p.start <= 0]. *)
Fixpoint insert_patch (p : Patch) (l : list Patch) : list Patch :=
  match l with
  | [] => [p]
  | q :: l' =>
      if start (result q) - start (result p) <=? 0 then p :: q :: l'
      else q :: insert_patch p l'
  end.

Definition sort_patches (l : list Patch) : list Patch :=
  foldr insert_patch [] l.

(** One turn of the splice loop:
    [code.slice(0, p.start) + p.replacement + code.slice(p.end)]. *)
Definition splice (code : string) (p : Patch) : string :=
  slice code 0 (start (result p))
  +:+ replacement (result p)
  +:+ slice_from code (end_ (result p)).

Definition splice_all (code : string) (ps : list Patch) : string :=
  fold_left splice ps code.

(** ** The driver *)

(** Which of the driver's closing messages a run prints. *)
Inductive report : Type :=
| LocatorFailure
| ParseFailure
| NoGateReference
| AlreadyEnabled
| NoPatchPosition
| StructuralDrift
| PendingPatches (n : nat)
| Patched (n : nat).

(** What a run leaves behind: the exit status, the text written to the
    bundle (if any) and the closing message. *)
Record outcome : Type := mkOutcome {
  exit_code : Z;
  written : option string;
  message : report
}.

(** [main] from the parsed tree on, in check mode. *)
Definition main_check (ast : value) (source : string) : outcome :=
  let ms := scanMatches ast source in
  let totalRefs := countAllOccurrences source in
  if Z.of_nat (length ms) =? 0 then
    if totalRefs =? 0 then mkOutcome 0 None NoGateReference
    else if includes source ELECTRON_FORCE_EXPR then mkOutcome 0 None AlreadyEnabled
    else mkOutcome 0 None NoPatchPosition
  else mkOutcome 0 None (PendingPatches (length ms)).

(** [main] from the parsed tree on, in apply mode. *)
Definition main_apply (ast : value) (source : string) : outcome :=
  let ps := fst (collectPatches ast source) in
  if Z.of_nat (length ps) =? 0 then
    let totalRefs := countAllOccurrences source in
    if totalRefs =? 0 then mkOutcome 0 None NoGateReference
    else if includes source ELECTRON_FORCE_EXPR then mkOutcome 0 None AlreadyEnabled
    else mkOutcome 1 None StructuralDrift
  else
    let code := splice_all source (sort_patches ps) in
    mkOutcome 0 (Some code) (Patched (length ps)).

Section Driver.
(** The environment of a run: the command line, the file system and the
    parser ([None] when it throws a syntax error, which ends the process
    with status 1). *)
Variable isCheck : bool.
Variable assetsDir : string.
Variable existsSync : bool.
Variable readdirSync : list string.
Variable path_join : string → string → string.
Variable readFileSync : string → string.
Variable parse : string → option value.

Definition main : outcome :=
  match locateBundle assetsDir existsSync readdirSync path_join with
  | Exit code => mkOutcome code None LocatorFailure
  | Return bundlePath =>
      let source := readFileSync bundlePath in
      match parse source with
      | None => mkOutcome 1 None ParseFailure
      | Some ast =>
          if isCheck then main_check ast source else main_apply ast source
      end
  end.
End Driver.

(** The text of the bundle after an apply run over [source]: what the run
    wrote, or [source] itself when it wrote nothing. *)
Definition bundle_after (parse : string → option value) (source : string) : string :=
  match parse source with
  | None => source
  | Some ast => default source (written (main_apply ast source))
  end.

(** ** ESTree nodes as acorn builds them *)

(** Every node starts with [type], [start] and [end]; the kind-specific
    fields follow in the order the parser assigns them. *)
Definition node (type : string) (s e : Z) (fields : list (string * value)) : value :=
  VObj (("type", VStr type) :: ("start", VNum s) :: ("end", VNum e) :: fields).

Definition Identifier (s e : Z) (name : string) : value :=
  node "Identifier" s e [("name", VStr name)].

Definition Literal (s e : Z) (v raw : string) : value :=
  node "Literal" s e [("value", VStr v); ("raw", VStr raw)].

Definition MemberExpression (s e : Z) (object property : value) : value :=
  node "MemberExpression" s e
    [("object", object); ("property", property);
     ("computed", VBool false); ("optional", VBool false)].

Definition CallExpression (s e : Z) (callee : value) (args : list value) : value :=
  node "CallExpression" s e
    [("callee", callee); ("arguments", VArr args); ("optional", VBool false)].

Definition LogicalExpression (s e : Z) (left : value) (op : string) (right : value) : value :=
  node "LogicalExpression" s e
    [("left", left); ("operator", VStr op); ("right", right)].

Definition BinaryExpression (s e : Z) (left : value) (op : string) (right : value) : value :=
  node "BinaryExpression" s e
    [("left", left); ("operator", VStr op); ("right", right)].

Definition VariableDeclarator (s e : Z) (name init : value) : value :=
  node "VariableDeclarator" s e [("id", name); ("init", init)].

Definition VariableDeclaration (s e : Z) (decls : list value) (kind : string) : value :=
  node "VariableDeclaration" s e
    [("declarations", VArr decls); ("kind", VStr kind)].

Definition BlockStatement (s e : Z) (body : list value) : value :=
  node "BlockStatement" s e [("body", VArr body)].

Definition FunctionExpression (s e : Z) (params : list value) (body : value) : value :=
  node "FunctionExpression" s e
    [("id", VNull); ("expression", VBool false); ("generator", VBool false);
     ("async", VBool false); ("params", VArr params); ("body", body)].

Definition Program (s e : Z) (body : list value) : value :=
  node "Program" s e [("body", VArr body); ("sourceType", VStr "module")].

(** ** Sample bundles and their trees *)

Module Samples.

Definition quoted_gate : string := dquote +:+ GATE_NAME +:+ dquote.

(** [window.codexWindowType==="electron"] starting at offset [s]. *)
Definition electron_test (s : Z) : value :=
  BinaryExpression s (s + 35)
    (MemberExpression s (s + 22)
       (Identifier s (s + 6) "window")
       (Identifier (s + 7) (s + 22) "codexWindowType"))
    "==="
    (Literal (s + 25) (s + 35) "electron" (dquote +:+ "electron" +:+ dquote)).

(** [obj.useGateValue("codex-extension-slash-commands")] starting at
    offset [s], with a one-letter object name. *)
Definition gate_call (s : Z) (obj : string) (extra : list value) (e : Z) : value :=
  CallExpression s e
    (MemberExpression s (s + 14)
       (Identifier s (s + 1) obj)
       (Identifier (s + 2) (s + 14) "useGateValue"))
    (Literal (s + 15) (s + 47) GATE_NAME quoted_gate :: extra).

(** The accessor called as a plain function. *)
Definition bare_src : string :=
  "const flag = useGateValue(" +:+ quoted_gate +:+ ");".

Definition bare_ast : value :=
  Program 0 60
    [VariableDeclaration 0 60
       [VariableDeclarator 6 59 (Identifier 6 10 "flag")
          (CallExpression 13 59
             (Identifier 13 25 "useGateValue")
             [Literal 26 58 GATE_NAME quoted_gate])]
       "const"].

(** The shape the rule is written for: the accessor is a member of an
    object. *)
Definition member_src : string :=
  "const flag = R.useGateValue(" +:+ quoted_gate +:+ ");".

Definition member_decl : value :=
  VariableDeclarator 6 61 (Identifier 6 10 "flag") (gate_call 13 "R" [] 61).

Definition member_ast : value :=
  Program 0 62 [VariableDeclaration 0 62 [member_decl] "const"].

Definition member_patched : string :=
  "const flag = (R.useGateValue(" +:+ quoted_gate +:+ ")||"
  +:+ ELECTRON_FORCE_EXPR +:+ ");".

(** Parentheses leave no node: the initializer is the logical
    expression inside them. *)
Definition member_patched_ast : value :=
  Program 0 101
    [VariableDeclaration 0 101
       [VariableDeclarator 6 100 (Identifier 6 10 "flag")
          (LogicalExpression 14 99 (gate_call 14 "R" [] 62) "||" (electron_test 64))]
       "const"].

(** The gate name written with single quotes. *)
Definition single_src : string :=
  "const flag = R.useGateValue('codex-extension-slash-commands');".

Definition single_decl : value :=
  VariableDeclarator 6 61 (Identifier 6 10 "flag")
    (CallExpression 13 61
       (MemberExpression 13 27
          (Identifier 13 14 "R") (Identifier 15 27 "useGateValue"))
       [Literal 28 60 GATE_NAME "'codex-extension-slash-commands'"]).

Definition single_ast : value :=
  Program 0 62 [VariableDeclaration 0 62 [single_decl] "const"].

(** The gate name in a comment only. *)
Definition comment_src : string :=
  "// see " +:+ quoted_gate.

Definition comment_ast : value := Program 0 39 [].

(** A gate call whose arguments hold another gate declaration. *)
Definition padding : string := "//ppppppppppppppppppppppppppppppppppp".

Definition nested_src : string :=
  "var x=a.useGateValue(" +:+ quoted_gate
  +:+ ",function(){var y=b.useGateValue(" +:+ quoted_gate +:+ ")},"
  +:+ dquote +:+ padding +:+ dquote +:+ ")".

(** The callback [function(){var y=b.useGateValue(...)}] starting at
    offset [s]. *)
Definition callback (s : Z) : value :=
  FunctionExpression s (s + 66) []
    (BlockStatement (s + 10) (s + 66)
       [VariableDeclaration (s + 11) (s + 65)
          [VariableDeclarator (s + 15) (s + 65)
             (Identifier (s + 15) (s + 16) "y")
             (gate_call (s + 17) "b" [] (s + 65))]
          "var"]).

(** The outer call starting at offset [s]. *)
Definition outer_call (s : Z) : value :=
  gate_call s "a"
    [callback (s + 48);
     Literal (s + 115) (s + 154) padding (dquote +:+ padding +:+ dquote)]
    (s + 155).

Definition nested_ast : value :=
  Program 0 161
    [VariableDeclaration 0 161
       [VariableDeclarator 4 161 (Identifier 4 5 "x") (outer_call 6)]
       "var"].

(** What the first apply run writes for [nested_src]. *)
Definition nested_once : string :=
  "var x=(a.useGateValue(" +:+ quoted_gate
  +:+ ",function(){var y=b.useGateValue(" +:+ quoted_gate +:+ ")},"
  +:+ dquote +:+ padding +:+ dquote +:+ ")||" +:+ ELECTRON_FORCE_EXPR +:+ ")"
  +:+ padding +:+ dquote +:+ ")".

(** Its tree: the trailing [//ppp...] is now a line comment. *)
Definition nested_once_ast : value :=
  Program 0 239
    [VariableDeclaration 0 200
       [VariableDeclarator 4 200 (Identifier 4 5 "x")
          (LogicalExpression 7 199 (outer_call 7) "||" (electron_test 164))]
       "var"].

(** A tree that lists one declarator twice, so that two matches share a
    start offset. *)
Definition twice_ast : value :=
  Program 0 62 [VariableDeclaration 0 62 [member_decl; member_decl] "const"].

(** Two patches of a ten-digit text, the lower one first. *)
Definition digits : string := "0123456789".
Definition low_patch : Patch := mkPatch (mkMatch 2 4 "AB" "23") "low".
Definition high_patch : Patch := mkPatch (mkMatch 6 9 "" "678") "high".

(** The parser on the texts above. *)
Definition parse (source : string) : option value :=
  if String.eqb source bare_src then Some bare_ast
  else if String.eqb source member_src then Some member_ast
  else if String.eqb source member_patched then Some member_patched_ast
  else if String.eqb source single_src then Some single_ast
  else if String.eqb source comment_src then Some comment_ast
  else if String.eqb source nested_src then Some nested_ast
  else if String.eqb source nested_once then Some nested_once_ast
  else None.

End Samples.

(** ** The domain of the embedding *)

Definition is_num (v : value) : bool :=
  match v with VNum _ => true | _ => false end.

Definition is_obj (v : value) : bool :=
  match v with VObj _ => true | _ => false end.

(** The shape of a parser result, on which the embedding of the rule is
    exact: an object has no key twice, a value with a string [type] has
    numbers in [start] and [end], and an [arguments] field is an array of
    objects. *)
Fixpoint estree_shape (v : value) : bool :=
  match v with
  | VObj fields =>
      bool_decide (NoDup (map fst fields))
      && (if typeof_string (lookup_field "type" fields)
          then is_num (lookup_field "start" fields)
               && is_num (lookup_field "end" fields)
          else true)
      && match lookup_field "arguments" fields with
         | VUndef => true
         | VArr items => forallb is_obj items
         | _ => false
         end
      && forallb (fun kv => estree_shape (snd kv)) fields
  | VArr items => forallb estree_shape items
  | _ => true
  end.

(** ** Definitions used to state the properties *)

(** What [walk] does with one field value. *)
Definition walk_child {St : Type} (visitor : value → St → St)
    (s : St) (child : value) : St :=
  match child with
  | VArr items =>
      fold_left
        (fun s item => if is_node_like item then walk visitor item s else s)
        items s
  | _ => if is_node_like child then walk visitor child s else s
  end.

(** *** Matches in walk order *)

(** The successful rule matches at one node, in rule order, tagged with
    the rule that produced them. *)
Definition node_matches (rules : list Rule) (source : string) (node : value)
    : list Patch :=
  omap (fun rule => (fun r => mkPatch r (id rule)) <$> rule_match rule node source)
       rules.

(** Every successful match of a run, in the order the walker meets them. *)
Definition all_matches (ast : value) (source : string) : list Patch :=
  flat_map (node_matches RULES source) (walk_nodes ast).

Definition patch_start (p : Patch) : Z := start (result p).

(** [p] occurs in [l] with no earlier element at the same start offset. *)
Definition first_at_start (l : list Patch) (p : Patch) : Prop :=
  ∃ l1 l2, l = l1 ++ p :: l2 ∧ ∀ q, q ∈ l1 → patch_start q ≠ patch_start p.

(** Deduplication by start offset, the first occurrence winning, given the
    offsets already taken. *)
Fixpoint keep_first (taken : gset Z) (l : list Patch) : list Patch :=
  match l with
  | [] => []
  | p :: l' =>
      if bool_decide (patch_start p ∈ taken) then keep_first taken l'
      else p :: keep_first ({[ patch_start p ]} ∪ taken) l'
  end.

(** A check-mode entry and an apply-mode patch, as the pair the two modes
    are compared by. *)
Definition match_key (m : ScanMatch) : Z * string := (position m, match_ruleId m).
Definition patch_key (p : Patch) : Z * string := (patch_start p, ruleId p).

(** The two visitor closures are in step: same offsets seen, same matches
    accepted. *)
Definition in_step (c : collect_state) (s : scan_state) : Prop :=
  seen c = scan_seen s ∧ match_key <$> matches s = patch_key <$> patches c.

(** *** Simultaneous replacement *)

(** Replacing all ranges at once, read off the original text: the patches
    in ascending order of [start], each preceded by the untouched text
    since the previous one, and the rest of the text after the last. *)
Fixpoint rebuild (source : string) (cursor : Z) (ps : list Patch) : string :=
  match ps with
  | [] => slice_from source cursor
  | p :: ps' =>
      slice source cursor (start (result p))
      +:+ replacement (result p)
      +:+ rebuild source (end_ (result p)) ps'
  end.

Fixpoint insert_ascending (p : Patch) (l : list Patch) : list Patch :=
  match l with
  | [] => [p]
  | q :: l' =>
      if patch_start p <=? patch_start q then p :: q :: l'
      else q :: insert_ascending p l'
  end.

Definition sort_ascending (l : list Patch) : list Patch :=
  foldr insert_ascending [] l.

Definition replace_simultaneously (source : string) (ps : list Patch) : string :=
  rebuild source 0 (sort_ascending ps).

(** [rebuild] stopped at offset [limit] instead of the end of the text. *)
Fixpoint rebuild_upto (source : string) (cursor : Z) (ps : list Patch) (limit : Z)
    : string :=
  match ps with
  | [] => slice source cursor limit
  | p :: ps' =>
      slice source cursor (start (result p))
      +:+ replacement (result p)
      +:+ rebuild_upto source (end_ (result p)) ps' limit
  end.

(** A patch range lies inside a text of [len] code units. *)
Definition in_bounds (len : Z) (p : Patch) : Prop :=
  0 ≤ start (result p) ∧ start (result p) ≤ end_ (result p) ∧ end_ (result p) ≤ len.

(** Two patch ranges do not overlap. *)
Definition disjoint (p q : Patch) : Prop :=
  end_ (result p) ≤ start (result q) ∨ end_ (result q) ≤ start (result p).

(** The two orders on patches. *)
Definition descending (p q : Patch) : Prop := patch_start q ≤ patch_start p.
Definition ascending (p q : Patch) : Prop := patch_start p ≤ patch_start q.

(** *** Occurrences and the shape the rule tests *)

(** [needle] occurs in [s] at index [i]. *)
Definition occurs_at (needle s : string) (i : nat) : bool :=
  String.prefix needle (drop i s).

(** The number of indices of [s] at which [needle] occurs. *)
Definition occurrences (needle s : string) : nat :=
  length (filter (fun i => occurs_at needle s i = true) (seq 0 (String.length s))).

(** The same number, counted along the text. *)
Fixpoint count_prefixes (needle s : string) : nat :=
  match s with
  | EmptyString => 0
  | String _ s' =>
      ((if String.prefix needle s then 1 else 0) + count_prefixes needle s')%nat
  end.

(** The structural half of the rule's test: a variable declarator whose
    initializer is a call of a member named [useGateValue] with the gate
    name as first argument. *)
Definition gate_declarator (node : value) : bool :=
  let init := get node "init" in
  let callee := get init "callee" in
  let args := get init "arguments" in
  let arg0 := nth 0 (elements args) VUndef in
  strict_eq_str (get node "type") "VariableDeclarator"
  && truthy init && strict_eq_str (get init "type") "CallExpression"
  && truthy callee && strict_eq_str (get callee "type") "MemberExpression"
  && strict_eq_str (getPropertyName callee) "useGateValue"
  && truthy args && negb (Z.of_nat (length (elements args)) <? 1)
  && strict_eq_str (get arg0 "type") "Literal"
  && strict_eq_str (get arg0 "value") GATE_NAME.

(** The text of a node's initializer. *)
Definition init_text (node : value) (source : string) : string :=
  slice source (offset (get (get node "init") "start"))
               (offset (get (get node "init") "end")).

(** The substring whose presence in an initializer makes the rule skip
    it. *)
Definition GUARD : string := "window.codexWindowType".

(** The patch the rule makes of an initializer text. *)
Definition wrap (original : string) : string :=
  "(" +:+ original +:+ "||" +:+ ELECTRON_FORCE_EXPR +:+ ")".

(** *** Positions in a tree *)

(** One step down from a node: to the value of its [k]-th field, or to
    element [j] of the array in its [k]-th field (fields in [Object.keys]
    order; the fields of an array are its elements). *)
Inductive step : Type :=
| Field (k : nat)
| Item (k j : nat).

#[global] Instance step_eq_dec : EqDecision step.
Proof. solve_decision. Defined.

Definition field_values (v : value) : list value :=
  match v with
  | VObj fields => snd <$> fields
  | VArr items => items
  | _ => []
  end.

(** The value one step down, when it carries a string [type] tag. *)
Definition child_at (v : value) (s : step) : option value :=
  match s with
  | Field k =>
      c ← field_values v !! k;
      if is_node_like c then Some c else None
  | Item k j =>
      a ← field_values v !! k;
      c ← elements a !! j;
      if is_node_like c then Some c else None
  end.

(** The value at the end of a path of steps. *)
Fixpoint node_at (root : value) (p : list step) : option value :=
  match p with
  | [] => Some root
  | s :: p' => c ← child_at root s; node_at c p'
  end.

(** [walk] visits its argument: it is neither falsy nor a primitive. *)
Definition walkable (root : value) : bool :=
  truthy root && typeof_object root.

(** [p] leads from a root the walker accepts to a node, through fields
    and array elements that carry a string [type] tag. *)
Definition reachable (root : value) (p : list step) : Prop :=
  walkable root = true ∧ is_Some (node_at root p).

(** [q] is the position of a proper descendant of the node at [p]. *)
Definition below (p q : list step) : Prop :=
  ∃ s rest, q = p ++ s :: rest.

(** [p] comes before [q] in [l]. *)
Definition before {A} (l : list A) (p q : A) : Prop :=
  ∃ l1 l2, l = l1 ++ p :: l2 ∧ q ∈ l2.

(** The children the walker recurses into, with the step that leads to
    each, in the order of the recursive calls. *)
Fixpoint item_steps (k j : nat) (items : list value) : list (step * value) :=
  match items with
  | [] => []
  | item :: rest =>
      (if is_node_like item then [(Item k j, item)] else [])
      ++ item_steps k (S j) rest
  end.

Definition field_steps (k : nat) (child : value) : list (step * value) :=
  match child with
  | VArr items => item_steps k 0 items
  | _ => if is_node_like child then [(Field k, child)] else []
  end.

Fixpoint fields_steps (k : nat) (values : list value) : list (step * value) :=
  match values with
  | [] => []
  | child :: rest => field_steps k child ++ fields_steps (S k) rest
  end.

Definition children (v : value) : list (step * value) :=
  fields_steps 0 (field_values v).

(** A trace one step further from the root. *)
Definition under (s : step) (t : list (list step * value))
    : list (list step * value) :=
  (fun pv => (s :: fst pv, snd pv)) <$> t.

(** [walk] again, recording with every visited node the path that leads to
    it ([walk_trace_nodes] shows it is the same traversal). *)
Fixpoint walk_trace (node : value) : list (list step * value) :=
  let item_trace :=
    fun (k j : nat) (item : value) =>
      if is_node_like item then under (Item k j) (walk_trace item) else [] in
  let items_trace :=
    fix go (k j : nat) (items : list value) {struct items} :=
      match items with
      | [] => []
      | item :: rest => item_trace k j item ++ go k (S j) rest
      end in
  let field_trace :=
    fun (k : nat) (child : value) =>
      match child with
      | VArr items => items_trace k 0%nat items
      | _ => if is_node_like child then under (Field k) (walk_trace child) else []
      end in
  match node with
  | VObj fields =>
      ([], node)
      :: (fix go (k : nat) (fields : list (string * value)) {struct fields} :=
            match fields with
            | [] => []
            | kv :: rest => field_trace k (snd kv) ++ go (S k) rest
            end) 0%nat fields
  | VArr items =>
      ([], node)
      :: (fix go (k : nat) (items : list value) {struct items} :=
            match items with
            | [] => []
            | child :: rest => field_trace k child ++ go (S k) rest
            end) 0%nat items
  | _ => []
  end.

(** The three inner loops of [walk_trace]. *)
Fixpoint trace_items (k j : nat) (items : list value) : list (list step * value) :=
  match items with
  | [] => []
  | item :: rest =>
      (if is_node_like item then under (Item k j) (walk_trace item) else [])
      ++ trace_items k (S j) rest
  end.

Definition trace_field (k : nat) (child : value) : list (list step * value) :=
  match child with
  | VArr items => trace_items k 0 items
  | _ => if is_node_like child then under (Field k) (walk_trace child) else []
  end.

Fixpoint trace_fields (k : nat) (values : list value) : list (list step * value) :=
  match values with
  | [] => []
  | child :: rest => trace_field k child ++ trace_fields (S k) rest
  end.

(** The nodes [walk] visits below one field value. *)
Definition child_nodes (cs : list (step * value)) : list value :=
  cs ≫= (fun sc => walk_nodes (snd sc)).

(** The field a step goes through. *)
Definition step_field (s : step) : nat :=
  match s with Field k | Item k _ => k end.

(** The positions at which the visitor is called, in call order. *)
Definition walk_paths (root : value) : list (list step) :=
  fst <$> walk_trace root.

(** The trace of the children of a node. *)
Definition children_trace (cs : list (step * value)) : list (list step * value) :=
  cs ≫= (fun sc => under (fst sc) (walk_trace (snd sc))).

(** *** A gate declaration with its literal written any way *)

(** [const flag = R.useGateValue(<raw>);] for a string literal token [raw]
    that denotes the gate name, and its tree: the literal node has the gate
    name as [value] and the token as [raw]. *)
Definition literal_call (raw : string) : string :=
  "R.useGateValue(" +:+ raw +:+ ")".

Definition literal_src (raw : string) : string :=
  "const flag = " +:+ literal_call raw +:+ ";".

Definition literal_decl (raw : string) : value :=
  let n := String.length raw in
  VariableDeclarator 6 (Z.of_nat (29 + n)) (Identifier 6 10 "flag")
    (CallExpression 13 (Z.of_nat (29 + n))
       (MemberExpression 13 27
          (Identifier 13 14 "R") (Identifier 15 27 "useGateValue"))
       [Literal 28 (Z.of_nat (28 + n)) GATE_NAME raw]).

Definition literal_ast (raw : string) : value :=
  let n := String.length raw in
  Program 0 (Z.of_nat (30 + n))
    [VariableDeclaration 0 (Z.of_nat (30 + n)) [literal_decl raw] "const"].

Definition single_quoted : string := "'codex-extension-slash-commands'".

(** *** The gate name in the code *)

(** [node] is a literal whose value is the gate name: an occurrence of the
    gate name in the code, as opposed to one in a comment, which leaves no
    node in the tree. *)
Definition is_gate_literal (node : value) : bool :=
  strict_eq_str (get node "type") "Literal"
  && strict_eq_str (get node "value") GATE_NAME.

(** A statement followed by a comment that mentions the gate. *)
Definition commented_src : string :=
  "var a=" +:+ dquote +:+ "x" +:+ dquote +:+ ";// see "
  +:+ dquote +:+ GATE_NAME +:+ dquote.

Definition commented_ast : value :=
  Program 0 49
    [VariableDeclaration 0 10
       [VariableDeclarator 4 9 (Identifier 4 5 "a")
          (Literal 6 9 "x" (dquote +:+ "x" +:+ dquote))]
       "var"].

(** *** The statement of the example, anywhere in a bundle *)

(** The declarator of
    [const flag = R.useGateValue("codex-extension-slash-commands");] when
    the statement starts at offset [k] of the bundle. *)
Definition statement_at (k : Z) : value :=
  VariableDeclarator (k + 6) (k + 61) (Identifier (k + 6) (k + 10) "flag")
    (Samples.gate_call (k + 13) "R" [] (k + 61)).

(** The patch of its initializer. *)
Definition statement_patch (k : Z) : Patch :=
  mkPatch
    {| start := k + 13;
       end_ := k + 61;
       replacement := "(R.useGateValue(" +:+ Samples.quoted_gate +:+ ")||"
                      +:+ ELECTRON_FORCE_EXPR +:+ ")";
       original := "R.useGateValue(" +:+ Samples.quoted_gate +:+ ")" |}
    "enable_slash_commands_in_electron".

(** A bundle with another gate declaration in front of the statement. *)
Definition two_gates_src : string :=
  "var u=Q.useGateValue(" +:+ Samples.quoted_gate +:+ ");" +:+ Samples.member_src.

Definition two_gates_ast : value :=
  Program 0 117
    [VariableDeclaration 0 55
       [VariableDeclarator 4 54 (Identifier 4 5 "u")
          (Samples.gate_call 6 "Q" [] 54)]
       "var";
     VariableDeclaration 55 117 [statement_at 55] "const"].

Definition two_gates_patched : string :=
  "var u=(Q.useGateValue(" +:+ Samples.quoted_gate +:+ ")||"
  +:+ ELECTRON_FORCE_EXPR +:+ ");" +:+ Samples.member_patched.

(** *** The tree of the written text *)

(** Where the code unit at offset [x] of the source stands in the written
    text: every patch that ends at or before [x] has put 39 code units in
    front of it (the parenthesis before the initializer, and [||], the
    marker expression and the parenthesis after it). *)
Definition moved (ps : list Patch) (x : Z) : Z :=
  x + 39 * Z.of_nat (length (filter (fun p => end_ (result p) ≤ x) ps)).

(** A tree rebuilt from the leaves up: [h parent key child child'] is the
    new value of the field [key] of [parent], which held [child], rebuilt
    as [child']. *)
Fixpoint map_tree (h : value → string → value → value → value) (v : value)
    : value :=
  match v with
  | VObj fields =>
      VObj (map (fun kv => (fst kv, h v (fst kv) (snd kv) (map_tree h (snd kv))))
                fields)
  | VArr items => VArr (map (map_tree h) items)
  | _ => v
  end.

(** The offsets [start] and [end] mapped by [f]; every other field as
    rebuilt. *)
Definition offset_field (f : Z → Z) (key : string) (child child' : value) : value :=
  if String.eqb key "start" || String.eqb key "end" then
    match child with
    | VNum n => VNum (f n)
    | _ => child'
    end
  else child'.

(** A tree with every node offset mapped by [f]. *)
Definition reposition (f : Z → Z) : value → value :=
  map_tree (fun _ => offset_field f).

(** What the parser makes of a patched initializer.  The patch [r] put
    [(] in front of the initializer, which now starts one code unit after
    the place its old start moved to, and [||window.codexWindowType===
    "electron")] behind it; parentheses leave no node, so the new
    initializer is the logical expression. *)
Definition guarded (ps : list Patch) (r : MatchResult) (init : value) : value :=
  let s := moved ps (start r) in
  let len := end_ r - start r in
  LogicalExpression (s + 1) (s + len + 38)
    (reposition (fun x => x + (s + 1 - start r)) init)
    "||"
    (Samples.electron_test (s + len + 3)).

(** The tree of the text an apply run writes, read off the tree of the
    source: the same nodes at their new offsets, with the initializer of
    every declarator the rule matches replaced by [guarded].  It is the
    parser's tree when no patched initializer holds another gate
    declaration. *)
Definition patched_field (ps : list Patch) (source : string)
    (parent : value) (key : string) (child child' : value) : value :=
  match enable_slash_commands_match parent source with
  | Some r =>
      if String.eqb key "init" then guarded ps r child
      else offset_field (moved ps) key child child'
  | None => offset_field (moved ps) key child child'
  end.

Definition patched_tree (ps : list Patch) (source : string) : value → value :=
  map_tree (patched_field ps source).

(** A patch range lies inside the range from [a] to [b], or apart from
    it. *)
Definition inside_or_apart (a b : Z) (p : Patch) : Prop :=
  (a ≤ start (result p) ∧ end_ (result p) ≤ b)
  ∨ end_ (result p) ≤ a
  ∨ b ≤ start (result p).

(** What makes a patch one of the rule's: it is 39 code units longer than
    its range, and holds the guard string. *)
Definition rule_patch (len : Z) (p : Patch) : Prop :=
  0 ≤ start (result p) ∧ start (result p) < end_ (result p)
  ∧ end_ (result p) ≤ len
  ∧ Z.of_nat (String.length (replacement (result p)))
    = end_ (result p) - start (result p) + 39
  ∧ includes (replacement (result p)) GUARD = true.

(** What the second run needs of a node of the source tree: the shape of
    a parser result; no gate declaration below its initializer when the
    rule matches it; and, when it is a gate declaration the rule skips, the
    guard string in the text of its initializer as the written text [code]
    has it. *)
Definition settled (ps : list Patch) (source code : string) (n : value) : Prop :=
  estree_shape n = true
  ∧ (∀ r, enable_slash_commands_match n source = Some r →
          ∀ m, m ∈ walk_nodes (get n "init") → gate_declarator m = false)
  ∧ (gate_declarator n = true →
     enable_slash_commands_match n source = None →
     includes (init_text (patched_tree ps source n) code) GUARD = true).

(** A third sample: a gate declaration that is guarded already, and in its
    callback one that is not. *)
Definition kept_src : string :=
  "var x=a.useGateValue(" +:+ Samples.quoted_gate
  +:+ ",window.codexWindowType,function(){var y=b.useGateValue("
  +:+ Samples.quoted_gate +:+ ")})".

Definition kept_ast : value :=
  Program 0 144
    [VariableDeclaration 0 144
       [VariableDeclarator 4 144 (Identifier 4 5 "x")
          (Samples.gate_call 6 "a"
             [MemberExpression 54 76
                (Identifier 54 60 "window")
                (Identifier 61 76 "codexWindowType");
              Samples.callback 77]
             144)]
       "var"].

(** What an apply run writes for it, and the tree of that text. *)
Definition kept_patched : string :=
  "var x=a.useGateValue(" +:+ Samples.quoted_gate
  +:+ ",window.codexWindowType,function(){var y=(b.useGateValue("
  +:+ Samples.quoted_gate +:+ ")||" +:+ ELECTRON_FORCE_EXPR +:+ ")})".

Definition kept_patched_ast : value :=
  Program 0 183
    [VariableDeclaration 0 183
       [VariableDeclarator 4 183 (Identifier 4 5 "x")
          (Samples.gate_call 6 "a"
             [MemberExpression 54 76
                (Identifier 54 60 "window")
                (Identifier 61 76 "codexWindowType");
              FunctionExpression 77 182 []
                (BlockStatement 87 182
                   [VariableDeclaration 88 181
                      [VariableDeclarator 92 181 (Identifier 92 93 "y")
                         (LogicalExpression 95 180
                            (Samples.gate_call 95 "b" [] 143) "||"
                            (Samples.electron_test 145))]
                      "var"])]
             183)]
       "var"].

(** *** Reaching a node, in the words of the specification *)

(** [v] carries a string [type] tag. *)
Definition tagged (v : value) : bool :=
  match v with
  | VObj fields =>
      match lookup_field "type" fields with
      | VStr _ => true
      | _ => false
      end
  | _ => false
  end.

(** [reached root p n]: [n] is the node that the path [p] leads to from
    [root], each step going to the value of a field, or to an element of an
    array held by a field, that carries a string [type] tag. *)
Inductive reached : value → list step → value → Prop :=
| reached_here root :
    reached root [] root
| reached_field root k c p n :
    field_values root !! k = Some c →
    tagged c = true →
    reached c p n →
    reached root (Field k :: p) n
| reached_item root k j items c p n :
    field_values root !! k = Some (VArr items) →
    items !! j = Some c →
    tagged c = true →
    reached c p n →
    reached root (Item k j :: p) n.

(** ** Induction over values *)

Section ValueInduction.
Variable P : value → Prop.
Hypothesis Hundef : P VUndef.
Hypothesis Hnull : P VNull.
Hypothesis Hbool : ∀ b, P (VBool b).
Hypothesis Hnum : ∀ n, P (VNum n).
Hypothesis Hstr : ∀ s, P (VStr s).
Hypothesis Harr : ∀ items, Forall P items → P (VArr items).
Hypothesis Hobj : ∀ fields, Forall (fun kv => P (snd kv)) fields → P (VObj fields).

Fixpoint value_nested_ind (v : value) : P v :=
  match v with
  | VUndef => Hundef
  | VNull => Hnull
  | VBool b => Hbool b
  | VNum n => Hnum n
  | VStr s => Hstr s
  | VArr items =>
      Harr items
        ((fix go (l : list value) : Forall P l :=
            match l with
            | [] => List.Forall_nil _
            | x :: l' => List.Forall_cons _ _ _ (value_nested_ind x) (go l')
            end) items)
  | VObj fields =>
      Hobj fields
        ((fix go (l : list (string * value)) : Forall (fun kv => P (snd kv)) l :=
            match l with
            | [] => List.Forall_nil _
            | kv :: l' => List.Forall_cons _ _ _ (value_nested_ind (snd kv)) (go l')
            end) fields)
  end.
End ValueInduction.

(** ** Definitions used to state further properties *)

(** The apply-mode message that answers a check-mode message. *)
Definition apply_counterpart (r : report) : report :=
  match r with
  | NoPatchPosition => StructuralDrift
  | PendingPatches n => Patched n
  | _ => r
  end.

(** The log entry [collectPatches] pushes with a patch. *)
Definition detail_of (p : Patch) : Detail :=
  mkDetail (ruleId p) (start (result p))
           (original (result p), replacement (result p)).

(** The closure of [collectPatches] keeps its two lists parallel. *)
Definition details_parallel (st : collect_state) : Prop :=
  details st = detail_of <$> patches st.

(** The check-mode entry [scanMatches] pushes for a match. *)
Definition scan_entry (source : string) (p : Patch) : ScanMatch :=
  mkScanMatch (ruleId p) (start (result p)) (original (result p))
    (slice source
       (Z.max 0 (start (result p) - CONTEXT_CHARS))
       (Z.min (Z.of_nat (String.length source)) (end_ (result p) + CONTEXT_CHARS)))
    true.

(** The two visitor closures hold the same matches, entry by entry. *)
Definition entries_in_step (source : string)
    (c : collect_state) (s : scan_state) : Prop :=
  seen c = scan_seen s ∧ matches s = scan_entry source <$> patches c.

(** * The node-pty Spectre patch (scripts/patch-node-pty-spectre.js) *)

Module SpectrePatch.

Definition LF : ascii := "010"%char.
Definition CR : ascii := "013"%char.
Definition newline : string := String LF "".

(** [source.split(/\r?\n/)]: the text between the line breaks, a break
    being a line feed together with the carriage return before it, if any.
    The result is never empty. *)
Fixpoint split_lines (s : string) : list string :=
  match s with
  | EmptyString => [""]
  | String c rest =>
      let cons_to_first :=
        match split_lines rest with
        | l :: ls => String c l :: ls
        | [] => [String c ""]
        end in
      if bool_decide (c = LF) then "" :: split_lines rest
      else if bool_decide (c = CR) then
        match rest with
        | String c2 rest2 =>
            if bool_decide (c2 = LF) then "" :: split_lines rest2
            else cons_to_first
        | EmptyString => cons_to_first
        end
      else cons_to_first
  end.

(** [\s] of a regular expression, among the code units of [string]: tab,
    line feed, vertical tab, form feed, carriage return, space and
    no-break space. *)
Definition is_space (c : ascii) : bool :=
  bool_decide (c ∈ ["009"; LF; "011"; "012"; CR; " "; "160"]%char).

Fixpoint skip_spaces (s : string) : string :=
  match s with
  | EmptyString => ""
  | String c s' => if is_space c then skip_spaces s' else s
  end.

Fixpoint all_spaces (s : string) : bool :=
  match s with
  | EmptyString => true
  | String c s' => is_space c && all_spaces s'
  end.

(** [/^\s*},\s*$/.test(line)]. *)
Definition closes_block (line : string) : bool :=
  let rest := skip_spaces line in
  String.prefix "}," rest && all_spaces (drop 2 rest).

Definition ATTRIBUTES : string := "'msvs_configuration_attributes'".

(** The loop of [removeSpectreBlock] over the remaining lines, with the
    variables [isSkipping], [removed] and [out]. *)
Fixpoint remove_loop (lines : list string) (isSkipping removed : bool)
    (out : list string) : bool * list string :=
  match lines with
  | [] => (removed, out)
  | line :: rest =>
      if negb isSkipping && includes line ATTRIBUTES
      then remove_loop rest true true out
      else if isSkipping
      then remove_loop rest (negb (closes_block line)) removed out
      else remove_loop rest isSkipping removed (out ++ [line])
  end.

Record removal : Type := mkRemoval {
  changed : bool;
  code : string
}.

Definition removeSpectreBlock (source : string) : removal :=
  let r := remove_loop (split_lines source) false false [] in
  {| changed := fst r; code := String.concat newline (snd r) |}.

(** [source.includes("SpectreMitigation") && source.includes("'Spectre'")]. *)
Definition hasSpectre (source : string) : bool :=
  includes source "SpectreMitigation" && includes source "'Spectre'".

(** Which message a run prints last. *)
Inductive note : Type :=
| NotWindows
| FileMissing
| Checked (found : bool)
| AlreadyClean
| BlockNotFound
| BlockRemoved.

Record run : Type := mkRun {
  status : Z;
  wrote : option string;
  said : note
}.

(** [main], given the command line, the platform and the file
    [node_modules/node-pty/binding.gyp] ([None] when it does not exist). *)
Definition main (isCheck : bool) (platform : string) (file : option string) : run :=
  if negb (String.eqb platform "win32") then mkRun 0 None NotWindows else
  match file with
  | None => mkRun 0 None FileMissing
  | Some source =>
      if isCheck then mkRun 0 None (Checked (hasSpectre source)) else
      if negb (hasSpectre source) then mkRun 0 None AlreadyClean else
      let r := removeSpectreBlock source in
      if negb (changed r) then mkRun 1 None BlockNotFound
      else mkRun 0 (Some (code r)) BlockRemoved
  end.

(** The lines [removeSpectreBlock] keeps. *)
Definition kept_lines (lines : list string) : list string :=
  snd (remove_loop lines false false []).

(** A text without line feed and carriage return. *)
Fixpoint one_line (s : string) : bool :=
  match s with
  | EmptyString => true
  | String c s' =>
      negb (bool_decide (c = LF)) && negb (bool_decide (c = CR)) && one_line s'
  end.

(** [c] does not occur in [s]. *)
Fixpoint free_of (c : ascii) (s : string) : bool :=
  match s with
  | EmptyString => true
  | String d s' => negb (bool_decide (d = c)) && free_of c s'
  end.

End SpectrePatch.

(** ** Sample build files *)

Module SpectreSamples.
Import SpectrePatch.

(** A build file with the attribute block, as node-pty ships it. *)
Definition gyp_lines : list string :=
  [ "{";
    "  'conditions': [";
    "    'msvs_configuration_attributes': {";
    "      'SpectreMitigation': 'Spectre'";
    "    },";
    "    'sources': []";
    "  ]";
    "}" ].

Definition gyp : string := String.concat newline gyp_lines.

(** The same file after the block has been cut. *)
Definition gyp_clean : string :=
  String.concat newline
    [ "{"; "  'conditions': ["; "    'sources': []"; "  ]"; "}" ].

(** A file whose block closes on a line that also holds something else. *)
Definition gyp_open_lines : list string :=
  [ "{";
    "  'msvs_configuration_attributes': {";
    "    'SpectreMitigation': 'Spectre' },";
    "  'sources': []";
    "}" ].

Definition gyp_open : string := String.concat newline gyp_open_lines.

End SpectreSamples.

(** * The script for both build files

    The later version of the script visits two build files in turn and
    stops with status 1 at the first one it cannot patch.  Its
    [removeSpectreBlock] is the one above. *)

Module SpectrePatchAll.

Definition NODE_PTY : string := "node-pty/binding.gyp".
Definition WINPTY : string := "node-pty/deps/winpty/src/winpty.gyp".

(** What a run prints. *)
Inductive message : Type :=
| NotWindows
| FileMissing (name : string)
| Checked (name : string) (found : bool)
| BlockNotFound (name : string)
| BlockRemoved (name : string)
| NothingFound
| AlreadyRemoved.

#[global] Instance message_eq_dec : EqDecision message.
Proof. solve_decision. Defined.

(** The variables of [main] and its effects so far: the files written
    (name and text) and the messages printed, both in order. *)
Record progress : Type := mkProgress {
  foundAny : bool;
  patchedAny : bool;
  written : list (string * string);
  printed : list message
}.

Definition start : progress := mkProgress false false [] [].

Definition say (p : progress) (m : message) : progress :=
  mkProgress (foundAny p) (patchedAny p) (written p) (printed p ++ [m]).

(** The loop over the targets, each with the content of its file ([None]
    when the file does not exist).  The first component tells whether the
    loop left through [process.exit(1)]. *)
Fixpoint targets_loop (isCheck : bool) (targets : list (string * option string))
    (p : progress) : bool * progress :=
  match targets with
  | [] => (false, p)
  | (name, None) :: rest => targets_loop isCheck rest (say p (FileMissing name))
  | (name, Some source) :: rest =>
      let hasSpectre := SpectrePatch.hasSpectre source in
      let p := mkProgress (if hasSpectre then true else foundAny p)
                          (patchedAny p) (written p) (printed p) in
      if isCheck then targets_loop isCheck rest (say p (Checked name hasSpectre))
      else if negb hasSpectre then targets_loop isCheck rest p
      else
        let r := SpectrePatch.removeSpectreBlock source in
        if negb (SpectrePatch.changed r) then (true, say p (BlockNotFound name))
        else
          targets_loop isCheck rest
            (mkProgress (foundAny p) true
                        (written p ++ [(name, SpectrePatch.code r)])
                        (printed p ++ [BlockRemoved name]))
  end.

Record run : Type := mkRun {
  status : Z;
  wrote : list (string * string);
  said : list message
}.

(** [main], given the command line, the platform and the two build files. *)
Definition main (isCheck : bool) (platform : string)
    (nodePty winpty : option string) : run :=
  if negb (String.eqb platform "win32") then mkRun 0 [] [NotWindows] else
  let r := targets_loop isCheck [(NODE_PTY, nodePty); (WINPTY, winpty)] start in
  let p := snd r in
  if fst r then mkRun 1 (written p) (printed p) else
  if isCheck then mkRun 0 (written p) (printed p) else
  if negb (foundAny p) then mkRun 0 (written p) (printed p ++ [NothingFound]) else
  if negb (patchedAny p) then mkRun 0 (written p) (printed p ++ [AlreadyRemoved])
  else mkRun 0 (written p) (printed p).

(** A build file that names the mitigation but has no attribute block. *)
Definition gyp_drifted : string :=
  String.concat SpectrePatch.newline
    [ "{"; "  'SpectreMitigation': 'Spectre',"; "}" ].

End SpectrePatchAll.

(** * The performance patch

    [scripts/patch-performance.js] injects five pieces of text into the main
    process bundle, each behind a marker of its own.  The texts are the
    script's literals, written with [dquote] for the double quote and [nl]
    for the line feed. *)

Module PerfPatch.

Definition nl : string := String "010"%char "".

Definition PERF_MARKER : string := "/* codex-perf-patch:v1 */".
Definition WINDOW_MARKER : string := "codex-perf-window-hooks:v1".
Definition STARTUP_MARKER : string := "codex-perf-startup-defer:v1".
Definition DIAG_MARKER : string := "codex-perf-diagnostics:v1".
Definition PROCESS_MARKER : string := "codex-perf-process-errors:v1".

(** ** The literals of the five injectors *)

Definition perf_needle : string :=
  dquote +:+ "use strict" +:+ dquote +:+ ";".

Definition perf_injection : string :=
  PERF_MARKER +:+ nl +:+
  "const __codexPerfConfig=(()=>{const enabled=!!process.env.CODEX_PERF_LOG&&process.env.CODEX_PERF_LOG!==" +:+
  dquote +:+ "0" +:+ dquote +:+
  ";const deferInit=!!process.env.CODEX_DEFER_INIT&&process.env.CODEX_DEFER_INIT!==" +:+
  dquote +:+ "0" +:+ dquote +:+
  ";const disableDevtoolsInstall=!!process.env.CODEX_DISABLE_DEVTOOLS_INSTALL&&process.env.CODEX_DISABLE_DEVTOOLS_INSTALL!==" +:+
  dquote +:+ "0" +:+ dquote +:+
  ";const verbose=!!process.env.CODEX_PERF_LOG_STDERR&&process.env.CODEX_PERF_LOG_STDERR!==" +:+
  dquote +:+ "0" +:+ dquote +:+ ";const t0=typeof process.hrtime===" +:+
  dquote +:+ "function" +:+ dquote +:+
  "&&typeof process.hrtime.bigint===" +:+ dquote +:+ "function" +:+
  dquote +:+
  "?process.hrtime.bigint():null;let logFilePath=null;let pending=[];let flushTimer=null;function nowNs(){if(t0)return String(process.hrtime.bigint()-t0);return String(Date.now()*1e6)}function resolveLogFile(){if(logFilePath)return logFilePath;const p=require(" +:+
  dquote +:+ "path" +:+ dquote +:+ "),os=require(" +:+ dquote +:+ "os" +:+
  dquote +:+ "),fs=require(" +:+ dquote +:+ "fs" +:+ dquote +:+
  ");let dir=process.env.CODEX_PERF_LOG_DIR; if(!dir){try{const e=require(" +:+
  dquote +:+ "electron" +:+ dquote +:+
  ");const a=e&&e.app;if(a&&typeof a.getPath===" +:+ dquote +:+
  "function" +:+ dquote +:+ ")dir=p.join(a.getPath(" +:+ dquote +:+
  "userData" +:+ dquote +:+ ")," +:+ dquote +:+ "perf" +:+ dquote +:+
  ");}catch{}} if(!dir)dir=p.join(os.tmpdir()," +:+ dquote +:+
  "codex-perf" +:+ dquote +:+
  ");try{fs.mkdirSync(dir,{recursive:!0})}catch{}const name=process.env.CODEX_PERF_LOG_FILE_NAME||(" +:+
  dquote +:+ "perf-" +:+ dquote +:+ "+process.pid+" +:+ dquote +:+
  ".jsonl" +:+ dquote +:+
  ");logFilePath=p.join(dir,name);return logFilePath}function flush(){flushTimer=null;if(pending.length===0)return;const fs=require(" +:+
  dquote +:+ "fs" +:+ dquote +:+ ");const out=pending.join(" +:+ dquote +:+
  "\n" +:+ dquote +:+ ")+" +:+ dquote +:+ "\n" +:+ dquote +:+
  ";pending=[];try{fs.appendFile(resolveLogFile(),out,()=>{})}catch{}}function mark(name,data){if(!enabled)return;const rec={t_ns:nowNs(),name, data:data??null, pid:process.pid};const line=JSON.stringify(rec);pending.push(line);if(verbose)try{process.stderr.write(line+" +:+
  dquote +:+ "\n" +:+ dquote +:+
  ")}catch{};if(!flushTimer)flushTimer=setTimeout(flush,50)}return{enabled,deferInit,disableDevtoolsInstall,mark}})();function __codexPerfMark(name,data){try{__codexPerfConfig.mark(name,data)}catch{}}" +:+
  nl.

Definition window_needle : string :=
  "devTools:this.options.allowDevtools}});(a===" +:+ dquote +:+ "primary" +:+
  dquote +:+ "||a===" +:+ dquote +:+ "hud" +:+ dquote +:+ ")&&y.on(" +:+
  dquote +:+ "page-title-updated" +:+ dquote.

Definition window_insertion : string :=
  "devTools:this.options.allowDevtools}});/* " +:+ WINDOW_MARKER +:+
  " */__codexPerfMark(" +:+ dquote +:+ "window.created" +:+ dquote +:+
  ",{id:y.id,appearance:a,show:o});y.once(" +:+ dquote +:+
  "ready-to-show" +:+ dquote +:+ ",()=>__codexPerfMark(" +:+ dquote +:+
  "window.ready_to_show" +:+ dquote +:+ ",{id:y.id}));y.on(" +:+ dquote +:+
  "show" +:+ dquote +:+ ",()=>__codexPerfMark(" +:+ dquote +:+
  "window.show" +:+ dquote +:+ ",{id:y.id}));y.webContents.once(" +:+
  dquote +:+ "dom-ready" +:+ dquote +:+ ",()=>__codexPerfMark(" +:+
  dquote +:+ "webcontents.dom_ready" +:+ dquote +:+
  ",{id:y.id}));y.webContents.once(" +:+ dquote +:+ "did-finish-load" +:+
  dquote +:+ ",()=>__codexPerfMark(" +:+ dquote +:+
  "webcontents.did_finish_load" +:+ dquote +:+ ",{id:y.id}));(a===" +:+
  dquote +:+ "primary" +:+ dquote +:+ "||a===" +:+ dquote +:+ "hud" +:+
  dquote +:+ ")&&y.on(" +:+ dquote +:+ "page-title-updated" +:+ dquote.

Definition whenReadyStartNeedle : string :=
  "U.app.whenReady().then(async()=>{".

Definition afterWhenReadyNeedle : string :=
  "});U.app.on(" +:+ dquote +:+ "activate" +:+ dquote.

Definition startup_replacement : string :=
  "U.app.whenReady().then(async()=>{/* " +:+ STARTUP_MARKER +:+
  " */__codexPerfMark(" +:+ dquote +:+ "app.whenReady.begin" +:+ dquote +:+
  ");if(ck.registerProtocolClient(),Cse(lB(Ip)),Xe.isInternal(dn))try{const{startAppliedDevboxCacheRefresher:t}=await Promise.resolve().then(()=>require(" +:+
  dquote +:+ "./applied-devbox-cache-CkiLfgk8.js" +:+ dquote +:+
  "));ar.add(t({codexHome:OB}))}catch(t){Zt().warning(" +:+ dquote +:+
  "Failed to start applied devbox cache refresher" +:+ dquote +:+
  ",{message:xe(t)}),__codexPerfMark(" +:+ dquote +:+
  "appliedDevboxCacheRefresher.error" +:+ dquote +:+
  ",{message:xe(t)})}const __codexDeferEnv=process.env.CODEX_DEFER_INIT;const __codexDefer=__codexDeferEnv==null?U.app.isPackaged:!(__codexDeferEnv===" +:+
  dquote +:+ "0" +:+ dquote +:+ "||__codexDeferEnv===" +:+ dquote +:+
  "false" +:+ dquote +:+ ");if(__codexDefer){__codexPerfMark(" +:+ dquote +:+
  "startup.defer_init.enabled" +:+ dquote +:+
  ",{packaged:U.app.isPackaged});try{__codexPerfMark(" +:+ dquote +:+
  "startup.primary_window.create.begin" +:+ dquote +:+
  ",{hostId:Ot}),await Dc(Ot),__codexPerfMark(" +:+ dquote +:+
  "startup.primary_window.create.end" +:+ dquote +:+
  ",{hostId:Ot})}catch(t){__codexPerfMark(" +:+ dquote +:+
  "startup.primary_window.create.error" +:+ dquote +:+
  ",{message:xe(t)});throw t}setImmediate(async()=>{try{__codexPerfMark(" +:+
  dquote +:+ "startup.post_show_init.begin" +:+ dquote +:+
  ");try{__codexPerfMark(" +:+ dquote +:+ "sparkle.initialize.begin" +:+
  dquote +:+ "),await SS.initialize(),__codexPerfMark(" +:+ dquote +:+
  "sparkle.initialize.end" +:+ dquote +:+ ")}catch(t){Zt().warning(" +:+
  dquote +:+ "Sparkle initialize failed" +:+ dquote +:+
  ",{message:xe(t)}),__codexPerfMark(" +:+ dquote +:+
  "sparkle.initialize.error" +:+ dquote +:+
  ",{message:xe(t)})}try{__codexPerfMark(" +:+ dquote +:+
  "globalState.prune.begin" +:+ dquote +:+
  "),await Qle(eo),__codexPerfMark(" +:+ dquote +:+
  "globalState.prune.end" +:+ dquote +:+ ")}catch(t){Zt().warning(" +:+
  dquote +:+ "Global state prune failed" +:+ dquote +:+
  ",{message:xe(t)}),__codexPerfMark(" +:+ dquote +:+
  "globalState.prune.error" +:+ dquote +:+
  ",{message:xe(t)})}if(Dp&&!__codexPerfConfig.disableDevtoolsInstall)try{__codexPerfMark(" +:+
  dquote +:+ "devtools.install.begin" +:+ dquote +:+
  "),await _w.installExtension(_w.REACT_DEVELOPER_TOOLS,{loadExtensionOptions:{allowFileAccess:!0}}),__codexPerfMark(" +:+
  dquote +:+ "devtools.install.end" +:+ dquote +:+
  ")}catch(t){Zt().warning(" +:+ dquote +:+
  "Failed to install React DevTools (" +:+ dquote +:+ "+xe(t)+" +:+
  dquote +:+ ")" +:+ dquote +:+ "),__codexPerfMark(" +:+ dquote +:+
  "devtools.install.error" +:+ dquote +:+
  ",{message:xe(t)})}try{__codexPerfMark(" +:+ dquote +:+
  "hosts.refresh.begin" +:+ dquote +:+
  "),await Np.refresh(),__codexPerfMark(" +:+ dquote +:+
  "hosts.refresh.end" +:+ dquote +:+ ")}catch(t){Zt().warning(" +:+
  dquote +:+ "Hosts refresh failed" +:+ dquote +:+
  ",{message:xe(t)}),__codexPerfMark(" +:+ dquote +:+
  "hosts.refresh.error" +:+ dquote +:+
  ",{message:xe(t)})}try{__codexPerfMark(" +:+ dquote +:+
  "deeplinks.flush.begin" +:+ dquote +:+
  "),await ck.flushPendingDeepLinks(),__codexPerfMark(" +:+ dquote +:+
  "deeplinks.flush.end" +:+ dquote +:+ ")}catch(t){Zt().warning(" +:+
  dquote +:+ "Deep links flush failed" +:+ dquote +:+
  ",{message:xe(t)}),__codexPerfMark(" +:+ dquote +:+
  "deeplinks.flush.error" +:+ dquote +:+
  ",{message:xe(t)})}__codexPerfMark(" +:+ dquote +:+
  "startup.post_show_init.end" +:+ dquote +:+
  ")}catch(t){__codexPerfMark(" +:+ dquote +:+
  "startup.post_show_init.fatal" +:+ dquote +:+
  ",{message:xe(t)})}});__codexPerfMark(" +:+ dquote +:+
  "app.whenReady.end" +:+ dquote +:+
  ");return}await SS.initialize(),await Qle(eo),Dp&&!__codexPerfConfig.disableDevtoolsInstall&&_w.installExtension(_w.REACT_DEVELOPER_TOOLS,{loadExtensionOptions:{allowFileAccess:!0}}).catch(t=>{Zt().warning(" +:+
  dquote +:+ "Failed to install React DevTools (" +:+ dquote +:+
  "+xe(t)+" +:+ dquote +:+ ")" +:+ dquote +:+ "),__codexPerfMark(" +:+
  dquote +:+ "devtools.install.error" +:+ dquote +:+
  ",{message:xe(t)})}),await Np.refresh(),await Dc(Ot),await ck.flushPendingDeepLinks(),__codexPerfMark(" +:+
  dquote +:+ "app.whenReady.end" +:+ dquote +:+ ")});".

Definition installNeedle : string :=
  "installWebContentsDiagnostics(e){const n=e.webContents,r=e.id,i=n.id,a=this.options.errorReporter;".

Definition install_replacement : string :=
  installNeedle +:+ "/* " +:+ DIAG_MARKER +:+ " */__codexPerfMark(" +:+
  dquote +:+ "webcontents.diagnostics.install" +:+ dquote +:+
  ",{windowId:r,webContentsId:i});".

Definition gone_pattern : string :=
  "n.on(" +:+ dquote +:+ "render-process-gone" +:+ dquote +:+ ",(o,s)=>{".

Definition gone_replacement : string :=
  "n.on(" +:+ dquote +:+ "render-process-gone" +:+ dquote +:+
  ",(o,s)=>{__codexPerfMark(" +:+ dquote +:+
  "webcontents.render_process_gone" +:+ dquote +:+
  ",{windowId:r,webContentsId:i,reason:s.reason,exitCode:s.exitCode});".

Definition finish_pattern : string :=
  "n.on(" +:+ dquote +:+ "did-finish-load" +:+ dquote +:+
  ",()=>{this.rendererRecoveryAttempts.delete(i)}),".

Definition finish_replacement : string :=
  "n.on(" +:+ dquote +:+ "did-finish-load" +:+ dquote +:+
  ",()=>{__codexPerfMark(" +:+ dquote +:+ "webcontents.did_finish_load" +:+
  dquote +:+
  ",{windowId:r,webContentsId:i});this.rendererRecoveryAttempts.delete(i)}),".

Definition unresponsive_pattern : string :=
  "n.on(" +:+ dquote +:+ "unresponsive" +:+ dquote +:+ ",()=>{".

Definition unresponsive_replacement : string :=
  "n.on(" +:+ dquote +:+ "unresponsive" +:+ dquote +:+
  ",()=>{__codexPerfMark(" +:+ dquote +:+ "webcontents.unresponsive" +:+
  dquote +:+ ",{windowId:r,webContentsId:i,url:Wv(n.getURL())});".

Definition fail_pattern : string :=
  "n.on(" +:+ dquote +:+ "did-fail-load" +:+ dquote +:+ ",(o,s,c,u,l,p,d)=>{".

Definition fail_replacement : string :=
  "n.on(" +:+ dquote +:+ "did-fail-load" +:+ dquote +:+
  ",(o,s,c,u,l,p,d)=>{__codexPerfMark(" +:+ dquote +:+
  "webcontents.did_fail_load" +:+ dquote +:+
  ",{windowId:r,webContentsId:i,errorCode:s,errorDescription:c,validatedURL:Wv(u)});".

Definition recover_pattern : string :=
  "setTimeout(()=>{if(!e.isDestroyed()&&!e.webContents.isDestroyed())try{e.webContents.reload()}".

Definition recover_replacement : string :=
  "setTimeout(()=>{__codexPerfMark(" +:+ dquote +:+
  "webcontents.crash_recover.reload" +:+ dquote +:+
  ",{windowId:e.id,webContentsId:r.id,reason:n});if(!e.isDestroyed()&&!e.webContents.isDestroyed())try{e.webContents.reload()}".

Definition process_needle : string :=
  "function __codexPerfMark(name,data){try{__codexPerfConfig.mark(name,data)}catch{}}".

Definition process_injection : string :=
  process_needle +:+ "/* " +:+ PROCESS_MARKER +:+ " */process.on(" +:+
  dquote +:+ "uncaughtException" +:+ dquote +:+ ",t=>{__codexPerfMark(" +:+
  dquote +:+ "process.uncaught_exception" +:+ dquote +:+
  ",{message:String(t&&t.stack||t)})});process.on(" +:+ dquote +:+
  "unhandledRejection" +:+ dquote +:+ ",t=>{__codexPerfMark(" +:+ dquote +:+
  "process.unhandled_rejection" +:+ dquote +:+
  ",{message:String(t&&t.stack||t)})});".

Definition requiredSignals : list string :=
  [ DIAG_MARKER;
    "webcontents.render_process_gone";
    "webcontents.did_finish_load";
    "webcontents.unresponsive";
    "webcontents.did_fail_load";
    "webcontents.crash_recover.reload" ].

(** ** The injectors *)

Definition hasMarker (contents marker : string) : bool :=
  includes contents marker.

Record injected : Type := mkInjected {
  changed : bool;
  contents : string
}.

(** [s.replace(pattern, replacement)] for a string pattern and a
    replacement text without [$]: the first occurrence is replaced. *)
Definition replace (s pattern replacement : string) : string :=
  let idx := indexOf s pattern 0 in
  if idx =? -1 then s
  else slice s 0 idx +:+ replacement
       +:+ slice_from s (idx + Z.of_nat (String.length pattern)).

(** In the injectors [None] stands for the error message followed by
    [process.exit(1)]. *)
Definition injectPerfHelpers (mainBundle : string) : option injected :=
  if hasMarker mainBundle PERF_MARKER then Some (mkInjected false mainBundle) else
  let needle := perf_needle in
  let idx := indexOf mainBundle needle 0 in
  if negb (idx =? 0) then None else
  let out := needle +:+ nl +:+ perf_injection
             +:+ slice_from mainBundle (Z.of_nat (String.length needle)) in
  Some (mkInjected true out).

Definition injectWindowHooks (mainBundle : string) : option injected :=
  if hasMarker mainBundle WINDOW_MARKER then Some (mkInjected false mainBundle) else
  let needle := window_needle in
  let idx := indexOf mainBundle needle 0 in
  if idx =? -1 then None else
  let out := slice mainBundle 0 idx +:+ window_insertion
             +:+ slice_from mainBundle (idx + Z.of_nat (String.length needle)) in
  Some (mkInjected true out).

Definition injectWhenReadyOptimization (mainBundle : string) : option injected :=
  if hasMarker mainBundle STARTUP_MARKER then Some (mkInjected false mainBundle) else
  let whenReadyStartIdx := indexOf mainBundle whenReadyStartNeedle 0 in
  if whenReadyStartIdx =? -1 then None else
  let afterWhenReadyIdx := indexOf mainBundle afterWhenReadyNeedle whenReadyStartIdx in
  if afterWhenReadyIdx =? -1 then None else
  let whenReadyBlockEnd := afterWhenReadyIdx + 3 in
  let out := slice mainBundle 0 whenReadyStartIdx +:+ startup_replacement
             +:+ slice_from mainBundle whenReadyBlockEnd in
  Some (mkInjected true out).

Definition injectDiagnosticsMarks (mainBundle : string) : option injected :=
  if hasMarker mainBundle DIAG_MARKER then Some (mkInjected false mainBundle) else
  if negb (includes mainBundle installNeedle) then None else
  let out := replace mainBundle installNeedle install_replacement in
  let out := replace out gone_pattern gone_replacement in
  let out := replace out finish_pattern finish_replacement in
  let out := replace out unresponsive_pattern unresponsive_replacement in
  let out := replace out fail_pattern fail_replacement in
  let out := replace out recover_pattern recover_replacement in
  if forallb (includes out) requiredSignals then Some (mkInjected true out)
  else None.

Definition injectProcessErrorMarks (mainBundle : string) : option injected :=
  if hasMarker mainBundle PROCESS_MARKER then Some (mkInjected false mainBundle) else
  let needle := process_needle in
  let idx := indexOf mainBundle needle 0 in
  if idx =? -1 then None else
  let out := slice mainBundle 0 idx +:+ process_injection
             +:+ slice_from mainBundle (idx + Z.of_nat (String.length needle)) in
  Some (mkInjected true out).

(** ** Finding the bundle *)

Definition is_quote (c : ascii) : bool :=
  bool_decide (c = "034"%char) || bool_decide (c = "'"%char).

(** The longest run of code units other than quotes at the head of [s], and
    what follows it. *)
Fixpoint span_unquoted (s : string) : string * string :=
  match s with
  | EmptyString => ("", "")
  | String c s' =>
      if is_quote c then ("", s)
      else (String c (fst (span_unquoted s')), snd (span_unquoted s'))
  end.

Definition strip_prefix (p s : string) : option string :=
  if String.prefix p s then Some (drop (String.length p) s) else None.

Definition ends_with (s suffix : string) : bool :=
  String.eqb (drop (String.length s - String.length suffix) s) suffix.

(** [/require\(\s*["']\.\/(main-[^"']+\.js)["']\s*\)/] tried at the head of
    [s]; the result is group 1.  The class [[^"']+] cannot cross a quote and
    [\.js] must be followed by one, so the group is [main-] and the whole
    run of unquoted code units after it, which has to end in [.js] and be
    longer than that. *)
Definition match_require_here (s : string) : option string :=
  match strip_prefix "require(" s with
  | None => None
  | Some rest =>
      match SpectrePatch.skip_spaces rest with
      | EmptyString => None
      | String q rest =>
          if negb (is_quote q) then None else
          match strip_prefix "./main-" rest with
          | None => None
          | Some rest =>
              let name := fst (span_unquoted rest) in
              if negb ((3 <? String.length name)%nat && ends_with name ".js")
              then None else
              match snd (span_unquoted rest) with
              | EmptyString => None
              | String _ rest =>
                  if String.prefix ")" (SpectrePatch.skip_spaces rest)
                  then Some ("main-" +:+ name) else None
              end
          end
      end
  end.

(** [entry.match(...)]: the leftmost position at which the expression
    matches. *)
Fixpoint match_require (entry : string) : option string :=
  match match_require_here entry with
  | Some name => Some name
  | None =>
      match entry with
      | EmptyString => None
      | String _ rest => match_require rest
      end
  end.

(** [locateMainBundle], given the build directory as a map from the path of
    a file relative to it to the file's content.  The result is
    [bundleBasename]; [None] stands for [process.exit(1)]. *)
Definition locateMainBundle (buildDir : string → option string) : option string :=
  match buildDir "main.js" with
  | None => None
  | Some entry =>
      match match_require entry with
      | None => None
      | Some bundleBasename =>
          match buildDir bundleBasename with
          | None => None
          | Some _ => Some bundleBasename
          end
      end
  end.

(** ** The driver *)

Record markers : Type := mkMarkers {
  hasPerfHelpers : bool;
  hasWindowHooks : bool;
  hasStartupOptimization : bool;
  hasDiagnosticsMarks : bool;
  hasProcessErrorMarks : bool
}.

Inductive note : Type :=
| Failed
| Report (status : markers)
| AlreadyPatched
| Patched.

Record run : Type := mkRun {
  status : Z;
  wrote : option (string * string);
  said : note
}.

Definition exit1 : run := mkRun 1 None Failed.

(** [main], given the command line and the build directory.  What is
    written is the bundle's name and its new content. *)
Definition main (isCheck : bool) (buildDir : string → option string) : run :=
  match locateMainBundle buildDir with
  | None => exit1
  | Some bundleBasename =>
  match buildDir bundleBasename with
  | None => exit1
  | Some original =>
      let status :=
        mkMarkers (hasMarker original PERF_MARKER)
                  (hasMarker original WINDOW_MARKER)
                  (hasMarker original STARTUP_MARKER)
                  (hasMarker original DIAG_MARKER)
                  (hasMarker original PROCESS_MARKER) in
      if isCheck then mkRun 0 None (Report status) else
      match injectPerfHelpers original with
      | None => exit1
      | Some perfResult =>
      match injectWindowHooks (contents perfResult) with
      | None => exit1
      | Some windowResult =>
      match injectWhenReadyOptimization (contents windowResult) with
      | None => exit1
      | Some whenReadyResult =>
      match injectDiagnosticsMarks (contents whenReadyResult) with
      | None => exit1
      | Some diagResult =>
      match injectProcessErrorMarks (contents diagResult) with
      | None => exit1
      | Some processResult =>
          let changed :=
            changed perfResult || changed windowResult
            || changed whenReadyResult || changed diagResult
            || changed processResult in
          if negb changed then mkRun 0 None AlreadyPatched
          else mkRun 0 (Some (bundleBasename, contents processResult)) Patched
      end end end end end
  end end.

(** ** Definitions used to state properties *)

(** The injectors in the order [main] runs them, each with its marker. *)
Definition injectors : list (string * (string → option injected)) :=
  [ (PERF_MARKER, injectPerfHelpers);
    (WINDOW_MARKER, injectWindowHooks);
    (STARTUP_MARKER, injectWhenReadyOptimization);
    (DIAG_MARKER, injectDiagnosticsMarks);
    (PROCESS_MARKER, injectProcessErrorMarks) ].

Definition all_markers (s : string) : bool :=
  forallb (fun mf => hasMarker s (fst mf)) injectors.

(** A bundle as the build gives it, and a build directory holding it. *)
Definition plain_bundle : string :=
  perf_needle +:+ "var a=1;" +:+ window_needle +:+ "(x);"
  +:+ whenReadyStartNeedle +:+ "boot()" +:+ afterWhenReadyNeedle +:+ ",f);"
  +:+ installNeedle +:+ gone_pattern +:+ "}),"
  +:+ finish_pattern +:+ unresponsive_pattern +:+ "}),"
  +:+ fail_pattern +:+ "});" +:+ recover_pattern +:+ "catch{}},0)}".

Definition plain_entry : string :=
  dquote +:+ "use strict" +:+ dquote +:+ ";require(" +:+ dquote
  +:+ "./main-CQwPb0Th.js" +:+ dquote +:+ ");".

Definition plain_dir (bundle : string) (path : string) : option string :=
  if String.eqb path "main.js" then Some plain_entry
  else if String.eqb path "main-CQwPb0Th.js" then Some bundle
  else None.

End PerfPatch.




(** * Runs in which a file-system call throws

    [fs.readdirSync], [fs.readFileSync] and [fs.writeFileSync] throw when
    the operating system refuses the call: a path that exists but cannot be
    read, a directory in place of a file, a file that cannot be written.
    None of the four scripts catches an exception, so a throw ends the
    process with status 1, after the writes already made.  The drivers above
    are the runs in which every call returns; the drivers below take each
    call with both of its outcomes. *)

Module Throwing.

(** The call that threw. *)
Inductive fs_call : Type :=
| Readdir (path : string)
| ReadFile (path : string)
| WriteFile (path text : string).

(** How a run ends: with an uncaught exception, or the way the script
    says. *)
Inductive ending (R : Type) : Type :=
| Thrown (call : fs_call)
| Ended (r : R).
Arguments Thrown {R} call.
Arguments Ended {R} r.

(** ** scripts/patch-slash-commands.js *)

Module Slash.

Section Driver.
(** The environment of a run.  [readdirSync] and [readFileSync] are [None]
    and [writeFileSync] is [false] when the call throws; [parse] is [None]
    when the parser throws its syntax error. *)
Variable isCheck : bool.
Variable assetsDir : string.
Variable existsSync : bool.
Variable readdirSync : option (list string).
Variable path_join : string → string → string.
Variable readFileSync : string → option string.
Variable parse : string → option value.
Variable writeFileSync : string → string → bool.

Definition locateBundle : ending (exit_or string) :=
  if negb existsSync then Ended (Exit 1) else
  match readdirSync with
  | None => Thrown (Readdir assetsDir)
  | Some names =>
      let files := filter (fun f => is_index_bundle f = true) names in
      if Z.of_nat (length files) =? 0 then Ended (Exit 1) else
      if Z.of_nat (length files) >? 1 then Ended (Exit 1) else
      Ended (Return (path_join assetsDir (nth 0 files "")))
  end.

Definition main : ending outcome :=
  match locateBundle with
  | Thrown call => Thrown call
  | Ended (Exit code) => Ended (mkOutcome code None LocatorFailure)
  | Ended (Return bundlePath) =>
      match readFileSync bundlePath with
      | None => Thrown (ReadFile bundlePath)
      | Some source =>
          match parse source with
          | None => Ended (mkOutcome 1 None ParseFailure)
          | Some ast =>
              if isCheck then Ended (main_check ast source) else
              let o := main_apply ast source in
              match written o with
              | None => Ended o
              | Some code =>
                  if writeFileSync bundlePath code then Ended o
                  else Thrown (WriteFile bundlePath code)
              end
          end
      end
  end.
End Driver.

(** The exit status of the process. *)
Definition exit_status (r : ending outcome) : Z :=
  match r with
  | Thrown _ => 1
  | Ended o => exit_code o
  end.

(** The text the run passed to [fs.writeFileSync], if it made the call. *)
Definition passed_to_write (r : ending outcome) : option string :=
  match r with
  | Thrown (WriteFile _ text) => Some text
  | Thrown _ => None
  | Ended o => written o
  end.

End Slash.

(** ** scripts/patch-node-pty-spectre.js *)

Module Spectre.

(** [main], given the command line, the platform, the path of the build
    file, whether it exists, and what reading it and writing it do. *)
Definition main (isCheck : bool) (platform : string) (bindingGypPath : string)
    (existsSync : bool) (readFileSync : option string)
    (writeFileSync : string → bool) : ending SpectrePatch.run :=
  if negb (String.eqb platform "win32")
  then Ended (SpectrePatch.mkRun 0 None SpectrePatch.NotWindows) else
  if negb existsSync
  then Ended (SpectrePatch.mkRun 0 None SpectrePatch.FileMissing) else
  match readFileSync with
  | None => Thrown (ReadFile bindingGypPath)
  | Some source =>
      let hasSpectre := SpectrePatch.hasSpectre source in
      if isCheck
      then Ended (SpectrePatch.mkRun 0 None (SpectrePatch.Checked hasSpectre)) else
      if negb hasSpectre
      then Ended (SpectrePatch.mkRun 0 None SpectrePatch.AlreadyClean) else
      let r := SpectrePatch.removeSpectreBlock source in
      if negb (SpectrePatch.changed r)
      then Ended (SpectrePatch.mkRun 1 None SpectrePatch.BlockNotFound) else
      if writeFileSync (SpectrePatch.code r)
      then Ended (SpectrePatch.mkRun 0 (Some (SpectrePatch.code r))
                    SpectrePatch.BlockRemoved)
      else Thrown (WriteFile bindingGypPath (SpectrePatch.code r))
  end.

Definition exit_status (r : ending SpectrePatch.run) : Z :=
  match r with
  | Thrown _ => 1
  | Ended o => SpectrePatch.status o
  end.

Definition passed_to_write (r : ending SpectrePatch.run) : option string :=
  match r with
  | Thrown (WriteFile _ text) => Some text
  | Thrown _ => None
  | Ended o => SpectrePatch.wrote o
  end.

End Spectre.

(** ** The script for both build files *)

Module SpectreAll.

(** A target of the loop: its name, whether its file exists and what
    reading it gives. *)
Record target : Type := mkTarget {
  name : string;
  exists_ : bool;
  content : option string
}.

(** How the loop is left: at its end, through [process.exit(1)], or by an
    exception. *)
Inductive leave : Type :=
| Finished
| Exited
| Threw (call : fs_call).

Import SpectrePatchAll.

Section Loop.
Variable isCheck : bool.
Variable writeFileSync : string → string → bool.

Fixpoint targets_loop (targets : list target) (p : progress) : leave * progress :=
  match targets with
  | [] => (Finished, p)
  | t :: rest =>
      if negb (exists_ t) then targets_loop rest (say p (FileMissing (name t))) else
      match content t with
      | None => (Threw (ReadFile (name t)), p)
      | Some source =>
          let hasSpectre := SpectrePatch.hasSpectre source in
          let p := mkProgress (if hasSpectre then true else foundAny p)
                              (patchedAny p) (written p) (printed p) in
          if isCheck then targets_loop rest (say p (Checked (name t) hasSpectre))
          else if negb hasSpectre then targets_loop rest p
          else
            let r := SpectrePatch.removeSpectreBlock source in
            if negb (SpectrePatch.changed r)
            then (Exited, say p (BlockNotFound (name t)))
            else if negb (writeFileSync (name t) (SpectrePatch.code r))
            then (Threw (WriteFile (name t) (SpectrePatch.code r)), p)
            else
              targets_loop rest
                (mkProgress (foundAny p) true
                            (written p ++ [(name t, SpectrePatch.code r)])
                            (printed p ++ [BlockRemoved (name t)]))
      end
  end.
End Loop.

(** [main]: how the run ends, and with it the exit status, the files
    written and the messages printed until then. *)
Definition main (isCheck : bool) (platform : string)
    (nodePty winpty : bool * option string)
    (writeFileSync : string → string → bool) : leave * run :=
  if negb (String.eqb platform "win32") then (Finished, mkRun 0 [] [NotWindows]) else
  let r := targets_loop isCheck writeFileSync
             [ mkTarget NODE_PTY (fst nodePty) (snd nodePty);
               mkTarget WINPTY (fst winpty) (snd winpty) ] start in
  let p := snd r in
  match fst r with
  | Threw call => (Threw call, mkRun 1 (written p) (printed p))
  | Exited => (Exited, mkRun 1 (written p) (printed p))
  | Finished =>
      (Finished,
       if isCheck then mkRun 0 (written p) (printed p) else
       if negb (foundAny p) then mkRun 0 (written p) (printed p ++ [NothingFound]) else
       if negb (patchedAny p) then mkRun 0 (written p) (printed p ++ [AlreadyRemoved])
       else mkRun 0 (written p) (printed p))
  end.

(** A target that stops the run with status 1: its file exists and cannot
    be read, or, without [--check], its text has the mitigation strings and
    either lacks the attribute key or cannot be written back. *)
Definition stops (isCheck : bool) (writeFileSync : string → string → bool)
    (t : target) : Prop :=
  exists_ t = true
  ∧ (content t = None
     ∨ ∃ source, content t = Some source ∧ isCheck = false
         ∧ SpectrePatch.hasSpectre source = true
         ∧ (includes source SpectrePatch.ATTRIBUTES = false
            ∨ writeFileSync (name t)
                (SpectrePatch.code (SpectrePatch.removeSpectreBlock source)) = false)).

End SpectreAll.

(** ** scripts/patch-performance.js *)

Module Perf.

Import PerfPatch.

Section Driver.
(** The build directory: which of its files exist, and what reading and
    writing them do. *)
Variable isCheck : bool.
Variable existsSync : string → bool.
Variable readFileSync : string → option string.
Variable writeFileSync : string → string → bool.

(** [locateMainBundle]; within [Ended], [None] stands for
    [process.exit(1)]. *)
Definition locateMainBundle : ending (option string) :=
  if negb (existsSync "main.js") then Ended None else
  match readFileSync "main.js" with
  | None => Thrown (ReadFile "main.js")
  | Some entry =>
      match match_require entry with
      | None => Ended None
      | Some bundleBasename =>
          if negb (existsSync bundleBasename) then Ended None
          else Ended (Some bundleBasename)
      end
  end.

Definition main : ending run :=
  match locateMainBundle with
  | Thrown call => Thrown call
  | Ended None => Ended exit1
  | Ended (Some bundleBasename) =>
  match readFileSync bundleBasename with
  | None => Thrown (ReadFile bundleBasename)
  | Some original =>
      let status :=
        mkMarkers (hasMarker original PERF_MARKER)
                  (hasMarker original WINDOW_MARKER)
                  (hasMarker original STARTUP_MARKER)
                  (hasMarker original DIAG_MARKER)
                  (hasMarker original PROCESS_MARKER) in
      if isCheck then Ended (mkRun 0 None (Report status)) else
      match injectPerfHelpers original with
      | None => Ended exit1
      | Some perfResult =>
      match injectWindowHooks (contents perfResult) with
      | None => Ended exit1
      | Some windowResult =>
      match injectWhenReadyOptimization (contents windowResult) with
      | None => Ended exit1
      | Some whenReadyResult =>
      match injectDiagnosticsMarks (contents whenReadyResult) with
      | None => Ended exit1
      | Some diagResult =>
      match injectProcessErrorMarks (contents diagResult) with
      | None => Ended exit1
      | Some processResult =>
          let changed :=
            changed perfResult || changed windowResult
            || changed whenReadyResult || changed diagResult
            || changed processResult in
          if negb changed then Ended (mkRun 0 None AlreadyPatched)
          else if writeFileSync bundleBasename (contents processResult)
          then Ended (mkRun 0 (Some (bundleBasename, contents processResult)) Patched)
          else Thrown (WriteFile bundleBasename (contents processResult))
      end end end end end
  end end.

(** The build directory as the driver of the runs without exceptions sees
    it. *)
Definition buildDir (path : string) : option string :=
  if existsSync path then readFileSync path else None.
End Driver.

Definition exit_status (r : ending run) : Z :=
  match r with
  | Thrown _ => 1
  | Ended o => status o
  end.

Definition passed_to_write (r : ending run) : option (string * string) :=
  match r with
  | Thrown (WriteFile path text) => Some (path, text)
  | Thrown _ => None
  | Ended o => wrote o
  end.

End Perf.

End Throwing.

(** * Properties *)

(** ** The walker calls its visitor along [walk_nodes] *)

Lemma walk_obj {St} (f : value → St → St) fields s :
  walk f (VObj fields) s
  = fold_left (fun s kv => walk_child f s (snd kv)) fields (f (VObj fields) s).
Proof. reflexivity. Qed.

Lemma walk_arr {St} (f : value → St → St) items s :
  walk f (VArr items) s = fold_left (walk_child f) items (f (VArr items) s).
Proof. reflexivity. Qed.

(** [l] lists the visitor calls of a state transformer that is generic in
    the visitor. *)
Definition calls (F : ∀ St, (value → St → St) → St → St) (l : list value) : Prop :=
  ∀ St (f : value → St → St) (s : St),
    F St f s = fold_left (fun s n => f n s) l s.

Lemma calls_fold {A} (step : ∀ St, (value → St → St) → St → A → St) (xs : list A) :
  Forall (fun x => ∃ l, calls (fun St f s => step St f s x) l) xs →
  ∃ l, calls (fun St f s => fold_left (step St f) xs s) l.
Proof.
  induction 1 as [|x xs [lx Hx] _ [lxs Hxs]].
  - exists []. intros St f s. reflexivity.
  - exists (lx ++ lxs). intros St f s. simpl.
    rewrite fold_left_app, <- Hx. apply Hxs.
Qed.

Lemma calls_guarded (b : bool) F l :
  calls F l →
  ∃ l', calls (fun St f s => if b then F St f s else s) l'.
Proof.
  intros H. destruct b; [exists l; exact H | exists []; intros St f s; reflexivity].
Qed.

Lemma calls_visit (v : value) l :
  calls (fun St f s => fold_left (fun s n => f n s) l (f v s)) (v :: l).
Proof. intros St f s. reflexivity. Qed.

Lemma calls_walk_both node :
  (∃ l, calls (fun St f s => walk f node s) l)
  ∧ (∃ l, calls (fun St f s => walk_child f s node) l).
Proof.
  induction node as [| | b | n | str | items IH | fields IH] using value_nested_ind;
    try (split; exists []; intros St f s;
         unfold walk_child, is_node_like; simpl; rewrite ?andb_false_r;
         reflexivity).
  - split.
    + destruct (calls_fold (fun St f s c => walk_child f s c) items) as [l Hl].
      { eapply Forall_impl; [exact IH|]. intros c [_ Hc]. exact Hc. }
      exists (VArr items :: l). intros St f s. rewrite walk_arr. apply Hl.
    + apply (calls_fold (fun St f s item => if is_node_like item then walk f item s else s)).
      eapply Forall_impl; [exact IH|].
      intros v [[lv Hv] _]. apply (calls_guarded _ _ lv Hv).
  - assert (Hw : ∃ l, calls (fun St f s => walk f (VObj fields) s) l).
    { destruct (calls_fold (fun St f s (kv : string * value) => walk_child f s (snd kv)) fields)
        as [l Hl].
      { eapply Forall_impl; [exact IH|]. intros c [_ Hc]. exact Hc. }
      exists (VObj fields :: l). intros St f s. rewrite walk_obj. apply Hl. }
    split; [exact Hw|]. destruct Hw as [l Hl].
    apply (calls_guarded _ _ l Hl).
Qed.

Lemma fold_left_snoc {A} (l acc : list A) :
  fold_left (fun s n => s ++ [n]) l acc = acc ++ l.
Proof.
  revert acc. induction l as [|x l IHl]; intros acc; simpl.
  - by rewrite app_nil_r.
  - rewrite IHl. by rewrite <- app_assoc.
Qed.

(** The visitor is applied to the nodes of [walk_nodes], in that order,
    whatever state it carries. *)
Lemma walk_fold {St} (f : value → St → St) node s :
  walk f node s = fold_left (fun s n => f n s) (walk_nodes node) s.
Proof.
  destruct (calls_walk_both node) as [[l Hl] _].
  assert (walk_nodes node = l) as ->.
  { unfold walk_nodes. rewrite Hl. apply fold_left_snoc. }
  apply Hl.
Qed.

(** ** The collector keeps the first match at each start offset *)

Lemma keep_first_fresh taken l p :
  p ∈ keep_first taken l → patch_start p ∉ taken.
Proof.
  revert taken. induction l as [|q l IHl]; intros taken; simpl.
  - intros H. by apply elem_of_nil in H.
  - case_bool_decide as Hq.
    + apply IHl.
    + intros [->|Hin]%elem_of_cons; [exact Hq|].
      apply IHl in Hin. set_solver.
Qed.

Lemma keep_first_NoDup taken l :
  NoDup (patch_start <$> (keep_first taken l)).
Proof.
  revert taken. induction l as [|q l IHl]; intros taken; simpl.
  - constructor.
  - case_bool_decide as Hq; [apply IHl|].
    simpl. constructor; [|apply IHl].
    intros (p & Hp & Hin)%list_elem_of_fmap.
    apply keep_first_fresh in Hin. set_solver.
Qed.

Lemma keep_first_sublist taken l : sublist (keep_first taken l) l.
Proof.
  revert taken. induction l as [|q l IHl]; intros taken; simpl.
  - constructor.
  - case_bool_decide; [apply sublist_cons | apply sublist_skip]; apply IHl.
Qed.

Lemma keep_first_elem taken l p :
  p ∈ keep_first taken l ↔ (patch_start p ∉ taken) ∧ first_at_start l p.
Proof.
  revert taken. induction l as [|q l IHl]; intros taken; simpl.
  - split.
    + intros H. by apply elem_of_nil in H.
    + intros [_ (l1 & l2 & H & _)]. by destruct l1.
  - case_bool_decide as Hq.
    + rewrite IHl. split.
      * intros [Hp (l1 & l2 & -> & Hl1)]. split; [exact Hp|].
        exists (q :: l1), l2. split; [reflexivity|].
        intros q' [->|Hin]%elem_of_cons; [|by apply Hl1].
        intros Heq. rewrite Heq in Hq. contradiction.
      * intros [Hp (l1 & l2 & Heq & Hl1)]. split; [exact Hp|].
        destruct l1 as [|q' l1]; simplify_eq/=; [contradiction|].
        exists l1, l2. split; [reflexivity|].
        intros r Hr. apply Hl1. by right.
    + rewrite elem_of_cons, IHl. split.
      * intros [->|[Hp (l1 & l2 & -> & Hl1)]].
        -- split; [exact Hq|]. exists [], l. split; [reflexivity|].
           intros r Hr. by apply elem_of_nil in Hr.
        -- split; [set_solver|].
           exists (q :: l1), l2. split; [reflexivity|].
           intros q' [->|Hin]%elem_of_cons; [set_solver|by apply Hl1].
      * intros [Hp (l1 & l2 & Heq & Hl1)].
        destruct l1 as [|q' l1]; simplify_eq/=; [by left|right].
        split.
        -- assert (patch_start q' ≠ patch_start p) by (apply Hl1; by left).
           set_solver.
        -- exists l1, l2. split; [reflexivity|].
           intros r Hr. apply Hl1. by right.
Qed.

Lemma keep_first_app taken l1 l2 :
  keep_first taken (l1 ++ l2)
  = keep_first taken l1
    ++ keep_first (list_to_set (patch_start <$> l1) ∪ taken) l2.
Proof.
  revert taken. induction l1 as [|q l1 IHl]; intros taken; simpl.
  - f_equal. set_solver.
  - case_bool_decide as Hq.
    + rewrite IHl. do 2 f_equal. set_solver.
    + simpl. rewrite IHl. do 3 f_equal. set_solver.
Qed.

Section Collector.
Variable source : string.

(** What the closure's variables hold after the rules of [rules] have
    been tried on one node. *)
Lemma collect_rules_spec rules node st :
  let st' := fold_left (collect_rule node source) rules st in
  patches st' = patches st ++ keep_first (seen st) (node_matches rules source node)
  ∧ seen st' = list_to_set (patch_start <$> (node_matches rules source node)) ∪ seen st.
Proof.
  revert st. induction rules as [|rule rules IH]; intros st; simpl.
  - split; [by rewrite app_nil_r | set_solver].
  - destruct (IH (collect_rule node source st rule)) as [Hp Hs].
    rewrite Hp, Hs. clear IH Hp Hs.
    unfold node_matches at 3 4; simpl. fold (node_matches rules source node).
    unfold collect_rule.
    destruct (rule_match rule node source) as [r|]; simpl; [|done].
    change (start r) with (patch_start (mkPatch r (id rule))).
    case_bool_decide as Hr; simpl.
    + split; [done|set_solver].
    + split; [by rewrite <- app_assoc | set_solver].
Qed.

Lemma collect_nodes_spec nodes st :
  let st' := fold_left (fun st n => collect_visitor source n st) nodes st in
  let ms := flat_map (node_matches RULES source) nodes in
  patches st' = patches st ++ keep_first (seen st) ms
  ∧ seen st' = list_to_set (patch_start <$> ms) ∪ seen st.
Proof.
  revert st. induction nodes as [|n nodes IH]; intros st; simpl.
  - split; [by rewrite app_nil_r | set_solver].
  - destruct (IH (collect_visitor source n st)) as [Hp Hs].
    rewrite Hp, Hs. clear IH Hp Hs.
    destruct (collect_rules_spec RULES n st) as [Hp Hs].
    unfold collect_visitor. rewrite Hp, Hs.
    rewrite keep_first_app, fmap_app, list_to_set_app_L.
    split; [by rewrite <- app_assoc | set_solver].
Qed.

Lemma collectPatches_keep_first ast :
  fst (collectPatches ast source) = keep_first ∅ (all_matches ast source).
Proof.
  unfold collectPatches, all_matches; simpl. rewrite walk_fold.
  destruct (collect_nodes_spec (walk_nodes ast) (mkCollect [] [] ∅)) as [Hp _].
  exact Hp.
Qed.
End Collector.

(** ** Check mode and apply mode accept the same matches *)

Section ScanCollect.
Variable source : string.

Lemma in_step_rule node rule c s :
  in_step c s →
  in_step (collect_rule node source c rule) (scan_rule node source s rule).
Proof.
  intros [Hseen Hkeys]. unfold collect_rule, scan_rule.
  destruct (rule_match rule node source) as [r|]; [|by split].
  rewrite <- Hseen. case_bool_decide; [by split|].
  split; simpl; [by rewrite Hseen|].
  rewrite !fmap_app, Hkeys. reflexivity.
Qed.

Lemma in_step_rules node rules c s :
  in_step c s →
  in_step (fold_left (collect_rule node source) rules c)
          (fold_left (scan_rule node source) rules s).
Proof.
  revert c s. induction rules as [|rule rules IH]; intros c s H; simpl; [done|].
  apply IH. by apply in_step_rule.
Qed.

Lemma in_step_nodes nodes c s :
  in_step c s →
  in_step (fold_left (fun st n => collect_visitor source n st) nodes c)
          (fold_left (fun st n => scan_visitor source n st) nodes s).
Proof.
  revert c s. induction nodes as [|n nodes IH]; intros c s H; simpl; [done|].
  apply IH. by apply in_step_rules.
Qed.

Lemma scan_collect_keys ast :
  match_key <$> scanMatches ast source
  = patch_key <$> fst (collectPatches ast source).
Proof.
  unfold scanMatches, collectPatches; simpl. rewrite !walk_fold.
  apply (in_step_nodes (walk_nodes ast) (mkCollect [] [] ∅) (mkScan [] ∅)).
  by split.
Qed.
End ScanCollect.

(** C3.  For every parsed tree and source text, check mode reports and
    apply mode collects the same matches: the (start offset, rule id) pairs
    of [scanMatches] and of [collectPatches] are the same sequence, hence
    the same set. *)
Theorem check_apply_same_matches (ast : value) (source : string) :
  estree_shape ast = true →
  match_key <$> scanMatches ast source
  = patch_key <$> fst (collectPatches ast source)
  ∧ (list_to_set (match_key <$> scanMatches ast source) : gset (Z * string))
    = list_to_set (patch_key <$> fst (collectPatches ast source)).
Proof.
  intros _. pose proof (scan_collect_keys source ast) as H.
  split; [exact H | by rewrite H].
Qed.

Lemma check_apply_same_matches_witness :
  estree_shape Samples.member_ast = true
  ∧ match_key <$> scanMatches Samples.member_ast Samples.member_src
    = [(13, "enable_slash_commands_in_electron")].
Proof.
  split; [vm_compute; reflexivity|].
  destruct (check_apply_same_matches Samples.member_ast Samples.member_src) as [H _].
  - vm_compute; reflexivity.
  - rewrite H. vm_compute; reflexivity.
Defined.

(** C7.  For every tree (of the shape the parser gives) and source text,
    the patches of [collectPatches] have pairwise distinct start offsets:
    they are the successful matches in walk order with, at each start
    offset, only the first one kept (a patch is recorded exactly when it is
    a match with no earlier match at its offset), and [scanMatches] records
    the same ones. *)
Theorem collect_first_seen_wins (ast : value) (source : string) :
  estree_shape ast = true →
  let ps := fst (collectPatches ast source) in
  NoDup (patch_start <$> ps)
  ∧ sublist ps (all_matches ast source)
  ∧ (∀ p, p ∈ ps ↔ first_at_start (all_matches ast source) p)
  ∧ NoDup (position <$> scanMatches ast source)
  ∧ match_key <$> scanMatches ast source = patch_key <$> ps.
Proof.
  intros _ ps. subst ps. rewrite collectPatches_keep_first.
  assert (Hscan := scan_collect_keys source ast).
  rewrite collectPatches_keep_first in Hscan.
  split; [apply keep_first_NoDup|].
  split; [apply keep_first_sublist|].
  split.
  { intros p. rewrite keep_first_elem. set_solver. }
  split; [|exact Hscan].
  assert (position <$> scanMatches ast source
          = patch_start <$> keep_first ∅ (all_matches ast source)) as ->.
  { change position with (fst ∘ match_key).
    change patch_start with (fst ∘ patch_key).
    rewrite !list_fmap_compose, Hscan. reflexivity. }
  apply keep_first_NoDup.
Qed.

Lemma collect_first_seen_wins_witness :
  estree_shape Samples.twice_ast = true
  ∧ length (all_matches Samples.twice_ast Samples.member_src) = 2%nat
  ∧ patch_start <$> fst (collectPatches Samples.twice_ast Samples.member_src) = [13]
  ∧ NoDup (patch_start <$> fst (collectPatches Samples.twice_ast Samples.member_src)).
Proof.
  split; [vm_compute; reflexivity|].
  split; [vm_compute; reflexivity|].
  split; [vm_compute; reflexivity|].
  destruct (collect_first_seen_wins Samples.twice_ast Samples.member_src) as [H _].
  - vm_compute; reflexivity.
  - exact H.
Defined.

(** ** Strings: take, drop and append *)

Lemma append_cons c s t : String c s +:+ t = String c (s +:+ t).
Proof. reflexivity. Qed.

Lemma append_nil_l t : "" +:+ t = t.
Proof. reflexivity. Qed.

Ltac str_simpl := simpl; rewrite ?append_cons, ?append_nil_l; simpl.

Lemma append_nil_r s : s +:+ "" = s.
Proof. induction s as [|c s IH]; str_simpl; [done | by rewrite IH]. Qed.

Lemma append_assoc s1 s2 s3 : (s1 +:+ s2) +:+ s3 = s1 +:+ (s2 +:+ s3).
Proof. induction s1 as [|c s1 IH]; str_simpl; [done | by rewrite IH]. Qed.

Lemma length_append s1 s2 :
  String.length (s1 +:+ s2) = (String.length s1 + String.length s2)%nat.
Proof. induction s1 as [|c s1 IH]; str_simpl; [done | by rewrite IH]. Qed.

Lemma take_0 s : take 0 s = "".
Proof. by destruct s. Qed.

Lemma drop_0 s : drop 0 s = s.
Proof. by destruct s. Qed.

Lemma take_all n s : (String.length s ≤ n)%nat → take n s = s.
Proof.
  revert n. induction s as [|c s IH]; intros [|n] H; simpl in *; try done; try lia.
  rewrite IH; [done | lia].
Qed.

Lemma length_take n s : String.length (take n s) = Nat.min n (String.length s).
Proof.
  revert n. induction s as [|c s IH]; intros [|n]; simpl; try done.
  by rewrite IH.
Qed.

Lemma take_take n m s : take n (take m s) = take (Nat.min n m) s.
Proof.
  revert n m. induction s as [|c s IH]; intros [|n] [|m]; simpl; try done.
  by rewrite IH.
Qed.

Lemma take_append_le n s1 s2 :
  (n ≤ String.length s1)%nat → take n (s1 +:+ s2) = take n s1.
Proof.
  revert n. induction s1 as [|c s1 IH]; intros [|n] H; str_simpl; simpl in H;
    try done; try lia.
  rewrite IH; [done | lia].
Qed.

Lemma drop_append_le n s1 s2 :
  (n ≤ String.length s1)%nat → drop n (s1 +:+ s2) = drop n s1 +:+ s2.
Proof.
  revert n. induction s1 as [|c s1 IH]; intros [|n] H; str_simpl; simpl in H;
    try done; try lia.
  rewrite IH; [done | lia].
Qed.

Lemma drop_take n m s : drop n (take m s) = take (m - n) (drop n s).
Proof.
  revert n m. induction s as [|c s IH]; intros [|n] [|m]; simpl; try done.
  - by destruct (m - n)%nat.
Qed.

Lemma take_drop_append n s : take n s +:+ drop n s = s.
Proof.
  revert n. induction s as [|c s IH]; intros [|n]; str_simpl; try done.
  by rewrite IH.
Qed.

Lemma clamp_index_in_range len i :
  0 ≤ i ≤ Z.of_nat len → clamp_index len i = Z.to_nat i.
Proof.
  intros H. unfold clamp_index.
  destruct (Z.ltb_spec i 0); [lia|]. f_equal. lia.
Qed.

(** ** Splicing in descending order *)

Lemma slice_prefix_of_prefix source c tail s :
  0 ≤ s ≤ c → c ≤ Z.of_nat (String.length source) →
  slice (slice source 0 c +:+ tail) 0 s = slice source 0 s.
Proof.
  intros Hs Hc. unfold slice.
  rewrite !(clamp_index_in_range (String.length source)) by lia.
  rewrite !drop_0, !Nat.sub_0_r.
  assert (Hlen : String.length (take (Z.to_nat c) source) = Z.to_nat c).
  { rewrite length_take. lia. }
  rewrite !clamp_index_in_range by (rewrite length_append, Hlen; lia).
  rewrite drop_0, Nat.sub_0_r.
  rewrite take_append_le by lia.
  rewrite take_take. f_equal. lia.
Qed.

Lemma slice_from_of_prefix source c tail e :
  0 ≤ e ≤ c → c ≤ Z.of_nat (String.length source) →
  slice_from (slice source 0 c +:+ tail) e = slice source e c +:+ tail.
Proof.
  intros He Hc. unfold slice_from, slice.
  rewrite !(clamp_index_in_range (String.length source)) by lia.
  rewrite !drop_0, !Nat.sub_0_r.
  assert (Hlen : String.length (take (Z.to_nat c) source) = Z.to_nat c).
  { rewrite length_take. lia. }
  rewrite !clamp_index_in_range by (rewrite length_append, Hlen; lia).
  rewrite drop_append_le by lia.
  by rewrite drop_take.
Qed.

Lemma rebuild_upto_snoc source cursor ps p limit :
  rebuild_upto source cursor (ps ++ [p]) limit
  = rebuild_upto source cursor ps (start (result p))
    +:+ replacement (result p)
    +:+ slice source (end_ (result p)) limit.
Proof.
  revert cursor. induction ps as [|q ps IH]; intros cursor; simpl; [done|].
  by rewrite IH, !append_assoc.
Qed.

(** Splicing a chain of patches, each ending before the previous one
    starts, into a text whose first [c] code units are still those of the
    source. *)
Lemma splice_all_descending source l c tail :
  c ≤ Z.of_nat (String.length source) →
  Forall (in_bounds c) l →
  StronglySorted (fun p q => end_ (result q) ≤ start (result p)) l →
  splice_all (slice source 0 c +:+ tail) l
  = rebuild_upto source 0 (rev l) c +:+ tail.
Proof.
  revert c tail. induction l as [|p l IH]; intros c tail Hc Hb Hs; [done|].
  apply Forall_cons in Hb as [(Hp0 & Hp1 & Hp2) Hb].
  apply StronglySorted_inv in Hs as [Hs Hp].
  change (splice_all (splice (slice source 0 c +:+ tail) p) l
          = rebuild_upto source 0 (rev l ++ [p]) c +:+ tail).
  unfold splice.
  rewrite slice_prefix_of_prefix, slice_from_of_prefix by lia.
  rewrite IH; [| lia | | done].
  - rewrite rebuild_upto_snoc. by rewrite !append_assoc.
  - rewrite Forall_forall in Hb, Hp. apply Forall_forall.
    intros q Hq. destruct (Hb q Hq) as (? & ? & ?). specialize (Hp q Hq).
    unfold in_bounds. lia.
Qed.

Lemma length_drop n s : String.length (drop n s) = (String.length s - n)%nat.
Proof.
  revert n. induction s as [|c s IH]; intros [|n]; simpl; try done.
Qed.

Lemma clamp_index_le len i : (clamp_index len i ≤ len)%nat.
Proof. unfold clamp_index. destruct (Z.ltb_spec i 0); lia. Qed.

Lemma slice_to_end s cursor :
  slice s cursor (Z.of_nat (String.length s)) = slice_from s cursor.
Proof.
  unfold slice, slice_from.
  rewrite (clamp_index_in_range _ (Z.of_nat _)) by lia.
  apply take_all. rewrite length_drop. lia.
Qed.

Lemma slice_whole s : slice s 0 (Z.of_nat (String.length s)) = s.
Proof.
  rewrite slice_to_end. unfold slice_from.
  rewrite clamp_index_in_range by lia. apply drop_0.
Qed.

Lemma rebuild_upto_end source cursor ps :
  rebuild_upto source cursor ps (Z.of_nat (String.length source))
  = rebuild source cursor ps.
Proof.
  revert cursor. induction ps as [|p ps IH]; intros cursor; simpl.
  - apply slice_to_end.
  - by rewrite IH.
Qed.

(** ** The two insertion sorts *)

Lemma insert_patch_perm p l : insert_patch p l ≡ₚ p :: l.
Proof.
  induction l as [|q l IH]; simpl; [done|].
  case_match; [done|]. rewrite IH. apply Permutation_swap.
Qed.

Lemma sort_patches_perm l : sort_patches l ≡ₚ l.
Proof.
  induction l as [|p l IH]; simpl; [done|].
  by rewrite insert_patch_perm, IH.
Qed.

Lemma insert_patch_sorted p l :
  StronglySorted descending l → StronglySorted descending (insert_patch p l).
Proof.
  induction 1 as [|q l Hl IH Hq]; simpl.
  - repeat constructor.
  - fold (patch_start q) (patch_start p).
    destruct (Z.leb_spec (patch_start q - patch_start p) 0) as [Hle|Hgt].
    + constructor; [by constructor|].
      constructor; [unfold descending; lia|].
      eapply Forall_impl; [exact Hq|]. unfold descending. intros r Hr. lia.
    + constructor; [exact IH|].
      rewrite insert_patch_perm. constructor; [unfold descending; lia | exact Hq].
Qed.

Lemma sort_patches_sorted l : StronglySorted descending (sort_patches l).
Proof.
  induction l as [|p l IH]; simpl; [constructor | by apply insert_patch_sorted].
Qed.

Lemma insert_ascending_perm p l : insert_ascending p l ≡ₚ p :: l.
Proof.
  induction l as [|q l IH]; simpl; [done|].
  case_match; [done|]. rewrite IH. apply Permutation_swap.
Qed.

Lemma sort_ascending_perm l : sort_ascending l ≡ₚ l.
Proof.
  induction l as [|p l IH]; simpl; [done|].
  by rewrite insert_ascending_perm, IH.
Qed.

Lemma insert_ascending_sorted p l :
  StronglySorted ascending l → StronglySorted ascending (insert_ascending p l).
Proof.
  induction 1 as [|q l Hl IH Hq]; simpl.
  - repeat constructor.
  - destruct (Z.leb_spec (patch_start p) (patch_start q)) as [Hle|Hgt].
    + constructor; [by constructor|].
      constructor; [exact Hle|].
      eapply Forall_impl; [exact Hq|]. unfold ascending. intros r Hr. lia.
    + constructor; [exact IH|].
      rewrite insert_ascending_perm. constructor; [unfold ascending; lia | exact Hq].
Qed.

Lemma sort_ascending_sorted l : StronglySorted ascending (sort_ascending l).
Proof.
  induction l as [|p l IH]; simpl; [constructor | by apply insert_ascending_sorted].
Qed.

Lemma StronglySorted_rev {A} (R : relation A) l :
  StronglySorted R l → StronglySorted (flip R) (rev l).
Proof.
  induction 1 as [|x l Hl IH Hx]; simpl; [constructor|].
  apply StronglySorted_app_2; [|exact IH|repeat constructor].
  intros y z Hy Hz. apply list_elem_of_singleton in Hz as ->.
  rewrite Forall_forall in Hx. apply Hx.
  apply list_elem_of_In, in_rev, list_elem_of_In in Hy. exact Hy.
Qed.

Lemma same_start_same_patch (ps : list Patch) p q :
  NoDup (patch_start <$> ps) → p ∈ ps → q ∈ ps →
  patch_start p = patch_start q → p = q.
Proof.
  induction ps as [|r ps IH]; simpl; intros Hnd Hp Hq Heq.
  - by apply elem_of_nil in Hp.
  - apply NoDup_cons in Hnd as [Hr Hnd].
    apply elem_of_cons in Hp as [->|Hp]; apply elem_of_cons in Hq as [->|Hq].
    + done.
    + exfalso. apply Hr. rewrite Heq. by apply list_elem_of_fmap_2.
    + exfalso. apply Hr. rewrite <- Heq. by apply list_elem_of_fmap_2.
    + by apply IH.
Qed.

(** With distinct start offsets the ascending order is the descending one
    read backwards. *)
Lemma rev_sort_patches ps :
  NoDup (patch_start <$> ps) → rev (sort_patches ps) = sort_ascending ps.
Proof.
  intros Hnd.
  apply (StronglySorted_unique_strong ascending).
  - intros p q Hp Hq H1 H2.
    apply (same_start_same_patch ps); [done | | |unfold ascending in *; lia].
    + apply list_elem_of_In, in_rev, list_elem_of_In in Hp.
      by rewrite sort_patches_perm in Hp.
    + by rewrite sort_ascending_perm in Hq.
  - apply (StronglySorted_rev descending), sort_patches_sorted.
  - apply sort_ascending_sorted.
  - rewrite sort_ascending_perm. etrans; [|apply sort_patches_perm].
    symmetry. apply Permutation_rev.
Qed.

(** In a descending arrangement of pairwise disjoint in-bounds patches with
    distinct starts, every patch ends before its predecessors start. *)
Lemma descending_chain len l :
  StronglySorted descending l →
  NoDup (patch_start <$> l) →
  Forall (in_bounds len) l →
  (∀ p q, p ∈ l → q ∈ l → p ≠ q → disjoint p q) →
  StronglySorted (fun p q => end_ (result q) ≤ start (result p)) l.
Proof.
  induction 1 as [|p l Hl IH Hp]; intros Hnd Hb Hd; [constructor|].
  simpl in Hnd. apply NoDup_cons in Hnd as [Hfresh Hnd].
  apply Forall_cons in Hb as [Hbp Hb].
  constructor.
  - apply IH; [done..|]. intros q r Hq Hr. apply Hd; by right.
  - rewrite Forall_forall in Hp, Hb. apply Forall_forall. intros q Hq.
    assert (Hne : patch_start q ≠ patch_start p).
    { intros Heq. apply Hfresh. rewrite <- Heq. by apply list_elem_of_fmap_2. }
    assert (Hpq : p ≠ q) by (intros ->; by apply Hne).
    specialize (Hp q Hq). specialize (Hb q Hq).
    destruct (Hd p q) as [H|H]; [by left | by right | done | |done].
    unfold descending, patch_start, in_bounds in *. lia.
Qed.

(** C4.  For every source text and every patch set (pairwise distinct
    start offsets) whose ranges lie within the text and are pairwise
    non-overlapping, splicing the patches one by one in descending order
    of [start] gives the text obtained by replacing all the ranges at once
    in the original. *)
Theorem splice_descending_is_simultaneous (source : string) (ps : list Patch) :
  Forall (in_bounds (Z.of_nat (String.length source))) ps →
  NoDup (patch_start <$> ps) →
  (∀ p q, p ∈ ps → q ∈ ps → p ≠ q → disjoint p q) →
  splice_all source (sort_patches ps) = replace_simultaneously source ps.
Proof.
  intros Hb Hnd Hd. unfold replace_simultaneously.
  rewrite <- rev_sort_patches by done.
  rewrite <- rebuild_upto_end.
  rewrite <- (append_nil_r (rebuild_upto _ _ _ _)).
  rewrite <- (slice_whole source) at 1.
  rewrite <- (append_nil_r (slice _ _ _)).
  apply splice_all_descending; [lia | by rewrite sort_patches_perm |].
  apply (descending_chain (Z.of_nat (String.length source)));
    [apply sort_patches_sorted | by rewrite sort_patches_perm
     | by rewrite sort_patches_perm |].
  intros p q Hp Hq. rewrite sort_patches_perm in Hp, Hq. by apply Hd.
Qed.

Lemma splice_descending_is_simultaneous_witness :
  Forall (in_bounds 10) [Samples.low_patch; Samples.high_patch]
  ∧ sort_patches [Samples.low_patch; Samples.high_patch]
    = [Samples.high_patch; Samples.low_patch]
  ∧ splice_all Samples.digits (sort_patches [Samples.low_patch; Samples.high_patch])
    = "01AB459"
  ∧ replace_simultaneously Samples.digits [Samples.low_patch; Samples.high_patch]
    = "01AB459".
Proof.
  assert (Hb : Forall (in_bounds 10) [Samples.low_patch; Samples.high_patch]).
  { repeat constructor; simpl; lia. }
  split; [exact Hb|].
  split; [vm_compute; reflexivity|].
  split; [vm_compute; reflexivity|].
  rewrite <- (splice_descending_is_simultaneous Samples.digits
                [Samples.low_patch; Samples.high_patch]).
  - vm_compute; reflexivity.
  - exact Hb.
  - apply (bool_decide_unpack _). vm_compute. exact I.
  - intros p q Hp Hq Hne. unfold disjoint.
    apply elem_of_cons in Hp as [->|Hp]; apply elem_of_cons in Hq as [->|Hq];
      try done;
      repeat match goal with
             | H : _ ∈ [_] |- _ => apply list_elem_of_singleton in H as ->
             end; try done; simpl; lia.
Defined.

(** ** The occurrence counter *)

Lemma drop_succ k source c s' :
  drop k source = String c s' → drop (S k) source = s'.
Proof.
  revert k. induction source as [|d source IH]; intros [|k]; simpl; try done;
    try apply IH; try (by intros [= _ ->]).
Qed.

Lemma drop_drop n m s : drop n (drop m s) = drop (m + n) s.
Proof.
  revert m. induction s as [|c s IH]; intros [|m]; simpl; try done;
    by destruct n.
Qed.

Lemma occurrences_from needle source s k :
  drop k source = s →
  length (filter (fun i => occurs_at needle source i = true)
                 (seq k (String.length s)))
  = count_prefixes needle s.
Proof.
  revert k. induction s as [|c s' IH]; intros k Hk; [done|].
  assert (Ho : occurs_at needle source k = String.prefix needle (String c s')).
  { unfold occurs_at. by rewrite Hk. }
  change (count_prefixes needle (String c s'))
    with ((if String.prefix needle (String c s') then 1 else 0)
          + count_prefixes needle s')%nat.
  change (seq k (String.length (String c s')))
    with (k :: seq (S k) (String.length s')).
  rewrite <- Ho, <- (IH (S k)) by (by eapply drop_succ).
  destruct (occurs_at needle source k) eqn:E.
  - by rewrite filter_cons_True.
  - rewrite filter_cons_False; [done|]. by rewrite E.
Qed.

Lemma occurrences_count needle s : occurrences needle s = count_prefixes needle s.
Proof. apply occurrences_from, drop_0. Qed.

Lemma find_from_spec needle s pos :
  needle ≠ "" →
  match find_from s needle pos with
  | None => count_prefixes needle s = 0%nat
  | Some i =>
      ∃ j, i = (pos + j)%nat ∧ (j < String.length s)%nat
           ∧ count_prefixes needle s = S (count_prefixes needle (drop (S j) s))
  end.
Proof.
  intros Hne. revert pos. induction s as [|c s IH]; intros pos.
  - destruct needle; [done|]. reflexivity.
  - change (find_from (String c s) needle pos)
      with (if String.prefix needle (String c s) then Some pos
            else find_from s needle (S pos)).
    change (count_prefixes needle (String c s))
      with ((if String.prefix needle (String c s) then 1 else 0)
            + count_prefixes needle s)%nat.
    destruct (String.prefix needle (String c s)) eqn:Hp.
    + exists 0%nat. split; [lia|]. split; [simpl; lia|done].
    + specialize (IH (S pos)). destruct (find_from s needle (S pos)) as [i|].
      * destruct IH as (j & -> & Hj & Hc). exists (S j).
        split; [lia|]. split; [simpl; lia|]. exact Hc.
      * exact IH.
Qed.

Lemma count_loop_spec needle source fuel k total :
  needle ≠ "" →
  (k ≤ String.length source)%nat →
  (String.length source - k < fuel)%nat →
  count_loop fuel source needle (Z.of_nat k - 1) total
  = Some (total + Z.of_nat (count_prefixes needle (drop k source))).
Proof.
  intros Hne. revert k total. induction fuel as [|fuel IH]; intros k total Hk Hf; [lia|].
  simpl. replace (Z.of_nat k - 1 + 1) with (Z.of_nat k) by lia.
  unfold indexOf.
  replace (Z.to_nat (Z.min (Z.max (Z.of_nat k) 0) (Z.of_nat (String.length source))))
    with k by lia.
  pose proof (find_from_spec needle (drop k source) k Hne) as Hfind.
  destruct (find_from (drop k source) needle k) as [i|].
  - destruct Hfind as (j & -> & Hj & Hc). rewrite length_drop in Hj.
    destruct (Z.eqb_spec (Z.of_nat (k + j)) (-1)) as [?|_]; [lia|].
    replace (Z.of_nat (k + j)) with (Z.of_nat (S (k + j)) - 1) by lia.
    rewrite IH by lia. rewrite Hc, drop_drop.
    replace (k + S j)%nat with (S (k + j)) by lia. f_equal. lia.
  - simpl. rewrite Hfind. f_equal. lia.
Qed.

Lemma gate_needle_nonempty : gate_needle ≠ "".
Proof. discriminate. Qed.

(** The loop ends within the fuel [countAllOccurrences] gives it. *)
Lemma count_loop_terminates source :
  count_loop (String.length source + 2) source gate_needle (-1) 0
  = Some (Z.of_nat (occurrences gate_needle source)).
Proof.
  rewrite occurrences_count.
  rewrite (count_loop_spec gate_needle source _ 0 0 gate_needle_nonempty) by lia.
  by rewrite drop_0.
Qed.

Lemma countAllOccurrences_spec source :
  countAllOccurrences source = Z.of_nat (occurrences gate_needle source).
Proof. unfold countAllOccurrences. by rewrite count_loop_terminates. Qed.

(** ** The bundle locator *)

Lemma prefix_append p s : String.prefix p (p +:+ s) = true.
Proof.
  induction p as [|c p IH]; [by destruct s|].
  rewrite append_cons. simpl. by destruct (ascii_dec c c).
Qed.

Lemma prefix_split p s :
  String.prefix p s = true → s = p +:+ drop (String.length p) s.
Proof.
  revert s. induction p as [|c p IH]; intros s H.
  - by rewrite drop_0.
  - destruct s as [|d s]; [done|]. simpl in H.
    destruct (ascii_dec c d) as [->|]; [|done].
    rewrite append_cons. simpl. f_equal. by apply IH.
Qed.

Lemma drop_all s : drop (String.length s) s = "".
Proof. induction s as [|c s IH]; simpl; done. Qed.

(** The boolean test is the regular expression: the name is [index-],
    then any characters other than line terminators, then [.js]. *)
Lemma is_index_bundle_spec f :
  is_index_bundle f = true
  ↔ ∃ mid, f = "index-" +:+ mid +:+ ".js" ∧ no_line_terminator mid = true.
Proof.
  unfold is_index_bundle. split.
  - intros H. apply andb_prop in H as [H H0].
    apply andb_prop in H0 as [H0 Hnl]. apply andb_prop in H0 as [Hlen Hjs].
    apply prefix_split in H. simpl String.length in H.
    set (rest := drop 6 f) in *.
    exists (take (String.length rest - 3) rest). split; [|done].
    rewrite H at 1. f_equal.
    rewrite <- (take_drop_append (String.length rest - 3) rest) at 1.
    f_equal. by apply String.eqb_eq.
  - intros (mid & -> & Hmid).
    rewrite prefix_append. cbv zeta.
    replace (drop 6 ("index-" +:+ mid +:+ ".js")) with (mid +:+ ".js") by done.
    rewrite length_append. simpl String.length.
    replace (String.length mid + 3 - 3)%nat with (String.length mid) by lia.
    rewrite drop_append_le by lia. rewrite drop_all.
    rewrite take_append_le by lia. rewrite take_all by lia.
    rewrite Hmid. simpl. rewrite !andb_true_r. apply Z.leb_le. lia.
Qed.

(** C9.  [locateBundle] returns a path exactly when the assets directory
    exists and its listing holds exactly one name of the form [index-*.js];
    with no such name, with more than one, or without the directory, it
    ends the process with status 1, and so does [main], before it reads or
    parses anything. *)
Theorem locateBundle_fails_closed
    (assetsDir : string) (existsSync : bool) (readdirSync : list string)
    (path_join : string → string → string)
    (isCheck : bool) (readFileSync : string → string)
    (parse : string → option value) :
  let files := filter (fun f => is_index_bundle f = true) readdirSync in
  (∀ f, f ∈ files
        ↔ f ∈ readdirSync
          ∧ ∃ mid, f = "index-" +:+ mid +:+ ".js" ∧ no_line_terminator mid = true)
  ∧ locateBundle assetsDir existsSync readdirSync path_join
    = match existsSync, files with
      | true, [f] => Return (path_join assetsDir f)
      | _, _ => Exit 1
      end
  ∧ main isCheck assetsDir existsSync readdirSync path_join readFileSync parse
    = match existsSync, files with
      | true, [f] =>
          let source := readFileSync (path_join assetsDir f) in
          match parse source with
          | None => mkOutcome 1 None ParseFailure
          | Some ast =>
              if isCheck then main_check ast source else main_apply ast source
          end
      | _, _ => mkOutcome 1 None LocatorFailure
      end.
Proof.
  intros files.
  assert (Hloc : locateBundle assetsDir existsSync readdirSync path_join
                 = match existsSync, files with
                   | true, [f] => Return (path_join assetsDir f)
                   | _, _ => Exit 1
                   end).
  { unfold locateBundle. fold files. destruct existsSync; [|done]. cbv zeta.
    destruct files as [|f [|g rest]]; try done.
    set (n := length (f :: g :: rest)).
    assert (2 ≤ n)%nat by (subst n; simpl; lia).
    simpl negb. cbv iota.
    destruct (Z.eqb_spec (Z.of_nat n) 0); [lia|].
    destruct (Z.gtb_spec (Z.of_nat n) 1); [done|lia]. }
  split; [|split; [exact Hloc|]].
  - intros f. subst files. rewrite list_elem_of_filter, is_index_bundle_spec. tauto.
  - unfold main. rewrite Hloc.
    destruct existsSync; [|done]. by destruct files as [|f [|g rest]].
Qed.

(** ** The rule *)

(** The rule is its structural test followed by the guard on the
    initializer's text. *)
Lemma match_unfold node source :
  enable_slash_commands_match node source
  = if gate_declarator node then
      if includes (init_text node source) GUARD then None
      else Some {| start := offset (get (get node "init") "start");
                   end_ := offset (get (get node "init") "end");
                   replacement := wrap (init_text node source);
                   original := init_text node source |}
    else None.
Proof.
  unfold enable_slash_commands_match, gate_declarator, init_text, wrap, GUARD.
  cbv zeta.
  repeat match goal with
         | |- context [if negb ?b then _ else _] => destruct b; simpl
         | |- context [if negb ?b || _ then _ else _] => destruct b; simpl
         | |- context [if ?b then _ else _] => destruct b; simpl
         end; reflexivity.
Qed.

Lemma includes_unfold s needle :
  includes s needle
  = String.prefix needle s
    || match s with
       | EmptyString => false
       | String _ s' => includes s' needle
       end.
Proof. by destruct s. Qed.

Lemma includes_prefix s needle :
  String.prefix needle s = true → includes s needle = true.
Proof. intros H. by rewrite includes_unfold, H. Qed.

Lemma includes_append_r t s needle :
  includes s needle = true → includes (t +:+ s) needle = true.
Proof.
  intros H. induction t as [|c t IH]; [done|].
  rewrite append_cons, includes_unfold, IH. apply orb_true_r.
Qed.

Lemma prefix_append_l needle s t :
  String.prefix needle s = true → String.prefix needle (s +:+ t) = true.
Proof.
  revert s. induction needle as [|a needle IH]; intros s H.
  - by destruct (s +:+ t).
  - destruct s as [|b s]; [done|]. rewrite append_cons. simpl in *.
    destruct (ascii_dec a b); [by apply IH | done].
Qed.

Lemma includes_append_l s t needle :
  includes s needle = true → includes (s +:+ t) needle = true.
Proof.
  induction s as [|c s IH]; intros H; rewrite includes_unfold in H.
  - rewrite orb_false_r in H. apply includes_prefix.
    by apply (prefix_append_l needle "" t).
  - rewrite append_cons, includes_unfold.
    apply orb_prop in H as [H|H].
    + apply (prefix_append_l _ _ t) in H. rewrite append_cons in H.
      by rewrite H.
    + rewrite (IH H). apply orb_true_r.
Qed.

Lemma includes_middle a m b : includes (a +:+ m +:+ b) m = true.
Proof. apply includes_append_r, includes_prefix, prefix_append. Qed.

(** What the rule writes contains the guard substring and the marker
    expression, whatever it wraps. *)
Lemma wrap_includes_guard original : includes (wrap original) GUARD = true.
Proof.
  unfold wrap. do 3 apply includes_append_r.
  apply includes_append_l. unfold ELECTRON_FORCE_EXPR.
  apply includes_prefix. vm_compute. reflexivity.
Qed.

Lemma wrap_includes_marker original :
  includes (wrap original) ELECTRON_FORCE_EXPR = true.
Proof.
  unfold wrap. do 3 apply includes_append_r.
  apply includes_prefix, prefix_append.
Qed.

Lemma all_matches_wrapped ast source p :
  p ∈ all_matches ast source →
  replacement (result p) = wrap (original (result p)).
Proof.
  unfold all_matches. intros Hp.
  apply list_elem_of_In, in_flat_map in Hp as (node & _ & Hp).
  apply list_elem_of_In in Hp. unfold node_matches in Hp. simpl in Hp.
  rewrite match_unfold in Hp.
  destruct (gate_declarator node); [|by apply elem_of_nil in Hp].
  destruct (includes _ _); [by apply elem_of_nil in Hp|].
  simpl in Hp. by apply list_elem_of_singleton in Hp as ->.
Qed.

Lemma collected_wrapped ast source p :
  p ∈ fst (collectPatches ast source) →
  replacement (result p) = wrap (original (result p)).
Proof.
  rewrite collectPatches_keep_first. intros Hp.
  apply (all_matches_wrapped ast source).
  eapply elem_of_sublist; [exact Hp | apply keep_first_sublist].
Qed.

Lemma splice_all_includes code l m :
  l ≠ [] →
  (∀ p, p ∈ l → includes (replacement (result p)) m = true) →
  includes (splice_all code l) m = true.
Proof.
  intros Hne Hl. destruct (exists_last Hne) as (l' & p & ->).
  unfold splice_all. rewrite fold_left_app. simpl. unfold splice.
  apply includes_append_r, includes_append_l, Hl.
  apply elem_of_app. right. by left.
Qed.

(** What an apply run writes contains the marker expression. *)
Lemma written_includes_marker ast source code :
  written (main_apply ast source) = Some code →
  includes code ELECTRON_FORCE_EXPR = true.
Proof.
  unfold main_apply. cbv zeta.
  pose proof (collected_wrapped ast source) as Hw.
  set (ps := fst (collectPatches ast source)) in *.
  destruct (Z.eqb_spec (Z.of_nat (length ps)) 0) as [|Hn].
  - repeat case_match; discriminate.
  - cbn [written]. intros [= <-]. apply splice_all_includes.
    + intros Hnil. apply Hn.
      rewrite <- (Permutation_length (sort_patches_perm ps)), Hnil. done.
    + intros p Hp. rewrite sort_patches_perm in Hp.
      rewrite (Hw p Hp). apply wrap_includes_marker.
Qed.

(** No match at any visited node means no patch. *)
Lemma no_match_no_patch ast source :
  (∀ node, node ∈ walk_nodes ast → enable_slash_commands_match node source = None) →
  fst (collectPatches ast source) = []
  ∧ scanMatches ast source = [].
Proof.
  intros H.
  assert (Hall : all_matches ast source = []).
  { unfold all_matches. induction (walk_nodes ast) as [|n l IH]; [done|].
    simpl. unfold node_matches at 1. simpl.
    rewrite H by (by left). simpl. apply IH. intros node Hn. apply H. by right. }
  assert (Hps : fst (collectPatches ast source) = []).
  { by rewrite collectPatches_keep_first, Hall. }
  split; [exact Hps|].
  pose proof (scan_collect_keys source ast) as Hk. rewrite Hps in Hk.
  by apply fmap_nil_inv in Hk.
Qed.

(** What apply mode does when nothing was collected. *)
Lemma main_apply_no_patch ast source :
  fst (collectPatches ast source) = [] →
  main_apply ast source
  = if countAllOccurrences source =? 0 then mkOutcome 0 None NoGateReference
    else if includes source ELECTRON_FORCE_EXPR then mkOutcome 0 None AlreadyEnabled
    else mkOutcome 1 None StructuralDrift.
Proof. intros H. unfold main_apply. by rewrite H. Qed.

(** ** The scenarios of the specification *)

(** The sample trees have the shape of parser results. *)
Example samples_have_estree_shape :
  forallb estree_shape
    [Samples.bare_ast; Samples.member_ast; Samples.member_patched_ast;
     Samples.single_ast; Samples.comment_ast; Samples.nested_ast;
     Samples.nested_once_ast; Samples.twice_ast]
  = true.
Proof. vm_compute. reflexivity. Qed.

(** C1, as stated, fails: when the accessor is called as a plain function
    the callee is an identifier, not a member expression, so the rule
    matches no node and apply mode reports structural drift. *)
Lemma plain_call_not_patched :
  Forall (fun node => enable_slash_commands_match node Samples.bare_src = None)
         (walk_nodes Samples.bare_ast)
  ∧ main_apply Samples.bare_ast Samples.bare_src = mkOutcome 1 None StructuralDrift.
Proof. split; [vm_compute; repeat constructor | vm_compute; reflexivity]. Qed.

(** The scenario of the specification: the bundle that is just the
    statement, the patch of its initializer, what apply mode writes, and an
    apply run over that. *)
Example member_bundle_scenario :
  enable_slash_commands_match Samples.member_decl Samples.member_src
  = Some {| start := 13; end_ := 61;
            replacement := "(R.useGateValue(" +:+ Samples.quoted_gate +:+ ")||"
                           +:+ ELECTRON_FORCE_EXPR +:+ ")";
            original := "R.useGateValue(" +:+ Samples.quoted_gate +:+ ")" |}
  ∧ main_apply Samples.member_ast Samples.member_src
    = mkOutcome 0
        (Some ("const flag = (R.useGateValue(" +:+ Samples.quoted_gate +:+ ")||"
               +:+ ELECTRON_FORCE_EXPR +:+ ");"))
        (Patched 1)
  ∧ main_apply Samples.member_patched_ast Samples.member_patched
    = mkOutcome 0 None AlreadyEnabled.
Proof. repeat split; vm_compute; reflexivity. Qed.

(** C5, as stated, fails: the patched bundle contains the gate string and
    no node matches, yet apply mode exits 0 without writing. *)
Lemma patched_bundle_exits_zero :
  0 < countAllOccurrences Samples.member_patched
  ∧ fst (collectPatches Samples.member_patched_ast Samples.member_patched) = []
  ∧ main_apply Samples.member_patched_ast Samples.member_patched
    = mkOutcome 0 None AlreadyEnabled.
Proof. repeat split; vm_compute; reflexivity. Qed.

(** C5, amended.  In apply mode, for every parsed tree and text in which
    the gate string occurs and no rule matches, the run writes nothing and
    exits with status 1, unless the text contains the marker expression
    [window.codexWindowType==="electron"], in which case it reports the
    bundle as already enabled and exits 0. *)
Theorem drift_exits_nonzero (ast : value) (source : string) :
  estree_shape ast = true →
  fst (collectPatches ast source) = [] →
  0 < countAllOccurrences source →
  main_apply ast source
  = if includes source ELECTRON_FORCE_EXPR then mkOutcome 0 None AlreadyEnabled
    else mkOutcome 1 None StructuralDrift.
Proof.
  intros _ Hps Hcount. rewrite main_apply_no_patch by done.
  destruct (Z.eqb_spec (countAllOccurrences source) 0); [lia | done].
Qed.

Lemma drift_exits_nonzero_witness :
  estree_shape Samples.bare_ast = true
  ∧ fst (collectPatches Samples.bare_ast Samples.bare_src) = []
  ∧ 0 < countAllOccurrences Samples.bare_src
  ∧ main_apply Samples.bare_ast Samples.bare_src = mkOutcome 1 None StructuralDrift.
Proof.
  split; [vm_compute; reflexivity|].
  split; [vm_compute; reflexivity|].
  split; [vm_compute; reflexivity|].
  rewrite (drift_exits_nonzero Samples.bare_ast Samples.bare_src);
    vm_compute; reflexivity.
Defined.

(** C6, as stated, fails: with the gate string in a comment only there is
    no structural match, the occurrence is counted all the same, and apply
    mode reports structural drift and exits 1. *)
Lemma comment_occurrence_is_drift :
  scanMatches Samples.comment_ast Samples.comment_src = []
  ∧ fst (collectPatches Samples.comment_ast Samples.comment_src) = []
  ∧ countAllOccurrences Samples.comment_src = 1
  ∧ main_apply Samples.comment_ast Samples.comment_src
    = mkOutcome 1 None StructuralDrift.
Proof. repeat split; vm_compute; reflexivity. Qed.

(** The initializer texts the rule sees in the nested sample, before and
    after the first apply run. *)
Example nested_initializers :
  (fun v => init_text v Samples.nested_src)
    <$> filter (fun v => gate_declarator v = true) (walk_nodes Samples.nested_ast)
  = [ "a.useGateValue(" +:+ Samples.quoted_gate
      +:+ ",function(){var y=b.useGateValue(" +:+ Samples.quoted_gate +:+ ")},"
      +:+ dquote +:+ Samples.padding +:+ dquote +:+ ")";
      "b.useGateValue(" +:+ Samples.quoted_gate +:+ ")" ]
  ∧ (fun v => init_text v Samples.nested_once)
      <$> filter (fun v => gate_declarator v = true)
                 (walk_nodes Samples.nested_once_ast)
    = [ "b.useGateValue(" +:+ Samples.quoted_gate +:+ ")" ].
Proof. split; vm_compute; reflexivity. Qed.

(** C2, as stated, fails: when a matching initializer is nested in
    another, the two splices overlap, and a second apply run over the
    output of the first patches the inner declarator again. *)
Lemma nested_gate_patched_again :
  bundle_after Samples.parse Samples.nested_src = Samples.nested_once
  ∧ length (fst (collectPatches Samples.nested_once_ast Samples.nested_once)) = 1%nat
  ∧ bundle_after Samples.parse (bundle_after Samples.parse Samples.nested_src)
    ≠ bundle_after Samples.parse Samples.nested_src.
Proof.
  split; [vm_compute; reflexivity|].
  split; [vm_compute; reflexivity|].
  vm_compute. discriminate.
Qed.

(** ** The walker visits every reachable node once, parents first *)

Lemma walk_trace_arr items :
  walk_trace (VArr items) = ([], VArr items) :: trace_fields 0 items.
Proof. reflexivity. Qed.

Lemma walk_trace_obj fields :
  walk_trace (VObj fields)
  = ([], VObj fields) :: trace_fields 0 (snd <$> fields).
Proof.
  change (walk_trace (VObj fields))
    with (([], VObj fields)
          :: (fix go (k : nat) (fs : list (string * value)) {struct fs} :=
                match fs with
                | [] => []
                | kv :: rest => trace_field k (snd kv) ++ go (S k) rest
                end) 0%nat fields).
  f_equal. generalize 0%nat.
  induction fields as [|kv fields IH]; intros k; simpl; [done|].
  by rewrite IH.
Qed.

Lemma children_trace_app cs1 cs2 :
  children_trace (cs1 ++ cs2) = children_trace cs1 ++ children_trace cs2.
Proof. unfold children_trace. apply bind_app. Qed.

Lemma trace_items_steps k j items :
  trace_items k j items = children_trace (item_steps k j items).
Proof.
  revert j. induction items as [|item items IH]; intros j; simpl; [done|].
  rewrite children_trace_app, IH. f_equal.
  destruct (is_node_like item); [|done].
  unfold children_trace. simpl. by rewrite app_nil_r.
Qed.

Lemma trace_field_steps k child :
  trace_field k child = children_trace (field_steps k child).
Proof.
  destruct child; unfold trace_field, field_steps; cbv beta iota;
    try apply trace_items_steps;
    match goal with
    | |- context [is_node_like ?v] => destruct (is_node_like v); [|done]
    end;
    unfold children_trace; simpl; by rewrite ?app_nil_r.
Qed.

Lemma trace_fields_steps k values :
  trace_fields k values = children_trace (fields_steps k values).
Proof.
  revert k. induction values as [|child values IH]; intros k; simpl; [done|].
  by rewrite children_trace_app, IH, trace_field_steps.
Qed.

(** The trace of a node: the node itself, then the traces of its children
    in order, each one step further down. *)
Lemma walk_trace_eq v :
  walk_trace v
  = if walkable v then ([], v) :: children_trace (children v) else [].
Proof.
  destruct v; try reflexivity.
  - unfold walkable. simpl. by rewrite andb_false_r.
  - unfold walkable. simpl. by rewrite andb_false_r.
  - unfold walkable. simpl. by rewrite andb_false_r.
  - rewrite walk_trace_arr, trace_fields_steps. reflexivity.
  - rewrite walk_trace_obj, trace_fields_steps. reflexivity.
Qed.

Lemma walk_snoc v acc :
  walk (fun node acc => acc ++ [node]) v acc = acc ++ walk_nodes v.
Proof. rewrite walk_fold. apply fold_left_snoc. Qed.

Lemma child_nodes_app cs1 cs2 :
  child_nodes (cs1 ++ cs2) = child_nodes cs1 ++ child_nodes cs2.
Proof. unfold child_nodes. apply bind_app. Qed.

Lemma walk_items_snoc k j items acc :
  fold_left
    (fun s item =>
       if is_node_like item then walk (fun node acc => acc ++ [node]) item s else s)
    items acc
  = acc ++ child_nodes (item_steps k j items).
Proof.
  revert j acc. induction items as [|item items IH]; intros j acc; simpl.
  - by rewrite app_nil_r.
  - rewrite (IH (S j)), child_nodes_app, app_assoc. f_equal.
    destruct (is_node_like item); [|by rewrite app_nil_r].
    rewrite walk_snoc. unfold child_nodes. simpl. by rewrite app_nil_r.
Qed.

Lemma walk_child_snoc k child acc :
  walk_child (fun node acc => acc ++ [node]) acc child
  = acc ++ child_nodes (field_steps k child).
Proof.
  destruct child; unfold walk_child, field_steps; cbv beta iota;
    try apply walk_items_snoc;
    match goal with
    | |- context [is_node_like ?v] =>
        destruct (is_node_like v); [|by rewrite app_nil_r]
    end;
    rewrite walk_snoc; unfold child_nodes; simpl; by rewrite ?app_nil_r.
Qed.

Lemma walk_fields_snoc k values acc :
  fold_left (walk_child (fun node acc => acc ++ [node])) values acc
  = acc ++ child_nodes (fields_steps k values).
Proof.
  revert k acc. induction values as [|child values IH]; intros k acc; simpl.
  - by rewrite app_nil_r.
  - by rewrite (IH (S k)), (walk_child_snoc k), child_nodes_app, app_assoc.
Qed.

(** The visited nodes: the node itself, then those visited below each of
    its children in order. *)
Lemma walk_nodes_eq v :
  walk_nodes v = if walkable v then v :: child_nodes (children v) else [].
Proof.
  destruct v; try reflexivity.
  - unfold walkable. simpl. by rewrite andb_false_r.
  - unfold walkable. simpl. by rewrite andb_false_r.
  - unfold walkable. simpl. by rewrite andb_false_r.
  - unfold walk_nodes. rewrite walk_arr.
    apply (walk_fields_snoc 0 items [VArr items]).
  - unfold walk_nodes. rewrite walk_obj.
    change (fold_left
              (fun s (kv : string * value) =>
                 walk_child (fun node acc => acc ++ [node]) s (snd kv))
              fields [VObj fields]
            = [VObj fields] ++ child_nodes (fields_steps 0 (snd <$> fields))).
    rewrite <- (walk_fields_snoc 0 (snd <$> fields) [VObj fields]).
    generalize [VObj fields].
    induction fields as [|kv fields IH]; intros acc; simpl; [done|]. apply IH.
Qed.

Lemma is_node_like_arr items : is_node_like (VArr items) = false.
Proof. reflexivity. Qed.

Lemma elem_of_item_steps k j items s c :
  (s, c) ∈ item_steps k j items
  ↔ ∃ i, s = Item k (j + i) ∧ items !! i = Some c ∧ is_node_like c = true.
Proof.
  revert j. induction items as [|item items IH]; intros j; simpl.
  - split; [by intros ?%elem_of_nil | by intros (i & _ & ? & _)].
  - rewrite elem_of_app, IH. split.
    + intros [H|(i & -> & Hi & Hc)].
      * destruct (is_node_like item) eqn:Hn; [|by apply elem_of_nil in H].
        apply list_elem_of_singleton in H as [= -> ->].
        exists 0%nat. by rewrite Nat.add_0_r.
      * exists (S i). split; [f_equal; lia | done].
    + intros ([|i] & -> & Hi & Hc); simpl in Hi.
      * left. injection Hi as ->. rewrite Hc, Nat.add_0_r. by left.
      * right. exists i. split; [f_equal; lia | done].
Qed.

Lemma elem_of_field_steps k child s c :
  (s, c) ∈ field_steps k child
  ↔ (s = Field k ∧ c = child ∧ is_node_like child = true)
    ∨ (∃ j, s = Item k j ∧ elements child !! j = Some c ∧ is_node_like c = true).
Proof.
  assert (Hplain : elements child = [] →
    (if is_node_like child then [(Field k, child)] else []) = field_steps k child →
    (s, c) ∈ field_steps k child
    ↔ (s = Field k ∧ c = child ∧ is_node_like child = true)
      ∨ (∃ j, s = Item k j ∧ elements child !! j = Some c ∧ is_node_like c = true)).
  { intros -> <-. split.
    - destruct (is_node_like child); [|by intros ?%elem_of_nil].
      intros [= -> ->]%list_elem_of_singleton. by left.
    - intros [(-> & -> & ->)|(j & _ & ? & _)]; [by left | done]. }
  destruct child; try (by apply Hplain).
  unfold field_steps. rewrite elem_of_item_steps. simpl. split.
  - intros (i & -> & ? & ?). right. by exists i.
  - intros [(_ & _ & ?)|(j & -> & ? & ?)]; [done | by exists j].
Qed.

Lemma elem_of_fields_steps k values s c :
  (s, c) ∈ fields_steps k values
  ↔ ∃ i child, values !! i = Some child ∧ (s, c) ∈ field_steps (k + i) child.
Proof.
  revert k. induction values as [|child values IH]; intros k; simpl.
  - split; [by intros ?%elem_of_nil | by intros (i & ? & ? & _)].
  - rewrite elem_of_app, IH. split.
    + intros [H|(i & ch & Hi & H)].
      * exists 0%nat, child. by rewrite Nat.add_0_r.
      * exists (S i), ch. split; [done|].
        by replace (k + S i)%nat with (S k + i)%nat by lia.
    + intros ([|i] & ch & Hi & H); simpl in Hi.
      * left. injection Hi as ->. by rewrite Nat.add_0_r in H.
      * right. exists i, ch. split; [done|].
        by replace (S k + i)%nat with (k + S i)%nat by lia.
Qed.

(** The children the walker recurses into are the values one step down
    that carry a string [type] tag. *)
Lemma elem_of_children v s c : (s, c) ∈ children v ↔ child_at v s = Some c.
Proof.
  unfold children. rewrite elem_of_fields_steps. split.
  - intros (i & child & Hi & H). simpl in H.
    apply elem_of_field_steps in H as [(-> & -> & Hn)|(j & -> & Hj & Hn)]; simpl.
    + by rewrite Hi; simpl; rewrite Hn.
    + by rewrite Hi; simpl; rewrite Hj; simpl; rewrite Hn.
  - destruct s as [k|k j]; simpl.
    + destruct (field_values v !! k) as [child|] eqn:Hk; simpl; [|done].
      destruct (is_node_like child) eqn:Hn; [|done]. intros [= ->].
      exists k, c. split; [done|]. apply elem_of_field_steps. by left.
    + destruct (field_values v !! k) as [child|] eqn:Hk; simpl; [|done].
      destruct (elements child !! j) as [c'|] eqn:Hj; simpl; [|done].
      destruct (is_node_like c') eqn:Hn; [|done]. intros [= ->].
      exists k, child. split; [done|]. apply elem_of_field_steps.
      right. by exists j.
Qed.

Lemma item_steps_NoDup k j items : NoDup (fst <$> item_steps k j items).
Proof.
  revert j. induction items as [|item items IH]; intros j; simpl; [constructor|].
  destruct (is_node_like item); simpl; [|apply IH].
  constructor; [|apply IH].
  intros ([s c] & Hs & Hin)%list_elem_of_fmap. simpl in Hs. subst s.
  apply elem_of_item_steps in Hin as (i & [= Hi] & _). lia.
Qed.

Lemma field_steps_field k child s c :
  (s, c) ∈ field_steps k child → step_field s = k.
Proof.
  intros [(-> & _)|(j & -> & _)]%elem_of_field_steps; reflexivity.
Qed.

Lemma field_steps_NoDup k child : NoDup (fst <$> field_steps k child).
Proof.
  destruct child; unfold field_steps; cbv beta iota;
    try apply item_steps_NoDup;
    match goal with
    | |- context [is_node_like ?v] => destruct (is_node_like v)
    end; simpl; repeat constructor; by intros ?%elem_of_nil.
Qed.

Lemma fields_steps_NoDup k values : NoDup (fst <$> fields_steps k values).
Proof.
  revert k. induction values as [|child values IH]; intros k; simpl; [constructor|].
  rewrite fmap_app. apply NoDup_app. split; [apply field_steps_NoDup|].
  split; [|apply IH].
  intros s ([s1 c1] & -> & H1)%list_elem_of_fmap ([s2 c2] & Heq & H2)%list_elem_of_fmap.
  simpl in Heq. subst s2.
  apply field_steps_field in H1.
  apply elem_of_fields_steps in H2 as (i & ch & _ & H2).
  apply field_steps_field in H2. lia.
Qed.

Lemma children_NoDup v : NoDup (fst <$> children v).
Proof. apply fields_steps_NoDup. Qed.

(** A child is a field value or an element of an array field value. *)
Lemma children_inside v s c :
  (s, c) ∈ children v →
  ∃ child, child ∈ field_values v ∧ (c = child ∨ c ∈ elements child).
Proof.
  unfold children. intros (i & child & Hi & H)%elem_of_fields_steps.
  exists child. split; [by eapply list_elem_of_lookup_2|].
  apply elem_of_field_steps in H as [(_ & -> & _)|(j & _ & Hj & _)]; [by left|].
  right. by eapply list_elem_of_lookup_2.
Qed.

(** Induction along the walker's recursion. *)
Lemma children_ind (P : value → Prop) :
  (∀ v, (∀ s c, (s, c) ∈ children v → P c) → P v) →
  ∀ v, P v.
Proof.
  intros Hstep.
  assert (H : ∀ v, P v ∧ Forall P (elements v)); [|intros v; apply H].
  assert (Hleaf : ∀ v, field_values v = [] → elements v = [] →
                       P v ∧ Forall P (elements v)).
  { intros v Hf ->. split; [|constructor]. apply Hstep. intros s c Hc.
    apply children_inside in Hc as (child & Hin & _).
    rewrite Hf in Hin. by apply elem_of_nil in Hin. }
  induction v as [| | b | n | str | items IH | fields IH] using value_nested_ind;
    try (by apply Hleaf).
  - assert (Hitems : Forall P items).
    { eapply Forall_impl; [exact IH|]. by intros v [? _]. }
    split; [|exact Hitems]. apply Hstep. intros s c Hc.
    apply children_inside in Hc as (child & Hin & [->|Hc]).
    + rewrite Forall_forall in Hitems. by apply Hitems.
    + rewrite Forall_forall in IH. destruct (IH child Hin) as [_ Hch].
      rewrite Forall_forall in Hch. by apply Hch.
  - split; [|constructor]. apply Hstep. intros s c Hc.
    apply children_inside in Hc as (child & Hin & Hc). simpl in Hin.
    apply list_elem_of_fmap in Hin as (kv & -> & Hkv).
    rewrite Forall_forall in IH. destruct (IH kv Hkv) as [Hp Hch].
    destruct Hc as [->|Hc]; [exact Hp|].
    rewrite Forall_forall in Hch. by apply Hch.
Qed.

Lemma children_trace_cons s c cs :
  children_trace ((s, c) :: cs) = under s (walk_trace c) ++ children_trace cs.
Proof. reflexivity. Qed.

Lemma elem_of_under s t p n :
  (p, n) ∈ under s t ↔ ∃ p', p = s :: p' ∧ (p', n) ∈ t.
Proof.
  unfold under. rewrite list_elem_of_fmap. split.
  - intros ([p' n'] & [= -> ->] & Hin). by exists p'.
  - intros (p' & -> & Hin). by exists (p', n).
Qed.

Lemma elem_of_children_trace cs p n :
  (p, n) ∈ children_trace cs
  ↔ ∃ s c p', (s, c) ∈ cs ∧ p = s :: p' ∧ (p', n) ∈ walk_trace c.
Proof.
  unfold children_trace. rewrite list_elem_of_bind. split.
  - intros ([s c] & Hin & Hsc). simpl in Hin.
    apply elem_of_under in Hin as (p' & -> & Hin). by exists s, c, p'.
  - intros (s & c & p' & Hsc & -> & Hin). exists (s, c). split; [|done].
    apply elem_of_under. by exists p'.
Qed.

Lemma fst_under s t : fst <$> under s t = cons s <$> (fst <$> t).
Proof. unfold under. by rewrite <- !list_fmap_compose. Qed.

Lemma snd_under s t : snd <$> under s t = snd <$> t.
Proof. unfold under. by rewrite <- !list_fmap_compose. Qed.

Lemma children_trace_nodes cs :
  (∀ s c, (s, c) ∈ cs → snd <$> walk_trace c = walk_nodes c) →
  snd <$> children_trace cs = child_nodes cs.
Proof.
  induction cs as [|[s c] cs IHcs]; intros H; [done|].
  rewrite children_trace_cons, fmap_app, snd_under.
  rewrite (H s c) by (by left).
  rewrite IHcs; [done|]. intros s' c' Hin. apply (H s' c'). by right.
Qed.

(** The traced nodes are the visited nodes, call by call. *)
Lemma walk_trace_nodes v : snd <$> walk_trace v = walk_nodes v.
Proof.
  induction v as [v IH] using children_ind.
  rewrite walk_trace_eq, walk_nodes_eq. destruct (walkable v); [|done].
  rewrite fmap_cons. simpl. f_equal. by apply children_trace_nodes.
Qed.

(** Every traced node is the node at its path. *)
Lemma walk_trace_node_at v p n : (p, n) ∈ walk_trace v → node_at v p = Some n.
Proof.
  revert p n. induction v as [v IH] using children_ind. intros p n.
  rewrite walk_trace_eq. destruct (walkable v); [|by intros ?%elem_of_nil].
  intros [[= -> ->]|Hin]%elem_of_cons; [done|].
  apply elem_of_children_trace in Hin as (s & c & p' & Hsc & -> & Hin).
  simpl. apply elem_of_children in Hsc as Hat. rewrite Hat. simpl.
  by apply (IH s c).
Qed.

Lemma child_walkable c : is_node_like c = true → walkable c = true.
Proof.
  unfold is_node_like, walkable. intros [Ht Hs]%andb_prop.
  rewrite Ht. by destruct c.
Qed.

(** Every reachable position is traced. *)
Lemma reachable_in_trace p v n :
  walkable v = true → node_at v p = Some n → (p, n) ∈ walk_trace v.
Proof.
  revert v. induction p as [|s p IH]; intros v Hw Hat; rewrite walk_trace_eq, Hw.
  - injection Hat as ->. by left.
  - simpl in Hat. destruct (child_at v s) as [c|] eqn:Hc; [|done]. simpl in Hat.
    right. apply elem_of_children_trace. exists s, c, p.
    split; [by apply elem_of_children|]. split; [done|].
    apply IH; [|done]. apply child_walkable.
    destruct s as [k|k j]; simpl in Hc.
    + destruct (field_values v !! k) as [c'|]; simpl in Hc; [|done].
      destruct (is_node_like c') eqn:Hn; [|done]. by injection Hc as ->.
    + destruct (field_values v !! k) as [a|]; simpl in Hc; [|done].
      destruct (elements a !! j) as [c'|]; simpl in Hc; [|done].
      destruct (is_node_like c') eqn:Hn; [|done]. by injection Hc as ->.
Qed.

Lemma children_paths_NoDup cs :
  NoDup (fst <$> cs) →
  (∀ s c, (s, c) ∈ cs → NoDup (walk_paths c)) →
  NoDup (fst <$> children_trace cs).
Proof.
  induction cs as [|[s c] cs IH]; intros Hnd Hcs; [constructor|].
  simpl in Hnd. apply NoDup_cons in Hnd as [Hs Hnd].
  rewrite children_trace_cons, fmap_app, fst_under.
  apply NoDup_app. split; [|split].
  - apply (NoDup_fmap_2 (cons s)). apply (Hcs s c). by left.
  - intros p (p' & -> & _)%list_elem_of_fmap ([p2 n] & Hp & Hin)%list_elem_of_fmap.
    simpl in Hp. subst p2.
    apply elem_of_children_trace in Hin as (s' & c' & p'' & Hsc & [= <- _] & _).
    apply Hs. apply list_elem_of_fmap. by exists (s, c').
  - apply IH; [done|]. intros s' c' Hin. apply (Hcs s' c'). by right.
Qed.

(** No position is traced twice. *)
Lemma walk_paths_NoDup v : NoDup (walk_paths v).
Proof.
  induction v as [v IH] using children_ind. unfold walk_paths.
  rewrite walk_trace_eq. destruct (walkable v); [|constructor].
  simpl. constructor.
  - intros ([p n] & Hp & Hin)%list_elem_of_fmap. simpl in Hp. subst p.
    by apply elem_of_children_trace in Hin as (s & c & p' & _ & ? & _).
  - apply children_paths_NoDup; [apply children_NoDup | exact IH].
Qed.

Lemma before_cons {A} (x : A) l p q : before l p q → before (x :: l) p q.
Proof. intros (l1 & l2 & -> & Hq). by exists (x :: l1), l2. Qed.

Lemma before_app_l {A} (k l : list A) p q : before l p q → before (k ++ l) p q.
Proof. induction k; [done|]. intros H. by apply before_cons, IHk. Qed.

Lemma before_app_r {A} (l k : list A) p q : before l p q → before (l ++ k) p q.
Proof.
  intros (l1 & l2 & -> & Hq). exists l1, (l2 ++ k).
  split; [by rewrite <- app_assoc | apply elem_of_app; by left].
Qed.

Lemma before_fmap {A B} (f : A → B) l p q :
  before l p q → before (f <$> l) (f p) (f q).
Proof.
  intros (l1 & l2 & -> & Hq). exists (f <$> l1), (f <$> l2).
  split; [by rewrite fmap_app | by apply list_elem_of_fmap_2].
Qed.

Lemma children_paths_before cs s p q :
  NoDup (fst <$> cs) →
  (∀ s c, (s, c) ∈ cs →
     ∀ p q, p ∈ walk_paths c → q ∈ walk_paths c → below p q →
            before (walk_paths c) p q) →
  s :: p ∈ fst <$> children_trace cs →
  s :: q ∈ fst <$> children_trace cs →
  below p q →
  before (fst <$> children_trace cs) (s :: p) (s :: q).
Proof.
  induction cs as [|[s0 c0] cs IH]; intros Hnd Hcs Hp Hq Hpq.
  { by apply elem_of_nil in Hp. }
  simpl in Hnd. apply NoDup_cons in Hnd as [Hs0 Hnd].
  rewrite children_trace_cons, fmap_app, fst_under in Hp, Hq |- *.
  assert (Hrest : ∀ r, s :: r ∈ fst <$> children_trace cs → s ∈ fst <$> cs).
  { intros r ([p2 n] & Hr & Hin)%list_elem_of_fmap. simpl in Hr. subst p2.
    apply elem_of_children_trace in Hin as (s' & c' & p'' & Hsc & [= <- _] & _).
    apply list_elem_of_fmap. by exists (s, c'). }
  destruct (decide (s = s0)) as [->|Hne].
  - apply elem_of_app in Hp as [Hp|Hp]; [|by apply Hrest in Hp].
    apply elem_of_app in Hq as [Hq|Hq]; [|by apply Hrest in Hq].
    apply list_elem_of_fmap in Hp as (p' & [= <-] & Hp).
    apply list_elem_of_fmap in Hq as (q' & [= <-] & Hq).
    apply before_app_r, (before_fmap (cons s0)).
    apply (Hcs s0 c0); [by left|done..].
  - apply elem_of_app in Hp as [(p' & [= ? _] & _)%list_elem_of_fmap|Hp]; [done|].
    apply elem_of_app in Hq as [(q' & [= ? _] & _)%list_elem_of_fmap|Hq]; [done|].
    apply before_app_l, IH; [done| |done..].
    intros s' c' Hin. apply (Hcs s' c'). by right.
Qed.

(** A node is traced before the nodes below it. *)
Lemma walk_paths_preorder v p q :
  p ∈ walk_paths v → q ∈ walk_paths v → below p q → before (walk_paths v) p q.
Proof.
  revert p q. induction v as [v IH] using children_ind. intros p q.
  unfold walk_paths at 1 2 3. rewrite walk_trace_eq.
  destruct (walkable v); [|by intros ?%elem_of_nil].
  simpl. intros Hp Hq (s & rest & ->).
  apply elem_of_cons in Hq as [Hq|Hq]; [by destruct p|].
  apply elem_of_cons in Hp as [->|Hp].
  - by exists [], (fst <$> children_trace (children v)).
  - destruct p as [|s0 p].
    { apply list_elem_of_fmap in Hp as ([p2 n] & Hp2 & Hin). simpl in Hp2. subst p2.
      by apply elem_of_children_trace in Hin as (? & ? & ? & _ & ? & _). }
    apply before_cons. simpl in Hq |- *.
    apply children_paths_before; [apply children_NoDup|exact IH|done..|].
    by exists s, rest.
Qed.

(** The walk over the tree of
    [const flag = R.useGateValue("codex-extension-slash-commands");]. *)
Example walk_member_ast :
  (fun v => get v "type") <$> walk_nodes Samples.member_ast
  = VStr <$> ["Program"; "VariableDeclaration"; "VariableDeclarator";
              "Identifier"; "CallExpression"; "MemberExpression";
              "Identifier"; "Identifier"; "Literal"]
  ∧ walk_paths Samples.member_ast
    = [[]; [Item 3 0]; [Item 3 0; Item 3 0]; [Item 3 0; Item 3 0; Field 3];
       [Item 3 0; Item 3 0; Field 4];
       [Item 3 0; Item 3 0; Field 4; Field 3];
       [Item 3 0; Item 3 0; Field 4; Field 3; Field 3];
       [Item 3 0; Item 3 0; Field 4; Field 3; Field 4];
       [Item 3 0; Item 3 0; Field 4; Item 4 0]].
Proof. split; vm_compute; reflexivity. Qed.

(** The walker's test for a child is the tag the specification speaks
    of. *)
Lemma is_node_like_tagged c : is_node_like c = tagged c.
Proof.
  unfold is_node_like.
  destruct c as [| | b | n | s | items | fields]; simpl; rewrite ?andb_false_r;
    try reflexivity.
Qed.

Lemma node_at_reached root p n : node_at root p = Some n ↔ reached root p n.
Proof.
  split.
  - revert root. induction p as [|s p IH]; intros root H.
    + injection H as <-. constructor.
    + simpl in H. destruct (child_at root s) as [c|] eqn:Hc; [|done]. simpl in H.
      destruct s as [k|k j]; simpl in Hc.
      * destruct (field_values root !! k) as [c'|] eqn:Hk; simpl in Hc; [|done].
        destruct (is_node_like c') eqn:Hn; [|done]. injection Hc as ->.
        rewrite is_node_like_tagged in Hn. by eapply reached_field; eauto.
      * destruct (field_values root !! k) as [a|] eqn:Hk; simpl in Hc; [|done].
        destruct (elements a !! j) as [c'|] eqn:Hj; simpl in Hc; [|done].
        destruct (is_node_like c') eqn:Hn; [|done]. injection Hc as ->.
        rewrite is_node_like_tagged in Hn.
        destruct a as [| | | | | items |]; try (by apply lookup_nil_Some in Hj; done);
          try done.
        by eapply reached_item; eauto.
  - induction 1 as [root|root k c p n Hk Ht _ IH|root k j items c p n Hk Hj Ht _ IH].
    + done.
    + simpl. rewrite Hk. simpl. by rewrite is_node_like_tagged, Ht.
    + simpl. rewrite Hk. simpl. rewrite Hj. simpl.
      by rewrite is_node_like_tagged, Ht.
Qed.

Lemma tagged_walkable root : tagged root = true → walkable root = true.
Proof. intros H. apply child_walkable. by rewrite is_node_like_tagged. Qed.

(** C8.  For every tree whose root carries a string [type] tag, the calls
    [walk] makes to its visitor, whatever the visitor, are the calls on a
    list of nodes, each at a position of its own, in which a node occurs at
    a position exactly when it is reached from the root at that position
    through fields and array elements that carry a string [type] tag: so
    every such node is visited exactly once.  The position of a node comes
    before the positions of the nodes below it: a parent is visited before
    its descendants. *)
Theorem walk_visits_once_in_preorder (root : value) :
  tagged root = true →
  ∃ trace : list (list step * value),
    (∀ St (visitor : value → St → St) (s : St),
       walk visitor root s = fold_left (fun s n => visitor n s) (snd <$> trace) s)
    ∧ NoDup (fst <$> trace)
    ∧ (∀ p n, (p, n) ∈ trace ↔ reached root p n)
    ∧ (∀ p q, p ∈ fst <$> trace → q ∈ fst <$> trace → below p q →
              before (fst <$> trace) p q).
Proof.
  intros Htag. exists (walk_trace root).
  split; [|split; [|split]].
  - intros St visitor s. rewrite walk_trace_nodes. apply walk_fold.
  - apply walk_paths_NoDup.
  - intros p n. rewrite <- node_at_reached. split.
    + apply walk_trace_node_at.
    + apply reachable_in_trace. by apply tagged_walkable.
  - apply walk_paths_preorder.
Qed.

Lemma walk_visits_once_in_preorder_witness :
  ∃ trace : list (list step * value),
    walk_nodes Samples.member_ast = snd <$> trace
    ∧ (fun v => get v "type") <$> (snd <$> trace)
      = VStr <$> ["Program"; "VariableDeclaration"; "VariableDeclarator";
                  "Identifier"; "CallExpression"; "MemberExpression";
                  "Identifier"; "Identifier"; "Literal"]
    ∧ NoDup (fst <$> trace)
    ∧ (∀ p n, (p, n) ∈ trace ↔ reached Samples.member_ast p n).
Proof.
  destruct (walk_visits_once_in_preorder Samples.member_ast)
    as (trace & Hcalls & Hnd & Hiff & _).
  - vm_compute. reflexivity.
  - assert (Hnodes : walk_nodes Samples.member_ast = snd <$> trace).
    { unfold walk_nodes. rewrite Hcalls. apply fold_left_snoc. }
    exists trace. split; [exact Hnodes|]. split; [|split; [exact Hnd | exact Hiff]].
    rewrite <- Hnodes. vm_compute. reflexivity.
Defined.

(** * Further properties of the patch engine *)

(** ** Member names and the shape the rule accepts *)

Lemma strict_eq_str_eq v s : strict_eq_str v s = true ↔ v = VStr s.
Proof.
  destruct v; simpl; try (split; [discriminate | congruence]).
  rewrite String.eqb_eq. split; congruence.
Qed.

(** X1.  [getPropertyName] gives a string [name] exactly for a dotted
    access to an identifier of that name and for a computed access through
    a literal of that value; without a property it gives null, and so it
    does for a computed access through an identifier.  Hence the rule
    accepts [obj.useGateValue(...)] and [obj["useGateValue"](...)], and
    nothing else, as callee. *)
Theorem getPropertyName_cases (memberExpr : value) (name : string) :
  (getPropertyName memberExpr = VStr name
   ↔ truthy (get memberExpr "property") = true
     ∧ ((truthy (get memberExpr "computed") = false
         ∧ get (get memberExpr "property") "type" = VStr "Identifier"
         ∧ get (get memberExpr "property") "name" = VStr name)
        ∨ (truthy (get memberExpr "computed") = true
           ∧ get (get memberExpr "property") "type" = VStr "Literal"
           ∧ get (get memberExpr "property") "value" = VStr name)))
  ∧ (truthy (get memberExpr "property") = false
     → getPropertyName memberExpr = VNull)
  ∧ (truthy (get memberExpr "computed") = true
     → get (get memberExpr "property") "type" = VStr "Identifier"
     → getPropertyName memberExpr = VNull)
  ∧ (∀ node, gate_declarator node = true
     → getPropertyName (get (get node "init") "callee") = VStr "useGateValue").
Proof.
  assert (Hfalsy : truthy memberExpr = false → get memberExpr "property" = VUndef).
  { by destruct memberExpr. }
  split; [|split; [|split]].
  - unfold getPropertyName.
    destruct (truthy memberExpr) eqn:Hm; simpl.
    2:{ rewrite (Hfalsy eq_refl). simpl. split; [discriminate | by intros [? _]]. }
    destruct (truthy (get memberExpr "property")) eqn:Hp; simpl.
    2:{ split; [discriminate | by intros [? _]]. }
    destruct (truthy (get memberExpr "computed")) eqn:Hc; simpl.
    + destruct (strict_eq_str _ "Literal") eqn:Hl.
      * apply strict_eq_str_eq in Hl. split.
        -- intros H. split; [done|]. by right.
        -- by intros [_ [(? & _)|(_ & _ & ?)]].
      * split; [discriminate|]. intros [_ [(? & _)|(_ & Ht & _)]]; [done|].
        apply strict_eq_str_eq in Ht. congruence.
    + destruct (strict_eq_str _ "Identifier") eqn:Hi.
      * apply strict_eq_str_eq in Hi. split.
        -- intros H. split; [done|]. by left.
        -- by intros [_ [(_ & _ & ?)|(? & _)]].
      * split; [discriminate|]. intros [_ [(_ & Ht & _)|(? & _)]]; [|done].
        apply strict_eq_str_eq in Ht. congruence.
  - intros Hp. unfold getPropertyName. rewrite Hp. simpl. by rewrite orb_true_r.
  - intros Hc Ht. unfold getPropertyName. rewrite Hc, Ht. simpl.
    by repeat case_match.
  - intros node Hg. unfold gate_declarator in Hg. cbv zeta in Hg.
    repeat (apply andb_prop in Hg as [Hg ?]).
    by apply strict_eq_str_eq.
Qed.

(** ** What a match holds *)

Lemma includes_split s m :
  includes s m = true → ∃ a b, s = a +:+ m +:+ b.
Proof.
  induction s as [|c s IH]; rewrite includes_unfold; intros H.
  - rewrite orb_false_r in H. apply prefix_split in H. by exists "", (drop (String.length m) "").
  - apply orb_prop in H as [H|H].
    + apply prefix_split in H. by exists "", (drop (String.length m) (String c s)).
    + destruct (IH H) as (a & b & ->). by exists (String c a), b.
Qed.

Lemma includes_longer s m g rest :
  m = g +:+ rest → includes s m = true → includes s g = true.
Proof.
  intros -> (a & b & ->)%includes_split.
  rewrite append_assoc. apply includes_middle.
Qed.

Lemma length_slice s a b :
  0 ≤ a → a ≤ b → b ≤ Z.of_nat (String.length s) →
  Z.of_nat (String.length (slice s a b)) = b - a.
Proof.
  intros Ha Hab Hb. unfold slice.
  rewrite !clamp_index_in_range by lia.
  rewrite length_take, length_drop. lia.
Qed.

Lemma length_wrap original :
  String.length (wrap original) = (String.length original + 39)%nat.
Proof.
  unfold wrap. rewrite !length_append.
  change (String.length ELECTRON_FORCE_EXPR) with 35%nat. simpl. lia.
Qed.

(** X2.  A match of the rule comes from a variable declarator and covers
    exactly its initializer: [start] and [end] are the initializer's
    offsets, [original] is the source text between them, and [replacement]
    is that text wrapped as [(original||window.codexWindowType==="electron")],
    39 code units longer.  The original contains neither the guard
    substring nor the marker expression. *)
Theorem match_result_anatomy (node : value) (source : string) (r : MatchResult) :
  enable_slash_commands_match node source = Some r →
  get node "type" = VStr "VariableDeclarator"
  ∧ start r = offset (get (get node "init") "start")
  ∧ end_ r = offset (get (get node "init") "end")
  ∧ original r = slice source (start r) (end_ r)
  ∧ replacement r
    = "(" +:+ original r +:+ "||" +:+ ELECTRON_FORCE_EXPR +:+ ")"
  ∧ includes (original r) "window.codexWindowType" = false
  ∧ includes (original r) ELECTRON_FORCE_EXPR = false
  ∧ String.length (replacement r) = (String.length (original r) + 39)%nat
  ∧ (0 ≤ start r → start r ≤ end_ r → end_ r ≤ Z.of_nat (String.length source)
     → Z.of_nat (String.length (original r)) = end_ r - start r).
Proof.
  rewrite match_unfold. intros H.
  destruct (gate_declarator node) eqn:Hg; [|done].
  destruct (includes (init_text node source) GUARD) eqn:Hguard; [done|].
  injection H as <-. simpl.
  split.
  { unfold gate_declarator in Hg. cbv zeta in Hg.
    repeat (apply andb_prop in Hg as [Hg ?]). by apply strict_eq_str_eq. }
  do 4 (split; [reflexivity|]).
  split; [exact Hguard|].
  split.
  { destruct (includes (init_text node source) ELECTRON_FORCE_EXPR) eqn:Hm; [|done].
    rewrite <- Hguard. symmetry.
    by apply (includes_longer _ ELECTRON_FORCE_EXPR GUARD
                ("===" +:+ dquote +:+ "electron" +:+ dquote)). }
  split; [apply length_wrap|].
  intros. by apply length_slice.
Qed.

Lemma match_result_anatomy_witness :
  ∃ r, enable_slash_commands_match Samples.member_decl Samples.member_src = Some r
       ∧ start r = 13 ∧ end_ r = 61
       ∧ String.length (replacement r) = (String.length (original r) + 39)%nat.
Proof.
  eexists. split; [vm_compute; reflexivity|].
  split; [reflexivity|]. split; [reflexivity|].
  eapply (match_result_anatomy Samples.member_decl Samples.member_src).
  vm_compute. reflexivity.
Defined.

(** ** One splice, and a run of splices *)

Lemma drop_append_length a b : drop (String.length a) (a +:+ b) = b.
Proof. by rewrite drop_append_le, drop_all by lia. Qed.

Lemma take_append_length a b : take (String.length a) (a +:+ b) = a.
Proof. by rewrite take_append_le, take_all by lia. Qed.

Lemma length_slice_from s a :
  0 ≤ a → a ≤ Z.of_nat (String.length s) →
  Z.of_nat (String.length (slice_from s a)) = Z.of_nat (String.length s) - a.
Proof.
  intros Ha Hb. unfold slice_from.
  rewrite clamp_index_in_range, length_drop by lia. lia.
Qed.

Lemma slice_prefix s a :
  0 ≤ a → a ≤ Z.of_nat (String.length s) → slice s 0 a = take (Z.to_nat a) s.
Proof.
  intros Ha Hb. unfold slice.
  rewrite !clamp_index_in_range by lia. by rewrite drop_0, Nat.sub_0_r.
Qed.

(** X12.  A splice touches nothing outside its range: with the range
    inside the text, the text before [start] is unchanged, the replacement
    sits at [start], what followed [end] follows the replacement, and the
    length changes by the difference between replacement and range. *)
Theorem splice_keeps_outside (code : string) (p : Patch) :
  0 ≤ start (result p) →
  start (result p) ≤ end_ (result p) →
  end_ (result p) ≤ Z.of_nat (String.length code) →
  let n := Z.of_nat (String.length (replacement (result p))) in
  slice (splice code p) 0 (start (result p)) = slice code 0 (start (result p))
  ∧ slice (splice code p) (start (result p)) (start (result p) + n)
    = replacement (result p)
  ∧ slice_from (splice code p) (start (result p) + n)
    = slice_from code (end_ (result p))
  ∧ Z.of_nat (String.length (splice code p))
    = Z.of_nat (String.length code) - (end_ (result p) - start (result p)) + n.
Proof.
  intros Hs Hse He n. unfold splice.
  set (A := slice code 0 (start (result p))).
  set (R := replacement (result p)) in *.
  set (B := slice_from code (end_ (result p))).
  assert (HA : Z.of_nat (String.length A) = start (result p)).
  { unfold A. rewrite length_slice by lia. lia. }
  assert (HB : Z.of_nat (String.length B)
               = Z.of_nat (String.length code) - end_ (result p)).
  { unfold B. by rewrite length_slice_from by lia. }
  assert (Hlen : Z.of_nat (String.length (A +:+ R +:+ B))
                 = start (result p) + n + Z.of_nat (String.length B)).
  { rewrite !length_append. subst n. lia. }
  split; [|split; [|split]].
  - rewrite (slice_prefix (A +:+ R +:+ B)) by lia.
    replace (Z.to_nat (start (result p))) with (String.length A) by lia.
    apply take_append_length.
  - unfold slice. rewrite !clamp_index_in_range by lia.
    replace (Z.to_nat (start (result p))) with (String.length A) by lia.
    rewrite drop_append_length.
    replace (Z.to_nat (start (result p) + n) - String.length A)%nat
      with (String.length R) by (subst n; lia).
    apply take_append_length.
  - unfold slice_from at 1. rewrite clamp_index_in_range by lia.
    replace (Z.to_nat (start (result p) + n))
      with (String.length (A +:+ R)) by (rewrite length_append; subst n; lia).
    rewrite <- append_assoc. apply drop_append_length.
  - rewrite Hlen, HB. lia.
Qed.

Lemma splice_keeps_outside_witness :
  slice (splice Samples.digits Samples.low_patch) 0 2 = "01"
  ∧ slice_from (splice Samples.digits Samples.low_patch) 4 = "456789".
Proof.
  destruct (splice_keeps_outside Samples.digits Samples.low_patch)
    as (H1 & _ & H3 & _); [simpl; lia..|].
  split; [etrans; [exact H1|] | etrans; [exact H3|]]; vm_compute; reflexivity.
Defined.

Lemma match_result_shape node source r :
  enable_slash_commands_match node source = Some r →
  original r = slice source (start r) (end_ r)
  ∧ replacement r = wrap (original r).
Proof.
  rewrite match_unfold.
  destruct (gate_declarator node); [|done].
  destruct (includes _ _); [done|]. by intros [= <-].
Qed.

Lemma all_matches_anatomy ast source p :
  p ∈ all_matches ast source →
  original (result p) = slice source (start (result p)) (end_ (result p))
  ∧ replacement (result p) = wrap (original (result p))
  ∧ ruleId p = "enable_slash_commands_in_electron"
  ∧ ∃ node, node ∈ walk_nodes ast
            ∧ enable_slash_commands_match node source = Some (result p).
Proof.
  unfold all_matches. intros Hp.
  apply list_elem_of_In, in_flat_map in Hp as (node & Hn & Hp).
  apply list_elem_of_In in Hp, Hn. unfold node_matches in Hp. simpl in Hp.
  destruct (enable_slash_commands_match node source) as [r|] eqn:Hm;
    [|by apply elem_of_nil in Hp].
  simpl in Hp. apply list_elem_of_singleton in Hp as ->. simpl.
  destruct (match_result_shape node source r Hm) as (Ho & Hr).
  split; [exact Ho|]. split; [exact Hr|]. split; [done|]. by exists node.
Qed.

(** ** What an apply run writes *)

Lemma collected_anatomy ast source p :
  p ∈ fst (collectPatches ast source) →
  original (result p) = slice source (start (result p)) (end_ (result p))
  ∧ replacement (result p) = wrap (original (result p))
  ∧ ruleId p = "enable_slash_commands_in_electron"
  ∧ ∃ node, node ∈ walk_nodes ast
            ∧ enable_slash_commands_match node source = Some (result p).
Proof.
  rewrite collectPatches_keep_first. intros Hp.
  apply (all_matches_anatomy ast source).
  eapply elem_of_sublist; [exact Hp | apply keep_first_sublist].
Qed.

Lemma splice_length code p :
  0 ≤ start (result p) →
  start (result p) ≤ end_ (result p) →
  end_ (result p) ≤ Z.of_nat (String.length code) →
  Z.of_nat (String.length (splice code p))
  = Z.of_nat (String.length code) - (end_ (result p) - start (result p))
    + Z.of_nat (String.length (replacement (result p))).
Proof.
  intros Hs Hse He. unfold splice. rewrite !length_append.
  pose proof (length_slice code 0 (start (result p))).
  pose proof (length_slice_from code (end_ (result p))). lia.
Qed.

Lemma splice_all_length bound l code :
  bound ≤ Z.of_nat (String.length code) →
  Forall (fun p => in_bounds bound p
                   ∧ Z.of_nat (String.length (replacement (result p)))
                     = end_ (result p) - start (result p) + 39) l →
  Z.of_nat (String.length (splice_all code l))
  = Z.of_nat (String.length code) + 39 * Z.of_nat (length l).
Proof.
  revert code. induction l as [|p l IH]; intros code Hb Hl.
  - simpl. lia.
  - apply Forall_cons in Hl as [[(H0 & H1 & H2) Hr] Hl].
    change (splice_all code (p :: l)) with (splice_all (splice code p) l).
    pose proof (splice_length code p) as Hlen.
    rewrite IH; [|lia|done]. simpl length. lia.
Qed.

(** X3.  Every patch makes the bundle 39 code units longer: when the
    collected ranges lie inside the source, the text an apply run writes
    has the length of the source plus 39 times the number of patches,
    whether or not the ranges overlap. *)
Theorem apply_grows_by_39_per_patch (ast : value) (source code : string) :
  estree_shape ast = true →
  Forall (in_bounds (Z.of_nat (String.length source)))
         (fst (collectPatches ast source)) →
  written (main_apply ast source) = Some code →
  Z.of_nat (String.length code)
  = Z.of_nat (String.length source)
    + 39 * Z.of_nat (length (fst (collectPatches ast source))).
Proof.
  intros _ Hb. unfold main_apply. cbv zeta.
  pose proof (collected_anatomy ast source) as Han.
  set (ps := fst (collectPatches ast source)) in *.
  destruct (Z.of_nat (length ps) =? 0); [by repeat case_match|].
  cbn [written]. intros [= <-].
  rewrite <- (Permutation_length (sort_patches_perm ps)).
  apply (splice_all_length (Z.of_nat (String.length source))); [lia|].
  apply Forall_forall. intros p Hp. rewrite sort_patches_perm in Hp.
  rewrite Forall_forall in Hb. specialize (Hb p Hp). split; [exact Hb|].
  destruct (Han p Hp) as (Ho & Hr & _). destruct Hb as (H0 & H1 & H2).
  rewrite Hr, length_wrap, Ho, Nat2Z.inj_add, length_slice by lia. lia.
Qed.

Lemma apply_grows_by_39_per_patch_witness :
  written (main_apply Samples.nested_ast Samples.nested_src) = Some Samples.nested_once
  ∧ Z.of_nat (String.length Samples.nested_once)
    = Z.of_nat (String.length Samples.nested_src) + 39 * 2.
Proof.
  split; [vm_compute; reflexivity|].
  etrans; [apply (apply_grows_by_39_per_patch Samples.nested_ast Samples.nested_src)|].
  - vm_compute; reflexivity.
  - vm_compute length. vm_compute collectPatches.
    repeat constructor; simpl; lia.
  - vm_compute; reflexivity.
  - vm_compute; reflexivity.
Defined.

(** The equation behind C4, for use with the collector's own patches. *)
Lemma sorted_splice_rebuild source ps :
  Forall (in_bounds (Z.of_nat (String.length source))) ps →
  NoDup (patch_start <$> ps) →
  (∀ p q, p ∈ ps → q ∈ ps → p ≠ q → disjoint p q) →
  splice_all source (sort_patches ps) = rebuild source 0 (sort_ascending ps).
Proof.
  intros Hb Hnd Hd.
  rewrite <- rev_sort_patches by done.
  rewrite <- rebuild_upto_end.
  rewrite <- (append_nil_r (rebuild_upto _ _ _ _)).
  rewrite <- (slice_whole source) at 1.
  rewrite <- (append_nil_r (slice _ _ _)).
  apply splice_all_descending; [lia | by rewrite sort_patches_perm |].
  apply (descending_chain (Z.of_nat (String.length source)));
    [apply sort_patches_sorted | by rewrite sort_patches_perm
     | by rewrite sort_patches_perm |].
  intros p q Hp Hq. rewrite sort_patches_perm in Hp, Hq. by apply Hd.
Qed.

(** X14.  Collecting, sorting and splicing compose: when the collected
    ranges lie inside the source and do not overlap one another, apply
    mode writes the source with all of them replaced at once and exits 0.
    That the start offsets are pairwise distinct need not be assumed: the
    collector sees to it. *)
Theorem apply_writes_simultaneous_replacement (ast : value) (source : string) :
  estree_shape ast = true →
  fst (collectPatches ast source) ≠ [] →
  Forall (in_bounds (Z.of_nat (String.length source)))
         (fst (collectPatches ast source)) →
  (∀ p q, p ∈ fst (collectPatches ast source) →
          q ∈ fst (collectPatches ast source) → p ≠ q → disjoint p q) →
  main_apply ast source
  = mkOutcome 0
      (Some (replace_simultaneously source (fst (collectPatches ast source))))
      (Patched (length (fst (collectPatches ast source)))).
Proof.
  intros _ Hne Hb Hd. unfold main_apply. cbv zeta.
  assert (Hnd : NoDup (patch_start <$> fst (collectPatches ast source))).
  { rewrite collectPatches_keep_first. apply keep_first_NoDup. }
  set (ps := fst (collectPatches ast source)) in *.
  destruct (Z.eqb_spec (Z.of_nat (length ps)) 0) as [Hz|_].
  { destruct ps; [done | simpl in Hz; lia]. }
  unfold replace_simultaneously. by rewrite sorted_splice_rebuild.
Qed.

Lemma apply_writes_simultaneous_replacement_witness :
  fst (collectPatches Samples.member_ast Samples.member_src) ≠ []
  ∧ main_apply Samples.member_ast Samples.member_src
    = mkOutcome 0 (Some Samples.member_patched) (Patched 1).
Proof.
  split; [vm_compute; discriminate|].
  etrans; [apply (apply_writes_simultaneous_replacement
                    Samples.member_ast Samples.member_src)|].
  - vm_compute; reflexivity.
  - vm_compute; discriminate.
  - vm_compute length. vm_compute collectPatches. repeat constructor; simpl; lia.
  - vm_compute collectPatches. intros p q Hp Hq Hne.
    apply list_elem_of_singleton in Hp, Hq. congruence.
  - vm_compute; reflexivity.
Defined.

(** ** Runs in which a file-system call throws *)

Lemma slash_locate_unfold assetsDir existsSync readdirSync path_join :
  Throwing.Slash.locateBundle assetsDir existsSync readdirSync path_join
  = if negb existsSync then Throwing.Ended (Exit 1) else
    match readdirSync with
    | None => Throwing.Thrown (Throwing.Readdir assetsDir)
    | Some names => Throwing.Ended (locateBundle assetsDir true names path_join)
    end.
Proof.
  unfold Throwing.Slash.locateBundle, locateBundle.
  destruct existsSync; [|done]. destruct readdirSync; [|done].
  cbn [negb]. cbv zeta. by repeat case_match.
Qed.

(** When every call returns, the run is the one of [main]. *)
Lemma slash_main_when_calls_return
    isCheck assetsDir existsSync names path_join read parse
    readFileSync writeFileSync :
  (∀ path, readFileSync path = Some (read path)) →
  (∀ path text, writeFileSync path text = true) →
  Throwing.Slash.main isCheck assetsDir existsSync (Some names) path_join
    readFileSync parse writeFileSync
  = Throwing.Ended (main isCheck assetsDir existsSync names path_join read parse).
Proof.
  intros Hr Hw. unfold Throwing.Slash.main, main. rewrite slash_locate_unfold.
  destruct existsSync; [|done]. cbn [negb].
  assert (locateBundle assetsDir true names path_join
          = locateBundle assetsDir true names path_join) as _ by done.
  destruct (locateBundle assetsDir true names path_join) as [code|p]; [done|].
  rewrite Hr. cbv zeta. destruct (parse (read p)) as [ast|]; [|done].
  destruct isCheck; [done|].
  destruct (written (main_apply ast (read p))); [|done]. by rewrite Hw.
Qed.

(** X4.  The run after an apply run never reports structural drift.  The
    text an apply run writes always contains the marker expression, so the
    next run on that text, in either mode, ends with status 1 only when the
    parser rejects the text (splices that overlap can leave parentheses
    unbalanced) or when the write throws; with a tree for the text and a
    write that returns it exits 0. *)
Theorem rerun_never_reports_drift
    (ast : value) (source code : string) (isCheck : bool)
    (assetsDir : string) (names : list string)
    (path_join : string → string → string)
    (readFileSync : string → option string) (parse : string → option value)
    (writeFileSync : string → string → bool) (bundlePath : string) :
  written (main_apply ast source) = Some code →
  locateBundle assetsDir true names path_join = Return bundlePath →
  readFileSync bundlePath = Some code →
  let next :=
    Throwing.Slash.main isCheck assetsDir true (Some names) path_join
      readFileSync parse writeFileSync in
  includes code ELECTRON_FORCE_EXPR = true
  ∧ (∀ o, next = Throwing.Ended o → message o ≠ StructuralDrift)
  ∧ (parse code = None ↔ next = Throwing.Ended (mkOutcome 1 None ParseFailure))
  ∧ (Throwing.Slash.exit_status next = 0 ∨ Throwing.Slash.exit_status next = 1)
  ∧ (Throwing.Slash.exit_status next = 1
     ↔ parse code = None
       ∨ ∃ text, next = Throwing.Thrown (Throwing.WriteFile bundlePath text)).
Proof.
  intros Hw Hloc Hread next. subst next.
  pose proof (written_includes_marker ast source code Hw) as Hm.
  split; [exact Hm|].
  unfold Throwing.Slash.main. rewrite slash_locate_unfold. cbn [negb].
  rewrite Hloc, Hread.
  destruct (parse code) as [ast'|]; cbn [Throwing.Slash.exit_status exit_code].
  2:{ split; [by intros o [= <-]|]. split; [done|]. split; [by right|].
      split; auto. }
  assert (Hc : exit_code (main_check ast' code) = 0
               ∧ message (main_check ast' code) ≠ StructuralDrift
               ∧ message (main_check ast' code) ≠ ParseFailure).
  { unfold main_check. by repeat case_match. }
  assert (Ha : exit_code (main_apply ast' code) = 0
               ∧ message (main_apply ast' code) ≠ StructuralDrift
               ∧ message (main_apply ast' code) ≠ ParseFailure).
  { unfold main_apply. cbv zeta. rewrite Hm. by repeat case_match. }
  destruct Hc as (Hc1 & Hc2 & Hc3), Ha as (Ha1 & Ha2 & Ha3).
  destruct isCheck.
  - cbn [Throwing.Slash.exit_status]. rewrite Hc1.
    split; [by intros o [= <-]|]. split.
    { split; [done|]. intros [= H]. by rewrite H in Hc3. }
    split; [by left|]. split; [done|]. by intros [|[? ?]].
  - cbv zeta. destruct (written (main_apply ast' code)) as [text|].
    + destruct (writeFileSync bundlePath text);
        cbn [Throwing.Slash.exit_status]; rewrite ?Ha1.
      * split; [by intros o [= <-]|]. split.
        { split; [done|]. intros [= H]. by rewrite H in Ha3. }
        split; [by left|]. split; [done|]. by intros [|[? ?]].
      * split; [done|]. split; [done|]. split; [by right|].
        split; [|done]. intros _. right. by exists text.
    + cbn [Throwing.Slash.exit_status]. rewrite Ha1.
      split; [by intros o [= <-]|]. split.
      { split; [done|]. intros [= H]. by rewrite H in Ha3. }
      split; [by left|]. split; [done|]. by intros [|[? ?]].
Qed.

Lemma rerun_never_reports_drift_witness :
  written (main_apply Samples.nested_ast Samples.nested_src)
  = Some Samples.nested_once
  ∧ Throwing.Slash.main false "assets" true (Some ["index-1a2b.js"])
      (fun dir file => dir +:+ "/" +:+ file)
      (fun _ => Some Samples.nested_once) Samples.parse (fun _ _ => true)
    ≠ Throwing.Ended (mkOutcome 1 None ParseFailure).
Proof.
  split; [vm_compute; reflexivity|].
  destruct (rerun_never_reports_drift Samples.nested_ast Samples.nested_src
              Samples.nested_once false "assets" ["index-1a2b.js"]
              (fun dir file => dir +:+ "/" +:+ file)
              (fun _ => Some Samples.nested_once) Samples.parse
              (fun _ _ => true) "assets/index-1a2b.js")
    as (_ & _ & H & _).
  - vm_compute; reflexivity.
  - vm_compute; reflexivity.
  - reflexivity.
  - intros E. apply H in E. vm_compute in E. discriminate E.
Defined.

(** ** Check mode against apply mode *)

(** X5.  Check mode predicts apply mode.  On the same tree and text the
    number of matches check mode lists is the number of patches apply mode
    writes, and the closing messages correspond: no gate reference and
    already enabled in both, the "no patch position" note of check mode
    where apply mode reports structural drift.  Check mode itself writes
    nothing and exits 0. *)
Theorem check_predicts_apply (ast : value) (source : string) :
  estree_shape ast = true →
  length (scanMatches ast source) = length (fst (collectPatches ast source))
  ∧ message (main_apply ast source)
    = apply_counterpart (message (main_check ast source))
  ∧ written (main_check ast source) = None
  ∧ exit_code (main_check ast source) = 0.
Proof.
  intros _.
  assert (Hlen : length (scanMatches ast source)
                 = length (fst (collectPatches ast source))).
  { rewrite <- (length_fmap match_key), scan_collect_keys. apply length_fmap. }
  split; [exact Hlen|].
  unfold main_check, main_apply. cbv zeta. rewrite Hlen.
  by repeat case_match.
Qed.

Lemma check_predicts_apply_witness :
  estree_shape Samples.comment_ast = true
  ∧ message (main_check Samples.comment_ast Samples.comment_src) = NoPatchPosition
  ∧ message (main_apply Samples.comment_ast Samples.comment_src) = StructuralDrift.
Proof.
  split; [vm_compute; reflexivity|].
  split; [vm_compute; reflexivity|].
  destruct (check_predicts_apply Samples.comment_ast Samples.comment_src)
    as (_ & H & _); [vm_compute; reflexivity|].
  rewrite H. vm_compute. reflexivity.
Defined.

Ltac break_hyps :=
  repeat match goal with
         | H : _ ∧ _ |- _ => destruct H
         | H : ∃ _, _ |- _ => destruct H
         end.

Ltac thrown_iff :=
  intros;
  split;
  [ intros [=]; subst; first [done | by repeat (split || eexists) | idtac]
  | intros; break_hyps; simplify_eq; try congruence; try done ].

(** X6.  With [--check] the driver never calls [fs.writeFileSync],
    whatever the directory holds and whatever the parser returns.  Its exit
    status is 0 or 1; with [--check] it is 1 only when the bundle cannot be
    located, the listing or the read throws, or the parser throws, and in
    apply mode only for those, for a write that throws and for structural
    drift.  Each exception is thrown in exactly one situation. *)
Theorem main_check_never_writes
    (assetsDir : string) (existsSync : bool) (readdirSync : option (list string))
    (path_join : string → string → string)
    (readFileSync : string → option string) (parse : string → option value)
    (writeFileSync : string → string → bool) :
  let run isCheck :=
    Throwing.Slash.main isCheck assetsDir existsSync readdirSync path_join
      readFileSync parse writeFileSync in
  let status isCheck := Throwing.Slash.exit_status (run isCheck) in
  let located path :=
    ∃ names, existsSync = true ∧ readdirSync = Some names
             ∧ locateBundle assetsDir true names path_join = Return path in
  Throwing.Slash.passed_to_write (run true) = None
  ∧ (status true = 0
     ∨ status true = 1
       ∧ (run true = Throwing.Thrown (Throwing.Readdir assetsDir)
          ∨ (∃ path, run true = Throwing.Thrown (Throwing.ReadFile path))
          ∨ run true = Throwing.Ended (mkOutcome 1 None LocatorFailure)
          ∨ run true = Throwing.Ended (mkOutcome 1 None ParseFailure)))
  ∧ (status false = 0
     ∨ status false = 1
       ∧ (run false = Throwing.Thrown (Throwing.Readdir assetsDir)
          ∨ (∃ path, run false = Throwing.Thrown (Throwing.ReadFile path))
          ∨ (∃ path text,
               run false = Throwing.Thrown (Throwing.WriteFile path text))
          ∨ run false = Throwing.Ended (mkOutcome 1 None LocatorFailure)
          ∨ run false = Throwing.Ended (mkOutcome 1 None ParseFailure)
          ∨ run false = Throwing.Ended (mkOutcome 1 None StructuralDrift)))
  ∧ (∀ isCheck path,
       run isCheck = Throwing.Thrown (Throwing.Readdir path)
       ↔ path = assetsDir ∧ existsSync = true ∧ readdirSync = None)
  ∧ (∀ isCheck path,
       run isCheck = Throwing.Thrown (Throwing.ReadFile path)
       ↔ located path ∧ readFileSync path = None)
  ∧ (∀ isCheck path text,
       run isCheck = Throwing.Thrown (Throwing.WriteFile path text)
       ↔ isCheck = false ∧ located path
         ∧ ∃ source ast,
             readFileSync path = Some source ∧ parse source = Some ast
             ∧ written (main_apply ast source) = Some text
             ∧ writeFileSync path text = false).
Proof.
  intros run status located. subst run status located. cbv beta.
  unfold Throwing.Slash.main. rewrite !slash_locate_unfold.
  destruct existsSync; cbn [negb].
  2:{ cbn [Throwing.Slash.passed_to_write Throwing.Slash.exit_status exit_code written]. split; [done|]. split; [right; auto|]. split; [right; auto 10|].
      split; [|split]; thrown_iff. }
  destruct readdirSync as [names|].
  2:{ cbn [Throwing.Slash.passed_to_write Throwing.Slash.exit_status exit_code written]. split; [done|]. split; [right; auto|]. split; [right; auto 10|].
      split; [|split]; thrown_iff. }
  destruct (locateBundle assetsDir true names path_join) as [code|bundlePath] eqn:Hloc.
  { assert (code = 1) as ->.
    { unfold locateBundle in Hloc. by repeat case_match; simplify_eq. }
    cbn [Throwing.Slash.passed_to_write Throwing.Slash.exit_status exit_code written]. split; [done|]. split; [right; auto|]. split; [right; auto 10|].
    split; [|split]; thrown_iff. }
  destruct (readFileSync bundlePath) as [source|] eqn:Hread.
  2:{ cbn [Throwing.Slash.passed_to_write Throwing.Slash.exit_status exit_code written]. split; [done|]. split; [right; eauto|]. split; [right; eauto 10|].
      split; [|split]; thrown_iff. }
  destruct (parse source) as [ast|] eqn:Hparse.
  2:{ cbn [Throwing.Slash.passed_to_write Throwing.Slash.exit_status exit_code written]. split; [done|]. split; [right; auto|]. split; [right; auto 10|].
      split; [|split]; thrown_iff. }
  assert (Hc : written (main_check ast source) = None
               ∧ exit_code (main_check ast source) = 0).
  { unfold main_check. by repeat case_match. }
  destruct Hc as [Hcw Hcs]. cbv zeta.
  assert (Ha : (main_apply ast source = mkOutcome 1 None StructuralDrift)
               ∨ (exit_code (main_apply ast source) = 0)).
  { unfold main_apply. cbv zeta. repeat case_match; auto. }
  cbn [Throwing.Slash.passed_to_write Throwing.Slash.exit_status].
  split; [done|]. split; [by left|]. split.
  - destruct (written (main_apply ast source)) as [text|] eqn:Hw.
    + destruct (writeFileSync bundlePath text).
      * destruct Ha as [Ha|Ha]; [by rewrite Ha in Hw|]. by left.
      * right. split; [done|]. eauto 10.
    + destruct Ha as [Ha|Ha]; [|by left]. right. split; [by rewrite Ha|].
      rewrite Ha. auto 10.
  - split; [|split]; intros [] path; intros;
      try (destruct (written (main_apply ast source)) as [text'|] eqn:Hw;
           [destruct (writeFileSync bundlePath text') eqn:Hwr|]);
      thrown_iff.
Qed.

(** ** The collector's bookkeeping *)

Lemma details_parallel_rule node source st rule :
  details_parallel st → details_parallel (collect_rule node source st rule).
Proof.
  unfold details_parallel, collect_rule. intros H.
  destruct (rule_match rule node source) as [r|]; [|done].
  case_bool_decide; [done|]. simpl. by rewrite fmap_app, H.
Qed.

Lemma details_parallel_nodes source nodes st :
  details_parallel st →
  details_parallel (fold_left (fun st n => collect_visitor source n st) nodes st).
Proof.
  revert st. induction nodes as [|n nodes IH]; intros st H; [done|].
  simpl. apply IH. unfold collect_visitor.
  generalize RULES. intros rules. revert st H.
  induction rules as [|rule rules IHr]; intros st H; [done|].
  simpl. by apply IHr, details_parallel_rule.
Qed.

(** X7.  The two lists [collectPatches] returns stay parallel: the i-th
    detail is the log entry of the i-th patch (its rule, its start offset,
    its original and replacement texts), so they have the same length. *)
Theorem details_mirror_patches (ast : value) (source : string) :
  estree_shape ast = true →
  snd (collectPatches ast source) = detail_of <$> fst (collectPatches ast source)
  ∧ length (snd (collectPatches ast source))
    = length (fst (collectPatches ast source)).
Proof.
  intros _.
  assert (H : snd (collectPatches ast source)
              = detail_of <$> fst (collectPatches ast source)).
  { unfold collectPatches; simpl. rewrite walk_fold.
    by apply (details_parallel_nodes source (walk_nodes ast) (mkCollect [] [] ∅)). }
  split; [exact H | by rewrite H, length_fmap].
Qed.

Lemma details_mirror_patches_witness :
  estree_shape Samples.nested_ast = true
  ∧ detail_position <$> snd (collectPatches Samples.nested_ast Samples.nested_src)
    = [6; 71].
Proof.
  split; [vm_compute; reflexivity|].
  destruct (details_mirror_patches Samples.nested_ast Samples.nested_src) as [H _];
    [vm_compute; reflexivity|].
  rewrite H. vm_compute. reflexivity.
Defined.

Lemma first_at_start_exists l p :
  p ∈ l → ∃ q, first_at_start l q ∧ patch_start q = patch_start p.
Proof.
  induction l as [|x l IH]; intros Hp; [by apply elem_of_nil in Hp|].
  destruct (decide (patch_start x = patch_start p)) as [Heq|Hne].
  - exists x. split; [|done]. exists [], l. split; [done|].
    intros q Hq. by apply elem_of_nil in Hq.
  - apply elem_of_cons in Hp as [->|Hp]; [done|].
    destruct (IH Hp) as (q & (l1 & l2 & -> & Hl1) & Hq).
    exists q. split; [|done]. exists (x :: l1), l2. split; [done|].
    intros r [->|Hr]%elem_of_cons; [congruence | by apply Hl1].
Qed.

(** X9.  The collector is sound and complete for the visited nodes.
    Every patch is the rule's match at some visited node that has the
    gate-declaration shape and whose initializer text lacks the guard
    substring; and for every such visited node there is a patch at its
    initializer's start offset. *)
Theorem collected_patches_are_the_gate_declarators (ast : value) (source : string) :
  estree_shape ast = true →
  (∀ p, p ∈ fst (collectPatches ast source) →
        ruleId p = "enable_slash_commands_in_electron"
        ∧ ∃ node, node ∈ walk_nodes ast
                  ∧ gate_declarator node = true
                  ∧ includes (init_text node source) "window.codexWindowType" = false
                  ∧ enable_slash_commands_match node source = Some (result p))
  ∧ (∀ node, node ∈ walk_nodes ast →
             gate_declarator node = true →
             includes (init_text node source) "window.codexWindowType" = false →
             ∃ p, p ∈ fst (collectPatches ast source)
                  ∧ patch_start p = offset (get (get node "init") "start")).
Proof.
  intros _. split.
  - intros p Hp.
    destruct (collected_anatomy ast source p Hp) as (_ & _ & Hid & node & Hn & Hm).
    split; [exact Hid|]. exists node. split; [exact Hn|].
    rewrite match_unfold in Hm.
    destruct (gate_declarator node) eqn:Hg; [|done].
    destruct (includes (init_text node source) GUARD) eqn:Hi; [done|].
    repeat split; try done. by rewrite match_unfold, Hg, Hi.
  - intros node Hn Hg Hi.
    set (r := {| start := offset (get (get node "init") "start");
                 end_ := offset (get (get node "init") "end");
                 replacement := wrap (init_text node source);
                 original := init_text node source |}).
    assert (Hin : mkPatch r "enable_slash_commands_in_electron"
                  ∈ all_matches ast source).
    { unfold all_matches. apply list_elem_of_In, in_flat_map.
      exists node. split; [by apply list_elem_of_In|].
      apply list_elem_of_In. unfold node_matches. simpl.
      rewrite match_unfold, Hg. fold GUARD in Hi. rewrite Hi. simpl. by left. }
    destruct (first_at_start_exists _ _ Hin) as (q & Hq & Hs).
    exists q. split; [|exact Hs].
    rewrite collectPatches_keep_first. apply keep_first_elem.
    split; [set_solver | exact Hq].
Qed.

Lemma collected_patches_are_the_gate_declarators_witness :
  estree_shape Samples.twice_ast = true
  ∧ ∃ p, p ∈ fst (collectPatches Samples.twice_ast Samples.member_src)
         ∧ patch_start p = 13.
Proof.
  split; [vm_compute; reflexivity|].
  destruct (collected_patches_are_the_gate_declarators
              Samples.twice_ast Samples.member_src) as [_ H];
    [vm_compute; reflexivity|].
  apply (H Samples.member_decl).
  - apply list_elem_of_In. vm_compute. tauto.
  - vm_compute; reflexivity.
  - vm_compute; reflexivity.
Defined.

(** ** The literal-occurrence count and the driver's first question *)

Lemma count_prefixes_zero needle s :
  needle ≠ "" → count_prefixes needle s = 0%nat ↔ includes s needle = false.
Proof.
  intros Hne. induction s as [|c s IH]; rewrite includes_unfold.
  - destruct needle; [done|]. simpl. tauto.
  - change (count_prefixes needle (String c s))
      with ((if String.prefix needle (String c s) then 1 else 0)
            + count_prefixes needle s)%nat.
    destruct (String.prefix needle (String c s)); simpl; [split; [lia|done]|].
    exact IH.
Qed.

(** X10.  [countAllOccurrences] is 0 exactly when the source does not
    include the gate name in double quotes, and never exceeds the length
    of the source; so apply mode closes with "no gate reference" exactly
    when it collected nothing and the quoted gate name is absent. *)
Theorem count_zero_iff_absent (ast : value) (source : string) :
  0 ≤ countAllOccurrences source
  ∧ countAllOccurrences source ≤ Z.of_nat (String.length source)
  ∧ (countAllOccurrences source = 0
     ↔ includes source (dquote +:+ GATE_NAME +:+ dquote) = false)
  ∧ (message (main_apply ast source) = NoGateReference
     ↔ fst (collectPatches ast source) = []
       ∧ includes source (dquote +:+ GATE_NAME +:+ dquote) = false).
Proof.
  assert (Hz : countAllOccurrences source = 0
               ↔ includes source (dquote +:+ GATE_NAME +:+ dquote) = false).
  { rewrite countAllOccurrences_spec, occurrences_count.
    rewrite <- (count_prefixes_zero gate_needle source gate_needle_nonempty).
    fold gate_needle. lia. }
  split; [rewrite countAllOccurrences_spec; lia|].
  split.
  { rewrite countAllOccurrences_spec. unfold occurrences.
    pose proof (length_filter (fun i => occurs_at gate_needle source i = true)
                  (seq 0 (String.length source))) as H.
    rewrite length_seq in H. lia. }
  split; [exact Hz|].
  rewrite <- Hz. unfold main_apply. cbv zeta.
  destruct (fst (collectPatches ast source)) as [|p ps] eqn:Hps.
  - simpl. destruct (Z.eqb_spec (countAllOccurrences source) 0) as [Hc|Hc].
    + simpl. tauto.
    + destruct (includes source ELECTRON_FORCE_EXPR); simpl;
        (split; [discriminate | by intros [_ ?]]).
  - destruct (Z.eqb_spec (Z.of_nat (length (p :: ps))) 0) as [H|_];
      [simpl in H; lia|].
    simpl. split; [discriminate | by intros [? _]].
Qed.

(** ** Locating the bundle *)

Lemma locateBundle_cases assetsDir existsSync readdirSync path_join :
  locateBundle assetsDir existsSync readdirSync path_join
  = match existsSync, filter (fun f => is_index_bundle f = true) readdirSync with
    | true, [f] => Return (path_join assetsDir f)
    | _, _ => Exit 1
    end.
Proof.
  unfold locateBundle. destruct existsSync; [|done]. cbv zeta.
  destruct (filter _ readdirSync) as [|f [|g rest]]; try done.
  set (n := length (f :: g :: rest)).
  assert (2 ≤ n)%nat by (subst n; simpl; lia).
  simpl negb. cbv iota.
  destruct (Z.eqb_spec (Z.of_nat n) 0); [lia|].
  destruct (Z.gtb_spec (Z.of_nat n) 1); [done|lia].
Qed.

(** X11.  [locateBundle] depends on the directory listing only through
    the names that match [index-*.js], not on their order: two listings
    with the same matching names, in any order and among any other files,
    give the same result. *)
Theorem locateBundle_ignores_order_and_other_files
    (assetsDir : string) (existsSync : bool) (listing1 listing2 : list string)
    (path_join : string → string → string) :
  filter (fun f => is_index_bundle f = true) listing1
  ≡ₚ filter (fun f => is_index_bundle f = true) listing2 →
  locateBundle assetsDir existsSync listing1 path_join
  = locateBundle assetsDir existsSync listing2 path_join.
Proof.
  intros Hperm. rewrite !locateBundle_cases. destruct existsSync; [|done].
  pose proof (Permutation_length Hperm) as Hlen.
  destruct (filter _ listing1) as [|f [|g fs]];
    destruct (filter _ listing2) as [|f' [|g' fs']]; try done.
  by apply Permutation_singleton_inj in Hperm as ->.
Qed.

Lemma locateBundle_ignores_order_and_other_files_witness :
  locateBundle "assets" true ["index-a1.js"; "index-a1.js.map"; "app.css"] String.append
  = locateBundle "assets" true ["logo.svg"; "index-a1.js"] String.append.
Proof.
  apply locateBundle_ignores_order_and_other_files. vm_compute. reflexivity.
Defined.

(** ** The walker at the edges *)

Lemma child_at_node_like v s c : child_at v s = Some c → is_node_like c = true.
Proof.
  destruct s as [k|k j]; simpl.
  - destruct (field_values v !! k) as [c'|]; simpl; [|done].
    destruct (is_node_like c') eqn:Hn; [|done]. by intros [= <-].
  - destruct (field_values v !! k) as [a|]; simpl; [|done].
    destruct (elements a !! j) as [c'|]; simpl; [|done].
    destruct (is_node_like c') eqn:Hn; [|done]. by intros [= <-].
Qed.

Lemma visited_below_tagged v :
  Forall (fun n => is_node_like n = true) (child_nodes (children v)).
Proof.
  induction v as [v IH] using children_ind.
  apply Forall_forall. intros n Hn. unfold child_nodes in Hn.
  apply list_elem_of_bind in Hn as ([s c] & Hn & Hsc). simpl in Hn.
  assert (Hc : is_node_like c = true).
  { apply elem_of_children in Hsc. by eapply child_at_node_like. }
  rewrite walk_nodes_eq, (child_walkable c Hc) in Hn.
  apply elem_of_cons in Hn as [->|Hn]; [exact Hc|].
  specialize (IH s c Hsc). rewrite Forall_forall in IH. by apply IH.
Qed.

(** X13.  On a root that is null, undefined or a primitive, [walk] never
    calls its visitor and leaves the state as it was.  On an object or
    array root the first call is on the root itself, and every later call
    is on a value that carries a string [type] tag. *)
Theorem walk_root_first_then_tagged (root : value) :
  (walkable root = true ↔ is_obj root = true ∨ ∃ items, root = VArr items)
  ∧ (∀ St (visitor : value → St → St) (s : St),
       walkable root = false → walk visitor root s = s)
  ∧ (walkable root = false → walk_nodes root = [])
  ∧ (walkable root = true →
     ∃ rest, walk_nodes root = root :: rest
             ∧ Forall (fun n => is_node_like n = true) rest).
Proof.
  split; [|split; [|split]].
  - destruct root; unfold walkable; simpl; rewrite ?andb_false_r;
      split; try done; try (intros [?|[? ?]]; done); eauto.
  - intros St visitor s. by destruct root.
  - intros H. by rewrite walk_nodes_eq, H.
  - intros H. rewrite walk_nodes_eq, H. eexists. split; [done|].
    apply visited_below_tagged.
Qed.

(** ** The context window of check mode *)

Lemma entries_in_step_rule source node rule c s :
  entries_in_step source c s →
  entries_in_step source (collect_rule node source c rule)
                         (scan_rule node source s rule).
Proof.
  intros [Hseen Hm]. unfold collect_rule, scan_rule.
  destruct (rule_match rule node source) as [r|]; [|by split].
  rewrite <- Hseen. case_bool_decide; [by split|].
  split; simpl; [by rewrite Hseen|]. by rewrite fmap_app, Hm.
Qed.

Lemma entries_in_step_nodes source nodes c s :
  entries_in_step source c s →
  entries_in_step source
    (fold_left (fun st n => collect_visitor source n st) nodes c)
    (fold_left (fun st n => scan_visitor source n st) nodes s).
Proof.
  revert c s. induction nodes as [|n nodes IH]; intros c s H; [done|].
  simpl. apply IH. unfold collect_visitor, scan_visitor.
  generalize RULES. intros rules. revert c s H.
  induction rules as [|rule rules IHr]; intros c s H; [done|].
  simpl. by apply IHr, entries_in_step_rule.
Qed.

Lemma take_add n m s : take (n + m) s = take n s +:+ take m (drop n s).
Proof.
  revert s. induction n as [|n IH]; intros s; simpl.
  - by rewrite ?take_0, ?drop_0.
  - destruct s as [|c s]; [by destruct m|]. by rewrite append_cons, IH.
Qed.

Lemma slice_split s a b c :
  0 ≤ a → a ≤ b → b ≤ c → c ≤ Z.of_nat (String.length s) →
  slice s a c = slice s a b +:+ slice s b c.
Proof.
  intros Ha Hab Hbc Hc. unfold slice.
  rewrite !clamp_index_in_range by lia.
  replace (Z.to_nat c - Z.to_nat a)%nat
    with ((Z.to_nat b - Z.to_nat a) + (Z.to_nat c - Z.to_nat b))%nat by lia.
  rewrite take_add, drop_drop. do 3 f_equal. lia.
Qed.

(** X8.  Check mode reports exactly the patches apply mode collects, each
    with [wouldPatch] set and a context cut from the source around it.
    For a match inside the source the context is the original text between
    what precedes it and what follows it in the source, up to 60 code
    units on either side (fewer only at the ends of the source). *)
Theorem scan_context_window (ast : value) (source : string) :
  estree_shape ast = true →
  scanMatches ast source = scan_entry source <$> fst (collectPatches ast source)
  ∧ Forall (fun m => wouldPatch m = true) (scanMatches ast source)
  ∧ ∀ p, p ∈ fst (collectPatches ast source) →
         in_bounds (Z.of_nat (String.length source)) p →
         ∃ before after,
           context (scan_entry source p)
           = before +:+ original (result p) +:+ after
           ∧ Z.of_nat (String.length before) = Z.min (start (result p)) 60
           ∧ Z.of_nat (String.length after)
             = Z.min (Z.of_nat (String.length source) - end_ (result p)) 60.
Proof.
  intros _.
  assert (H : scanMatches ast source
              = scan_entry source <$> fst (collectPatches ast source)).
  { unfold scanMatches, collectPatches; simpl. rewrite !walk_fold.
    apply (entries_in_step_nodes source (walk_nodes ast)
             (mkCollect [] [] ∅) (mkScan [] ∅)). by split. }
  split; [exact H|]. split.
  { rewrite H. apply Forall_fmap, Forall_forall. by intros p _. }
  intros p Hp (H0 & H1 & H2).
  destruct (collected_anatomy ast source p Hp) as (Ho & _).
  set (len := Z.of_nat (String.length source)) in *.
  set (a := Z.max 0 (start (result p) - CONTEXT_CHARS)).
  set (d := Z.min len (end_ (result p) + CONTEXT_CHARS)).
  unfold CONTEXT_CHARS in *.
  exists (slice source a (start (result p))), (slice source (end_ (result p)) d).
  split; [|split].
  - unfold scan_entry; simpl. fold len a d. unfold CONTEXT_CHARS. fold a d.
    rewrite Ho.
    rewrite (slice_split source a (start (result p)) d) by (subst a d len; lia).
    f_equal.
    apply (slice_split source (start (result p)) (end_ (result p)) d);
      subst a d len; lia.
  - rewrite length_slice by (subst a d len; lia). subst a. lia.
  - rewrite length_slice by (subst a d len; lia). subst d. lia.
Qed.

Lemma scan_context_window_witness :
  estree_shape Samples.member_ast = true
  ∧ context <$> scanMatches Samples.member_ast Samples.member_src
    = [Samples.member_src].
Proof.
  split; [vm_compute; reflexivity|].
  destruct (scan_context_window Samples.member_ast Samples.member_src) as [H _];
    [vm_compute; reflexivity|].
  rewrite H. vm_compute. reflexivity.
Defined.

(** * The claims about quoting, comments, placement and reruns *)

(** ** The literal's quotes *)

Lemma slice_middle a m b :
  slice (a +:+ m +:+ b) (Z.of_nat (String.length a))
        (Z.of_nat (String.length a) + Z.of_nat (String.length m)) = m.
Proof.
  unfold slice. rewrite !clamp_index_in_range by (rewrite !length_append; lia).
  rewrite Nat2Z.id, drop_append_length.
  replace (Z.to_nat (Z.of_nat (String.length a) + Z.of_nat (String.length m))
           - String.length a)%nat with (String.length m) by lia.
  apply take_append_length.
Qed.

Lemma literal_init_text raw :
  init_text (literal_decl raw) (literal_src raw) = literal_call raw.
Proof.
  unfold init_text, literal_src.
  change (offset (get (get (literal_decl raw) "init") "start")) with 13.
  change (offset (get (get (literal_decl raw) "init") "end"))
    with (Z.of_nat (29 + String.length raw)).
  replace (Z.of_nat (29 + String.length raw))
    with (Z.of_nat (String.length "const flag = ")
          + Z.of_nat (String.length (literal_call raw))).
  - apply (slice_middle "const flag = ").
  - unfold literal_call. rewrite !length_append. simpl String.length. lia.
Qed.

Lemma is_node_like_num n : is_node_like (VNum n) = false.
Proof. unfold is_node_like. simpl. apply andb_false_r. Qed.

Lemma is_node_like_str s : is_node_like (VStr s) = false.
Proof. unfold is_node_like. simpl. apply andb_false_r. Qed.

(** Unfolds the walk over a tree that is written out, also where an offset
    or a string in it is a variable. *)
Ltac walk_compute :=
  unfold walk_nodes; rewrite ?walk_obj, ?walk_arr;
  repeat (progress (cbn; rewrite ?is_node_like_num, ?is_node_like_str)).

Lemma node_matches_unfold source n :
  node_matches RULES source n
  = match enable_slash_commands_match n source with
    | Some r => [mkPatch r "enable_slash_commands_in_electron"]
    | None => []
    end.
Proof.
  unfold node_matches, RULES. cbn [omap list_omap rule_match id].
  by destruct (enable_slash_commands_match n source).
Qed.

Lemma no_gate_no_match source n :
  gate_declarator n = false → node_matches RULES source n = [].
Proof. intros Hn. unfold node_matches. simpl. by rewrite match_unfold, Hn. Qed.

Lemma flat_map_no_gate source l :
  Forall (fun n => gate_declarator n = false) l →
  flat_map (node_matches RULES source) l = [].
Proof.
  induction 1 as [|n l Hn _ IH]; [done|].
  cbn [flat_map]. by rewrite no_gate_no_match, IH.
Qed.

(** When one visited node only has the shape the rule tests, the matches
    of the run are those at that node. *)
Lemma all_matches_single ast source d l1 l2 :
  walk_nodes ast = l1 ++ d :: l2 →
  Forall (fun n => gate_declarator n = false) (l1 ++ l2) →
  all_matches ast source = node_matches RULES source d.
Proof.
  intros Hw [H1 H2]%Forall_app. unfold all_matches. rewrite Hw.
  rewrite flat_map_app. cbn [flat_map].
  by rewrite !flat_map_no_gate, app_nil_r by done.
Qed.

Lemma literal_ast_matches raw source :
  all_matches (literal_ast raw) source
  = node_matches RULES source (literal_decl raw).
Proof.
  eapply (all_matches_single _ _ _ [_; _] [_; _; _; _; _; _]).
  - unfold literal_ast, Program, VariableDeclaration, node. walk_compute.
    reflexivity.
  - repeat (apply List.Forall_cons; [vm_compute; reflexivity|]).
    apply List.Forall_nil.
Qed.

(** C10.  [countAllOccurrences] terminates and returns the number of
    indices at which the gate name in double quotes occurs.  The rule
    compares the literal's value and does not look at how it is written:
    for the declaration [const flag = R.useGateValue(<raw>);], whatever
    the token [raw], it returns a match for the initializer and one patch
    is collected.  Written with single quotes, the bundle has one patch
    and a count of 0: the number of structural matches exceeds the
    reported number of references. *)
Theorem count_sees_double_quotes_only :
  gate_needle = String "034" ("codex-extension-slash-commands" +:+ String "034" "")
  ∧ (∀ source,
       count_loop (String.length source + 2) source gate_needle (-1) 0
       = Some (countAllOccurrences source)
       ∧ countAllOccurrences source = Z.of_nat (occurrences gate_needle source))
  ∧ (∀ raw,
       includes (literal_call raw) GUARD = false →
       enable_slash_commands_match (literal_decl raw) (literal_src raw)
       = Some {| start := 13;
                 end_ := Z.of_nat (29 + String.length raw);
                 replacement := "(" +:+ literal_call raw +:+ "||"
                                +:+ ELECTRON_FORCE_EXPR +:+ ")";
                 original := literal_call raw |}
       ∧ length (fst (collectPatches (literal_ast raw) (literal_src raw))) = 1%nat)
  ∧ literal_src single_quoted
    = "const flag = R.useGateValue('codex-extension-slash-commands');"
  ∧ get (nth 0 (elements (get (get (literal_decl single_quoted) "init") "arguments"))
             VUndef) "raw"
    = VStr (slice (literal_src single_quoted) 28 60)
  ∧ includes (literal_src single_quoted) GATE_NAME = true
  ∧ countAllOccurrences (literal_src single_quoted) = 0
  ∧ countAllOccurrences (literal_src single_quoted)
    < Z.of_nat (length (fst (collectPatches (literal_ast single_quoted)
                                            (literal_src single_quoted))))
  ∧ countAllOccurrences (literal_src gate_needle) = 1.
Proof.
  assert (Hraw : ∀ raw,
            includes (literal_call raw) GUARD = false →
            enable_slash_commands_match (literal_decl raw) (literal_src raw)
            = Some {| start := 13;
                      end_ := Z.of_nat (29 + String.length raw);
                      replacement := "(" +:+ literal_call raw +:+ "||"
                                     +:+ ELECTRON_FORCE_EXPR +:+ ")";
                      original := literal_call raw |}
            ∧ length (fst (collectPatches (literal_ast raw) (literal_src raw)))
              = 1%nat).
  { intros raw Hguard.
    assert (Hm : enable_slash_commands_match (literal_decl raw) (literal_src raw)
                 = Some {| start := 13;
                           end_ := Z.of_nat (29 + String.length raw);
                           replacement := "(" +:+ literal_call raw +:+ "||"
                                          +:+ ELECTRON_FORCE_EXPR +:+ ")";
                           original := literal_call raw |}).
    { rewrite match_unfold.
      change (gate_declarator (literal_decl raw)) with true. cbv iota.
      rewrite literal_init_text, Hguard. reflexivity. }
    split; [exact Hm|].
    rewrite collectPatches_keep_first, literal_ast_matches.
    rewrite node_matches_unfold, Hm. cbn [keep_first].
    by rewrite bool_decide_eq_false_2 by set_solver. }
  split; [reflexivity|]. split.
  { intros source. rewrite countAllOccurrences_spec.
    split; [apply count_loop_terminates | reflexivity]. }
  split; [exact Hraw|].
  split; [reflexivity|]. split; [vm_compute; reflexivity|].
  split; [vm_compute; reflexivity|].
  assert (H0 : countAllOccurrences (literal_src single_quoted) = 0)
    by (vm_compute; reflexivity).
  split; [exact H0|]. split; [|vm_compute; reflexivity].
  destruct (Hraw single_quoted) as [_ ->]; [vm_compute; reflexivity|].
  rewrite H0. done.
Qed.

(** ** The gate name in a comment *)

Lemma node_at_snoc root p s n c :
  node_at root p = Some n → child_at n s = Some c →
  node_at root (p ++ [s]) = Some c.
Proof.
  revert root. induction p as [|s0 p IH]; intros root Hn Hc.
  - injection Hn as ->. simpl. by rewrite Hc.
  - simpl in *. destruct (child_at root s0) as [c0|]; [|done]. simpl in *.
    by apply IH.
Qed.

Lemma lookup_field_index k fields v :
  lookup_field k fields = v → v ≠ VUndef →
  ∃ i, (snd <$> fields) !! i = Some v.
Proof.
  induction fields as [|[k' v'] fields IH]; simpl; intros H Hv; [congruence|].
  destruct (String.eqb k k').
  - exists 0%nat. by subst.
  - destruct (IH H Hv) as [i Hi]. by exists (S i).
Qed.

Lemma get_index n key v :
  get n key = v → v ≠ VUndef → ∃ i, field_values n !! i = Some v.
Proof.
  destruct n as [| | | | | |fields]; simpl; try congruence.
  apply lookup_field_index.
Qed.

(** What the walker steps to from a visited node it visits too. *)
Lemma visited_step root n s c :
  n ∈ walk_nodes root → child_at n s = Some c → c ∈ walk_nodes root.
Proof.
  rewrite <- !walk_trace_nodes.
  intros ([p n'] & -> & Hin)%list_elem_of_fmap Hc. simpl in Hc.
  assert (Hw : walkable root = true).
  { rewrite walk_trace_eq in Hin.
    destruct (walkable root); [done | by apply elem_of_nil in Hin]. }
  apply walk_trace_node_at in Hin as Hat.
  apply list_elem_of_fmap. exists (p ++ [s], c). split; [done|].
  apply reachable_in_trace; [done|]. by eapply node_at_snoc.
Qed.

Lemma visited_field root n key c :
  n ∈ walk_nodes root → get n key = c → is_node_like c = true →
  c ∈ walk_nodes root.
Proof.
  intros Hn Hget Hc.
  destruct (get_index n key c Hget) as [i Hi].
  { intros ->. discriminate Hc. }
  apply (visited_step root n (Field i) c Hn). simpl. rewrite Hi. simpl.
  by rewrite Hc.
Qed.

Lemma visited_item root n key items j c :
  n ∈ walk_nodes root → get n key = VArr items → items !! j = Some c →
  is_node_like c = true → c ∈ walk_nodes root.
Proof.
  intros Hn Hget Hj Hc.
  destruct (get_index n key (VArr items) Hget) as [i Hi]; [done|].
  apply (visited_step root n (Item i j) c Hn). simpl. rewrite Hi. simpl.
  rewrite Hj. simpl. by rewrite Hc.
Qed.

Lemma strict_eq_str_node_like v t :
  strict_eq_str (get v "type") t = true → is_node_like v = true.
Proof.
  intros H. apply strict_eq_str_eq in H. unfold is_node_like. rewrite H.
  destruct v; try discriminate H. reflexivity.
Qed.

(** A visited declarator of the shape the rule tests has the gate literal
    among the visited nodes. *)
Lemma gate_declarator_literal root n :
  n ∈ walk_nodes root → gate_declarator n = true →
  ∃ lit, lit ∈ walk_nodes root ∧ is_gate_literal lit = true.
Proof.
  intros Hn Hg. unfold gate_declarator in Hg. cbv zeta in Hg.
  repeat (apply andb_prop in Hg as [Hg ?]).
  set (init := get n "init") in *.
  set (args := get init "arguments") in *.
  assert (Hinit : init ∈ walk_nodes root).
  { apply (visited_field root n "init"); [done..|].
    by eapply strict_eq_str_node_like. }
  destruct args as [| | | | |items|] eqn:Hargs; try discriminate.
  destruct items as [|arg0 items]; [discriminate|].
  exists arg0. split.
  - apply (visited_item root init "arguments" (arg0 :: items) 0 arg0); try done.
    by eapply strict_eq_str_node_like.
  - unfold is_gate_literal. by apply andb_true_intro.
Qed.

(** C6, amended.  For every text that holds the gate name in double quotes
    while the tree holds it in no literal (the name is in a comment only,
    and a comment leaves no node), whatever else the tree holds, there is
    no structural match, and the occurrence in the comment counts as a
    reference all the same: apply mode reports structural drift, writes
    nothing and exits 1, and check mode prints its note and exits 0, unless
    the text contains the marker expression, in which case both report the
    bundle as already enabled and exit 0. *)
Theorem comment_only_counts_as_reference (ast : value) (source : string) :
  (∀ node, node ∈ walk_nodes ast → is_gate_literal node = false) →
  0 < Z.of_nat (occurrences gate_needle source) →
  scanMatches ast source = []
  ∧ fst (collectPatches ast source) = []
  ∧ main_apply ast source
    = (if includes source ELECTRON_FORCE_EXPR
       then mkOutcome 0 None AlreadyEnabled
       else mkOutcome 1 None StructuralDrift)
  ∧ main_check ast source
    = (if includes source ELECTRON_FORCE_EXPR
       then mkOutcome 0 None AlreadyEnabled
       else mkOutcome 0 None NoPatchPosition).
Proof.
  intros Hlit Hocc.
  destruct (no_match_no_patch ast source) as [Hps Hscan].
  { intros n Hn. rewrite match_unfold.
    destruct (gate_declarator n) eqn:Hg; [|done].
    destruct (gate_declarator_literal ast n Hn Hg) as (lit & Hin & Hl).
    by rewrite (Hlit lit Hin) in Hl. }
  rewrite <- countAllOccurrences_spec in Hocc.
  split; [done|]. split; [done|]. split.
  - rewrite main_apply_no_patch by done.
    destruct (Z.eqb_spec (countAllOccurrences source) 0); [lia | done].
  - unfold main_check. rewrite Hscan. simpl.
    destruct (Z.eqb_spec (countAllOccurrences source) 0); [lia | done].
Qed.

Lemma comment_only_counts_as_reference_witness :
  0 < Z.of_nat (occurrences gate_needle commented_src)
  ∧ length (walk_nodes commented_ast) = 5%nat
  ∧ main_apply commented_ast commented_src = mkOutcome 1 None StructuralDrift
  ∧ main_check commented_ast commented_src = mkOutcome 0 None NoPatchPosition.
Proof.
  split; [vm_compute; reflexivity|].
  split; [vm_compute; reflexivity|].
  destruct (comment_only_counts_as_reference commented_ast commented_src)
    as (_ & _ & Ha & Hc).
  - intros node Hin. apply list_elem_of_In in Hin. vm_compute in Hin.
    repeat (destruct Hin as [<-|Hin]; [vm_compute; reflexivity|]).
    destruct Hin.
  - vm_compute; reflexivity.
  - split; [etrans; [exact Ha|] | etrans; [exact Hc|]]; vm_compute; reflexivity.
Defined.

(** ** The statement of the example *)

Lemma rebuild_split source c l1 p l2 :
  rebuild source c (l1 ++ p :: l2)
  = rebuild_upto source c l1 (start (result p))
    +:+ replacement (result p)
    +:+ rebuild source (end_ (result p)) l2.
Proof.
  revert c. induction l1 as [|q l1 IH]; intros c; [done|].
  simpl. by rewrite IH, !append_assoc.
Qed.

(** Stopping earlier, at an offset that no patch reaches. *)
Lemma rebuild_upto_extend source c l k limit :
  0 ≤ c → c ≤ k → k ≤ limit → limit ≤ Z.of_nat (String.length source) →
  Forall (fun q => 0 ≤ end_ (result q) ∧ end_ (result q) ≤ k) l →
  rebuild_upto source c l limit
  = rebuild_upto source c l k +:+ slice source k limit.
Proof.
  intros Hc Hck Hkl Hlim Hl. revert c Hc Hck.
  induction Hl as [|q l [H1 H2] _ IH]; intros c Hc Hck; simpl.
  - by apply slice_split.
  - by rewrite IH, !append_assoc.
Qed.

Lemma slice_from_split s c c' :
  0 ≤ c → c ≤ c' → c' ≤ Z.of_nat (String.length s) →
  slice_from s c = slice s c c' +:+ slice_from s c'.
Proof.
  intros. rewrite <- !slice_to_end. by apply slice_split.
Qed.

(** Starting later, at an offset before the first patch. *)
Lemma rebuild_from_later source c c' l :
  0 ≤ c → c ≤ c' → c' ≤ Z.of_nat (String.length source) →
  Forall (fun q => c' ≤ start (result q)
                   ∧ start (result q) ≤ Z.of_nat (String.length source)) l →
  rebuild source c l = slice source c c' +:+ rebuild source c' l.
Proof.
  intros Hc Hcc Hlen Hl. destruct l as [|q l]; simpl.
  - by apply slice_from_split.
  - apply Forall_cons in Hl as [[H1 H2] _].
    rewrite (slice_split source c c' (start (result q))) by lia.
    by rewrite !append_assoc.
Qed.

(** A piece of a text that stands between two others. *)
Lemma slice_inside a m b x y :
  0 ≤ x → x ≤ y → y ≤ Z.of_nat (String.length m) →
  slice (a +:+ m +:+ b) (Z.of_nat (String.length a) + x)
        (Z.of_nat (String.length a) + y)
  = slice m x y.
Proof.
  intros Hx Hxy Hy. unfold slice.
  rewrite !clamp_index_in_range by (rewrite ?length_append; lia).
  replace (Z.to_nat (Z.of_nat (String.length a) + x))
    with (String.length a + Z.to_nat x)%nat by lia.
  replace (Z.to_nat (Z.of_nat (String.length a) + y)
           - (String.length a + Z.to_nat x))%nat
    with (Z.to_nat y - Z.to_nat x)%nat by lia.
  rewrite <- drop_drop, drop_append_length.
  rewrite drop_append_le by lia.
  rewrite take_append_le; [done|]. rewrite length_drop. lia.
Qed.

Lemma slice_before a b : slice (a +:+ b) 0 (Z.of_nat (String.length a)) = a.
Proof.
  unfold slice. rewrite !clamp_index_in_range by (rewrite ?length_append; lia).
  rewrite drop_0, Nat2Z.id, Nat.sub_0_r. apply take_append_length.
Qed.

Lemma slice_from_after a b :
  slice_from (a +:+ b) (Z.of_nat (String.length a)) = b.
Proof.
  unfold slice_from. rewrite clamp_index_in_range.
  - by rewrite Nat2Z.id, drop_append_length.
  - rewrite length_append. lia.
Qed.

Lemma sort_ascending_elements_NoDup ps :
  NoDup (patch_start <$> ps) → NoDup (sort_ascending ps).
Proof.
  intros H. rewrite sort_ascending_perm. by apply NoDup_fmap_1 in H.
Qed.

(** C1, amended.  For every bundle that contains the statement
    [const flag = R.useGateValue("codex-extension-slash-commands");], with
    the accessor called as a member of an object, the rule returns a match
    for the statement's declarator, covering its initializer, and that
    patch is collected.  When the collected ranges lie inside the text, do
    not overlap, and none but the statement's own reaches into the
    statement, apply mode writes the bundle with the statement rewritten to
    [const flag = (R.useGateValue("codex-extension-slash-commands")||window.codexWindowType==="electron");]
    between what it makes of the text before and of the text after; when
    the statement's is the only patch, the text before and after is written
    back as it was. *)
Theorem member_call_is_patched (ast : value) (before after : string) :
  let source := before +:+ Samples.member_src +:+ after in
  let k := Z.of_nat (String.length before) in
  let ps := fst (collectPatches ast source) in
  statement_at k ∈ walk_nodes ast →
  Forall (in_bounds (Z.of_nat (String.length source))) ps →
  (∀ p q, p ∈ ps → q ∈ ps → p ≠ q → disjoint p q) →
  (∀ q, q ∈ ps → q = statement_patch k
                 ∨ end_ (result q) ≤ k ∨ k + 62 ≤ start (result q)) →
  enable_slash_commands_match (statement_at k) source
  = Some (result (statement_patch k))
  ∧ statement_patch k ∈ ps
  ∧ (∃ l1 l2,
       sort_ascending ps = l1 ++ statement_patch k :: l2
       ∧ Forall (fun q => end_ (result q) ≤ k) l1
       ∧ Forall (fun q => k + 62 ≤ start (result q)) l2
       ∧ main_apply ast source
         = mkOutcome 0
             (Some (rebuild_upto source 0 l1 k
                    +:+ Samples.member_patched
                    +:+ rebuild source (k + 62) l2))
             (Patched (length ps)))
  ∧ (ps = [statement_patch k] →
     main_apply ast source
     = mkOutcome 0 (Some (before +:+ Samples.member_patched +:+ after))
                 (Patched 1)).
Proof.
  intros source k ps Hin Hb Hd Ho.
  assert (Hlen : Z.of_nat (String.length source) = k + 62 + Z.of_nat (String.length after)).
  { subst source k. rewrite !length_append.
    change (String.length Samples.member_src) with 62%nat. lia. }
  assert (Hk : 0 ≤ k) by (subst k; lia).
  assert (Hpiece : ∀ x y, 0 ≤ x → x ≤ y → y ≤ 62 →
                          slice source (k + x) (k + y) = slice Samples.member_src x y).
  { intros x y Hx Hxy Hy.
    apply slice_inside;
      first [done | change (String.length Samples.member_src) with 62%nat; lia]. }
  (* the rule at the declarator *)
  assert (Hm : enable_slash_commands_match (statement_at k) source
               = Some (result (statement_patch k))).
  { rewrite match_unfold.
    change (gate_declarator (statement_at k)) with true. cbv iota.
    assert (Hi : init_text (statement_at k) source
                 = "R.useGateValue(" +:+ Samples.quoted_gate +:+ ")").
    { unfold init_text.
      change (offset (get (get (statement_at k) "init") "start")) with (k + 13).
      change (offset (get (get (statement_at k) "init") "end")) with (k + 61).
      rewrite Hpiece by lia. vm_compute. reflexivity. }
    rewrite Hi.
    replace (includes ("R.useGateValue(" +:+ Samples.quoted_gate +:+ ")") GUARD)
      with false by (vm_compute; reflexivity).
    reflexivity. }
  (* its patch is collected *)
  assert (Hp : statement_patch k ∈ ps).
  { assert (Hall : statement_patch k ∈ all_matches ast source).
    { unfold all_matches. apply list_elem_of_In, in_flat_map.
      exists (statement_at k). split; [by apply list_elem_of_In|].
      apply list_elem_of_In. rewrite node_matches_unfold, Hm. by left. }
    destruct (first_at_start_exists _ _ Hall) as (q & Hq & Hs).
    assert (Hqin : q ∈ ps).
    { subst ps. rewrite collectPatches_keep_first. apply keep_first_elem.
      split; [set_solver | exact Hq]. }
    rewrite Forall_forall in Hb. destruct (Hb q Hqin) as (? & ? & ?).
    unfold patch_start in Hs. simpl in Hs.
    destruct (Ho q Hqin) as [->|[?|?]]; [done|lia|lia]. }
  assert (Hnd : NoDup (patch_start <$> ps)).
  { subst ps. rewrite collectPatches_keep_first. apply keep_first_NoDup. }
  (* where it stands among the patches *)
  assert (Hsplit : ∃ l1 l2,
             sort_ascending ps = l1 ++ statement_patch k :: l2
             ∧ Forall (fun q => 0 ≤ start (result q)
                                ∧ start (result q) ≤ end_ (result q)
                                ∧ end_ (result q) ≤ k) l1
             ∧ Forall (fun q => k + 62 ≤ start (result q)
                                ∧ start (result q)
                                  ≤ Z.of_nat (String.length source)) l2).
  { assert (Hps : statement_patch k ∈ sort_ascending ps)
      by (by rewrite sort_ascending_perm).
    apply list_elem_of_split in Hps as (l1 & l2 & Hl).
    exists l1, l2. split; [exact Hl|].
    pose proof (sort_ascending_sorted ps) as Hs. rewrite Hl in Hs.
    pose proof (sort_ascending_elements_NoDup ps Hnd) as Hn. rewrite Hl in Hn.
    assert (Hmem : ∀ q, q ∈ l1 ++ statement_patch k :: l2 → q ∈ ps).
    { intros q Hq. by rewrite <- Hl, sort_ascending_perm in Hq. }
    rewrite Forall_forall in Hb.
    apply NoDup_app in Hn as (_ & Hn1 & Hn2). apply NoDup_cons in Hn2 as [Hn2 _].
    split; apply Forall_forall; intros q Hq.
    - assert (Hqps : q ∈ ps) by (apply Hmem, elem_of_app; by left).
      destruct (Hb q Hqps) as (? & ? & ?).
      assert (Hle : ascending q (statement_patch k)).
      { eapply StronglySorted_app_1_elem_of; [exact Hs|done|by left]. }
      unfold ascending, patch_start in Hle. simpl in Hle.
      destruct (Ho q Hqps) as [->|[?|?]]; [|lia|lia].
      exfalso. by apply (Hn1 (statement_patch k)); [|left].
    - assert (Hqps : q ∈ ps) by (apply Hmem, elem_of_app; right; by right).
      destruct (Hb q Hqps) as (? & ? & ?).
      apply StronglySorted_app_1_r, StronglySorted_inv in Hs as [_ Hle].
      rewrite Forall_forall in Hle. specialize (Hle q Hq).
      unfold ascending, patch_start in Hle. simpl in Hle.
      destruct (Ho q Hqps) as [->|[?|?]]; [done|lia|lia]. }
  destruct Hsplit as (l1 & l2 & Hl & H1 & H2).
  assert (Hne : (Z.of_nat (length ps) =? 0) = false).
  { apply Z.eqb_neq. destruct ps; [by apply elem_of_nil in Hp | simpl; lia]. }
  (* what is written *)
  assert (Hw : splice_all source (sort_patches ps)
               = rebuild_upto source 0 l1 k
                 +:+ Samples.member_patched
                 +:+ rebuild source (k + 62) l2).
  { rewrite sorted_splice_rebuild, Hl, rebuild_split by done.
    unfold statement_patch at 1 2 3. cbn [start end_ replacement result].
    rewrite (rebuild_upto_extend source 0 l1 k (k + 13)); try lia.
    - rewrite (rebuild_from_later source (k + 61) (k + 62) l2); [|lia..|done].
      rewrite (Hpiece 61 62) by lia.
      replace k with (k + 0) at 2 by lia. rewrite (Hpiece 0 13) by lia.
      rewrite !append_assoc. f_equal.
    - eapply Forall_impl; [exact H1|]. simpl. intros q ?. lia. }
  split; [exact Hm|]. split; [exact Hp|]. split.
  - exists l1, l2. split; [exact Hl|]. split; [|split].
    + eapply Forall_impl; [exact H1|]. simpl. tauto.
    + eapply Forall_impl; [exact H2|]. simpl. tauto.
    + unfold main_apply. fold ps. cbv zeta. by rewrite Hne, Hw.
  - intros Hone. unfold main_apply. fold ps. cbv zeta. rewrite Hne, Hw.
    rewrite Hone in Hl. change (sort_ascending [statement_patch k])
      with [statement_patch k] in Hl.
    destruct l1 as [|? [|? ?]]; try discriminate Hl.
    injection Hl as <-. simpl. rewrite Hone.
    subst source k. rewrite slice_before. do 3 f_equal.
    rewrite <- append_assoc.
    replace (Z.of_nat (String.length before) + 62)
      with (Z.of_nat (String.length (before +:+ Samples.member_src)))
      by (rewrite length_append;
          change (String.length Samples.member_src) with 62%nat; lia).
    by rewrite slice_from_after.
Qed.

Lemma member_call_is_patched_witness :
  enable_slash_commands_match (statement_at 55) two_gates_src
  = Some (result (statement_patch 55))
  ∧ statement_patch 55 ∈ fst (collectPatches two_gates_ast two_gates_src)
  ∧ main_apply two_gates_ast two_gates_src
    = mkOutcome 0 (Some two_gates_patched) (Patched 2).
Proof.
  destruct (member_call_is_patched two_gates_ast
              ("var u=Q.useGateValue(" +:+ Samples.quoted_gate +:+ ");") "")
    as (Hm & Hp & _ & _).
  - apply list_elem_of_In. vm_compute. tauto.
  - apply Forall_forall. intros q Hq. apply list_elem_of_In in Hq.
    vm_compute in Hq. destruct Hq as [<-|[<-|[]]]; vm_compute;
      intuition discriminate.
  - intros p q Hp Hq. apply list_elem_of_In in Hp, Hq.
    vm_compute in Hp, Hq.
    destruct Hp as [<-|[<-|[]]], Hq as [<-|[<-|[]]]; intros Hne; try done;
      vm_compute; intuition discriminate.
  - intros q Hq. apply list_elem_of_In in Hq. vm_compute in Hq.
    destruct Hq as [<-|[<-|[]]]; [right; left | left]; vm_compute;
      [discriminate | reflexivity].
  - split; [exact Hm|]. split; [exact Hp|]. vm_compute. reflexivity.
Defined.

(** ** Offsets in the written text *)

Lemma take_append_ge n s1 s2 :
  (String.length s1 ≤ n)%nat →
  take n (s1 +:+ s2) = s1 +:+ take (n - String.length s1) s2.
Proof.
  revert n. induction s1 as [|c s1 IH]; intros n Hn.
  - rewrite append_nil_l. cbn [String.length]. by rewrite Nat.sub_0_r.
  - destruct n as [|n]; [cbn in Hn; lia|].
    rewrite !append_cons. cbn [take String.length]. rewrite IH; [done|].
    cbn in Hn. lia.
Qed.

Lemma slice_app_l a x i j :
  0 ≤ i → i ≤ j → j ≤ Z.of_nat (String.length a) →
  slice (a +:+ x) i j = slice a i j.
Proof.
  intros Hi Hij Hj. unfold slice.
  rewrite !clamp_index_in_range by (rewrite ?length_append; lia).
  rewrite drop_append_le by lia.
  rewrite take_append_le; [done|]. rewrite length_drop. lia.
Qed.

Lemma clamp_index_nonneg len i :
  0 ≤ i → clamp_index len i = Nat.min (Z.to_nat i) len.
Proof.
  intros Hi. unfold clamp_index.
  destruct (i <? 0) eqn:E; [apply Z.ltb_lt in E; lia|]. lia.
Qed.

Lemma drop_beyond n s : (String.length s ≤ n)%nat → drop n s = "".
Proof.
  revert n. induction s as [|c s IH]; intros n Hn; [by destruct n|].
  destruct n as [|n]; [cbn in Hn; lia|]. cbn. apply IH. cbn in Hn. lia.
Qed.

Lemma slice_app_r x b i j :
  0 ≤ i → i ≤ j →
  slice (x +:+ b) (Z.of_nat (String.length x) + i)
        (Z.of_nat (String.length x) + j)
  = slice b i j.
Proof.
  intros Hi Hij. unfold slice. rewrite !clamp_index_nonneg by lia.
  rewrite length_append.
  replace (Nat.min (Z.to_nat (Z.of_nat (String.length x) + i))
                   (String.length x + String.length b))
    with (String.length x + Nat.min (Z.to_nat i) (String.length b))%nat by lia.
  replace (Nat.min (Z.to_nat (Z.of_nat (String.length x) + j))
                   (String.length x + String.length b)
           - (String.length x + Nat.min (Z.to_nat i) (String.length b)))%nat
    with (Nat.min (Z.to_nat j) (String.length b)
          - Nat.min (Z.to_nat i) (String.length b))%nat by lia.
  by rewrite <- drop_drop, drop_append_length.
Qed.

Lemma slice_slice source c s a b :
  0 ≤ c → c ≤ a → a ≤ b → b ≤ s → s ≤ Z.of_nat (String.length source) →
  slice (slice source c s) (a - c) (b - c) = slice source a b.
Proof.
  intros Hc Ha Hab Hb Hs.
  pose proof (length_slice source c s Hc ltac:(lia) Hs) as Hlen.
  unfold slice at 1. rewrite !clamp_index_in_range by lia.
  unfold slice. rewrite !clamp_index_in_range by lia.
  rewrite drop_take, take_take, drop_drop.
  replace (Z.to_nat c + Z.to_nat (a - c))%nat with (Z.to_nat a) by lia.
  f_equal. lia.
Qed.

Lemma slice_of_slice_from source c a b :
  0 ≤ c → c ≤ a → a ≤ b → b ≤ Z.of_nat (String.length source) →
  slice (slice_from source c) (a - c) (b - c) = slice source a b.
Proof.
  intros Hc Ha Hab Hb. rewrite <- slice_to_end.
  by apply slice_slice.
Qed.

Lemma includes_slice_middle a r b i j g :
  0 ≤ i → i ≤ Z.of_nat (String.length a) →
  Z.of_nat (String.length a) + Z.of_nat (String.length r) ≤ j →
  includes r g = true →
  includes (slice (a +:+ r +:+ b) i j) g = true.
Proof.
  intros Hi Hia Hj Hg. unfold slice. rewrite !clamp_index_nonneg by lia.
  rewrite !length_append.
  replace (Nat.min (Z.to_nat i)
             (String.length a + (String.length r + String.length b)))
    with (Z.to_nat i) by lia.
  rewrite drop_append_le by lia.
  rewrite take_append_ge by (rewrite length_drop; lia).
  rewrite take_append_ge by (rewrite length_drop; lia).
  by apply includes_append_r, includes_append_l.
Qed.

(** The number of patches that end at or before [x]. *)
Lemma moved_nil x : moved [] x = x.
Proof. unfold moved. cbn. lia. Qed.

Lemma moved_cons p l x :
  moved (p :: l) x
  = moved l x + (if bool_decide (end_ (result p) ≤ x) then 39 else 0).
Proof.
  unfold moved. rewrite filter_cons.
  destruct (decide (end_ (result p) ≤ x)) as [H|H].
  - rewrite bool_decide_eq_true_2 by done. cbn [length]. lia.
  - rewrite bool_decide_eq_false_2 by done. lia.
Qed.

Lemma moved_before l x :
  Forall (fun q => x < end_ (result q)) l → moved l x = x.
Proof.
  induction 1 as [|q l Hq _ IH]; [apply moved_nil|].
  rewrite moved_cons, IH, bool_decide_eq_false_2 by lia. lia.
Qed.

Lemma moved_ge l x : x ≤ moved l x.
Proof. unfold moved. lia. Qed.

Lemma moved_mono l a b : a ≤ b → moved l a ≤ moved l b.
Proof.
  intros Hab. induction l as [|p l IH]; [by rewrite !moved_nil|].
  rewrite !moved_cons.
  destruct (decide (end_ (result p) ≤ a)) as [H|H].
  - rewrite !bool_decide_eq_true_2 by lia. lia.
  - rewrite (bool_decide_eq_false_2 (end_ (result p) ≤ a)) by done.
    case_bool_decide; lia.
Qed.

Lemma moved_perm l1 l2 x : l1 ≡ₚ l2 → moved l1 x = moved l2 x.
Proof. intros H. unfold moved. by rewrite H. Qed.

(** A range that held the guard string holds it in the written text, at
    the offsets its ends moved to, when every patch lies inside the range
    or apart from it. *)
Lemma guard_survives source l : ∀ c a b,
  StronglySorted (fun p q => end_ (result p) ≤ start (result q)) l →
  Forall (fun p => c ≤ start (result p)
                   ∧ rule_patch (Z.of_nat (String.length source)) p
                   ∧ inside_or_apart a b p) l →
  0 ≤ c → c ≤ a → a ≤ b → b ≤ Z.of_nat (String.length source) →
  includes (slice source a b) GUARD = true →
  includes (slice (rebuild source c l) (moved l a - c) (moved l b - c)) GUARD
  = true.
Proof.
  induction l as [|p l IH]; intros c a b Hs Hl Hc Hca Hab Hb Hg.
  - rewrite !moved_nil. cbn [rebuild]. by rewrite slice_of_slice_from.
  - apply StronglySorted_inv in Hs as [Hs Hpl].
    apply Forall_cons in Hl as [(Hcp & (H0 & Hse & Hel & Hlen & Hgr) & Hio) Hl].
    assert (Hlater : Forall (fun q => end_ (result p) ≤ start (result q)
                                      ∧ start (result q) < end_ (result q)) l).
    { apply Forall_forall. intros q Hq. split.
      - by apply (proj1 (Forall_forall _ _) Hpl).
      - by apply (proj1 (Forall_forall _ _) Hl) in Hq as (_ & (_ & ? & _) & _). }
    pose proof (length_slice source c (start (result p)) Hc Hcp ltac:(lia)) as HA.
    cbn [rebuild]. rewrite !moved_cons.
    destruct Hio as [[Hin1 Hin2]|[Hbefore|Hafter]].
    + (* the patch lies inside the range *)
      rewrite (bool_decide_eq_false_2 (end_ (result p) ≤ a)) by lia.
      rewrite (bool_decide_eq_true_2 (end_ (result p) ≤ b)) by lia.
      rewrite (moved_before l a)
        by (eapply Forall_impl; [exact Hlater|]; cbn; lia).
      pose proof (moved_ge l b).
      apply includes_slice_middle; [lia|lia|lia|done].
    + (* the patch lies before the range *)
      rewrite !bool_decide_eq_true_2 by lia.
      rewrite <- append_assoc.
      replace (moved l a + 39 - c)
        with (Z.of_nat (String.length (slice source c (start (result p))
                                       +:+ replacement (result p)))
              + (moved l a - end_ (result p)))
        by (rewrite length_append; lia).
      replace (moved l b + 39 - c)
        with (Z.of_nat (String.length (slice source c (start (result p))
                                       +:+ replacement (result p)))
              + (moved l b - end_ (result p)))
        by (rewrite length_append; lia).
      rewrite slice_app_r.
      * apply IH; try done; try lia.
        apply Forall_forall. intros q Hq.
        pose proof (proj1 (Forall_forall _ _) Hl q Hq) as (_ & ? & ?).
        pose proof (proj1 (Forall_forall _ _) Hlater q Hq) as [? _].
        done.
      * pose proof (moved_ge l a). lia.
      * pose proof (moved_mono l a b Hab). lia.
    + (* the patch lies after the range *)
      rewrite !bool_decide_eq_false_2 by lia.
      rewrite !moved_before
        by (eapply Forall_impl; [exact Hlater|]; cbn; lia).
      rewrite !Z.add_0_r.
      rewrite slice_app_l by lia.
      by rewrite slice_slice by lia.
Qed.

(** The replacement of a patch stands in the written text where the start
    of its range moved to. *)
Lemma wrapped_at source l : ∀ c p,
  StronglySorted (fun p q => end_ (result p) ≤ start (result q)) l →
  Forall (fun q => c ≤ start (result q)
                   ∧ rule_patch (Z.of_nat (String.length source)) q) l →
  0 ≤ c → p ∈ l →
  slice (rebuild source c l) (moved l (start (result p)) - c)
        (moved l (start (result p)) - c
         + (end_ (result p) - start (result p) + 39))
  = replacement (result p).
Proof.
  induction l as [|q l IH]; intros c p Hs Hl Hc Hp; [by apply elem_of_nil in Hp|].
  apply StronglySorted_inv in Hs as [Hs Hql].
  apply Forall_cons in Hl as [(Hcq & H0 & Hse & Hel & Hlen & _) Hl].
  assert (Hlater : Forall (fun q' => end_ (result q) ≤ start (result q')
                                     ∧ start (result q') < end_ (result q')) l).
  { apply Forall_forall. intros q' Hq'. split.
    - by apply (proj1 (Forall_forall _ _) Hql).
    - by apply (proj1 (Forall_forall _ _) Hl) in Hq' as (_ & _ & ? & _). }
  pose proof (length_slice source c (start (result q)) Hc Hcq ltac:(lia)) as HA.
  cbn [rebuild]. rewrite moved_cons.
  apply elem_of_cons in Hp as [->|Hp].
  - rewrite bool_decide_eq_false_2 by lia.
    rewrite moved_before by (eapply Forall_impl; [exact Hlater|]; cbn; lia).
    rewrite Z.add_0_r, <- HA, <- Hlen. apply slice_middle.
  - destruct (proj1 (Forall_forall _ _) Hlater p Hp) as [Hqp Hpp].
    rewrite bool_decide_eq_true_2 by done.
    rewrite <- append_assoc.
    pose proof (moved_ge l (start (result p))).
    replace (moved l (start (result p)) + 39 - c)
      with (Z.of_nat (String.length (slice source c (start (result q))
                                     +:+ replacement (result q)))
            + (moved l (start (result p)) - end_ (result q)))
      by (rewrite length_append; lia).
    rewrite <- Z.add_assoc, slice_app_r by lia.
    apply IH; try done; try lia.
    apply Forall_forall. intros q' Hq'.
    pose proof (proj1 (Forall_forall _ _) Hl q' Hq') as (_ & ?).
    pose proof (proj1 (Forall_forall _ _) Hlater q' Hq') as [? _].
    done.
Qed.

(** ** A rebuilt tree and its walk *)

Lemma elem_walk_nodes v n :
  n ∈ walk_nodes v
  ↔ walkable v = true
    ∧ (n = v ∨ ∃ s c, (s, c) ∈ children v ∧ n ∈ walk_nodes c).
Proof.
  rewrite walk_nodes_eq. destruct (walkable v).
  - rewrite elem_of_cons. unfold child_nodes. rewrite list_elem_of_bind. split.
    + intros [->|([s c] & Hn & Hc)]; (split; [done|]); [by left|].
      right. by exists s, c.
    + intros [_ [->|(s & c & Hc & Hn)]]; [by left|].
      right. by exists (s, c).
  - split; [by intros ?%elem_of_nil|]. by intros [? _].
Qed.

Lemma walk_nodes_self v : walkable v = true → v ∈ walk_nodes v.
Proof. intros H. apply elem_walk_nodes. split; [done|]. by left. Qed.

Lemma walk_nodes_child v s c n :
  walkable v = true → (s, c) ∈ children v →
  n ∈ walk_nodes c → n ∈ walk_nodes v.
Proof.
  intros Hw Hc Hn. apply elem_walk_nodes. split; [done|].
  right. by exists s, c.
Qed.

Lemma node_like_walkable c : is_node_like c = true → walkable c = true.
Proof.
  unfold is_node_like, walkable.
  destruct c as [| | | | | |]; try done; cbn; rewrite ?andb_false_r; done.
Qed.

(** The children of a node: the values of its fields, or the elements of
    an array held by a field, that carry a string [type]. *)
Lemma children_values v s c :
  (s, c) ∈ children v →
  is_node_like c = true
  ∧ ∃ x, x ∈ field_values v ∧ (c = x ∨ c ∈ elements x).
Proof.
  rewrite elem_of_children. destruct s as [k|k j]; simpl.
  - destruct (field_values v !! k) as [x|] eqn:Hk; simpl; [|done].
    destruct (is_node_like x) eqn:Hn; [|done]. intros [= <-].
    split; [done|]. exists x. split; [by eapply list_elem_of_lookup_2|by left].
  - destruct (field_values v !! k) as [x|] eqn:Hk; simpl; [|done].
    destruct (elements x !! j) as [c'|] eqn:Hj; simpl; [|done].
    destruct (is_node_like c') eqn:Hn; [|done]. intros [= <-].
    split; [done|]. exists x. split; [by eapply list_elem_of_lookup_2|].
    right. by eapply list_elem_of_lookup_2.
Qed.

Lemma values_children v x c :
  x ∈ field_values v → is_node_like c = true → c = x ∨ c ∈ elements x →
  ∃ s, (s, c) ∈ children v.
Proof.
  intros [k Hk]%list_elem_of_lookup_1 Hn [->|[j Hj]%list_elem_of_lookup_1].
  - exists (Field k). apply elem_of_children. simpl. by rewrite Hk; simpl; rewrite Hn.
  - exists (Item k j). apply elem_of_children. simpl.
    by rewrite Hk; simpl; rewrite Hj; simpl; rewrite Hn.
Qed.

Lemma lookup_field_map (g : string → value → value) k fields :
  k ∈ fields.*1 ∨ g k VUndef = VUndef →
  lookup_field k (map (fun kv => (fst kv, g (fst kv) (snd kv))) fields)
  = g k (lookup_field k fields).
Proof.
  induction fields as [|[k' x] fields IH]; intros H.
  - destruct H as [H|H]; [by apply elem_of_nil in H|]. cbn. by rewrite H.
  - cbn [map lookup_field fst snd]. destruct (String.eqb_spec k k') as [->|Hk]; [done|].
    apply IH. destruct H as [H|H]; [|by right].
    left. rewrite fmap_cons in H. apply elem_of_cons in H as [H|H]; [done|done].
Qed.

Lemma lookup_field_present k fields :
  lookup_field k fields ≠ VUndef → k ∈ fields.*1.
Proof.
  induction fields as [|[k' x] fields IH]; [done|].
  cbn [lookup_field]. rewrite fmap_cons. cbn [fst].
  destruct (String.eqb_spec k k') as [->|Hk]; [intros _; by left|].
  intros H. right. by apply IH.
Qed.

Lemma lookup_field_elem k x fields :
  NoDup fields.*1 → (k, x) ∈ fields → lookup_field k fields = x.
Proof.
  induction fields as [|[k' x'] fields IH]; intros Hn Hin.
  - by apply elem_of_nil in Hin.
  - rewrite fmap_cons in Hn. apply NoDup_cons in Hn as [Hk' Hn].
    cbn [lookup_field]. apply elem_of_cons in Hin as [[= -> ->]|Hin].
    + by rewrite String.eqb_refl.
    + destruct (String.eqb_spec k k') as [->|Hk]; [|by apply IH].
      exfalso. apply Hk'. cbn [fst]. apply list_elem_of_fmap. by exists (k', x).
Qed.

Section MapTree.
Variable h : value → string → value → value → value.

Lemma map_tree_truthy v : truthy (map_tree h v) = truthy v.
Proof. by destruct v. Qed.

Lemma map_tree_strict_eq v s : strict_eq_str (map_tree h v) s = strict_eq_str v s.
Proof. by destruct v. Qed.

Lemma map_tree_typeof_string v :
  typeof_string (map_tree h v) = typeof_string v.
Proof. by destruct v. Qed.

Lemma map_tree_typeof_object v :
  typeof_object (map_tree h v) = typeof_object v.
Proof. by destruct v. Qed.

Lemma map_tree_walkable v : walkable (map_tree h v) = walkable v.
Proof. unfold walkable. by rewrite map_tree_truthy, map_tree_typeof_object. Qed.

Lemma map_tree_elements v :
  elements (map_tree h v) = map_tree h <$> elements v.
Proof. by destruct v. Qed.

Lemma map_tree_offset v :
  (∀ n, v ≠ VNum n) → offset (map_tree h v) = 0 ∧ offset v = 0.
Proof. destruct v; try done. intros H. by destruct (H n). Qed.

Lemma map_tree_field_values v :
  field_values (map_tree h v)
  = match v with
    | VObj fields =>
        (fun kv => h v (fst kv) (snd kv) (map_tree h (snd kv))) <$> fields
    | VArr items => map_tree h <$> items
    | _ => []
    end.
Proof.
  destruct v as [| | | | |items|fields]; try done.
  cbn [map_tree field_values]. by rewrite <- list_fmap_compose.
Qed.

(** A field that [h] leaves as rebuilt is read off the rebuilt tree as it
    is off the tree. *)
Lemma get_map_tree v k :
  (∀ x x', h v k x x' = x') →
  get (map_tree h v) k = map_tree h (get v k).
Proof.
  intros Hk. destruct v as [| | | | |items|fields]; try done.
  cbn [map_tree get].
  rewrite (lookup_field_map (fun k x => h (VObj fields) k x (map_tree h x))).
  - apply Hk.
  - right. by rewrite Hk.
Qed.

Hypothesis h_type : ∀ parent x x', h parent "type" x x' = x'.

Lemma map_tree_node_like v : is_node_like (map_tree h v) = is_node_like v.
Proof.
  unfold is_node_like.
  by rewrite map_tree_truthy, get_map_tree, map_tree_typeof_string.
Qed.

(** The walk over a rebuilt tree.  Where [h] leaves a field as rebuilt the
    walk goes on in the rebuilt child; what it does elsewhere is left to
    the caller. *)
Variable good : value → Prop.
Variable ok : value → Prop.
Hypothesis ok_here : ∀ v, good v → ok (map_tree h v).
Hypothesis h_cases : ∀ fields k x,
  good (VObj fields) → (k, x) ∈ fields →
  let x' := h (VObj fields) k x (map_tree h x) in
  x' = map_tree h x
  ∨ ∀ c n, is_node_like c = true → c = x' ∨ c ∈ elements x' →
           n ∈ walk_nodes c → ok n.

Lemma map_tree_walk v :
  (∀ n, n ∈ walk_nodes v → good n) →
  ∀ n, n ∈ walk_nodes (map_tree h v) → ok n.
Proof.
  induction v as [v IH] using children_ind. intros Hgood n Hn.
  apply elem_walk_nodes in Hn as [Hw [->|(s & c' & Hc & Hn)]].
  { apply ok_here, Hgood, walk_nodes_self. by rewrite <- map_tree_walkable. }
  rewrite map_tree_walkable in Hw.
  apply children_values in Hc as (Hlike & x' & Hx & Hcx).
  rewrite map_tree_field_values in Hx.
  assert (Hrebuilt : ∀ x, x ∈ field_values v →
            c' = map_tree h x ∨ c' ∈ elements (map_tree h x) → ok n).
  { intros x Hxv Hcase.
    assert (∃ c, c' = map_tree h c ∧ (c = x ∨ c ∈ elements x)) as (c & -> & Hcc).
    { destruct Hcase as [->|Hin]; [by exists x; auto|].
      rewrite map_tree_elements in Hin.
      apply list_elem_of_fmap in Hin as (c & -> & Hin). exists c. auto. }
    rewrite map_tree_node_like in Hlike.
    destruct (values_children v x c Hxv Hlike Hcc) as [s0 Hs0].
    apply (IH s0 c Hs0); [|done].
    intros m Hm. apply Hgood. by eapply walk_nodes_child. }
  destruct v as [| | | | |items|fields]; try by apply elem_of_nil in Hx.
  - apply list_elem_of_fmap in Hx as (x & -> & Hx). by apply (Hrebuilt x).
  - apply list_elem_of_fmap in Hx as ([k x] & -> & Hx). cbn [fst snd] in Hcx.
    assert (Hg : good (VObj fields)) by (by apply Hgood, walk_nodes_self).
    destruct (h_cases fields k x Hg Hx) as [Heq|Hspecial].
    + rewrite Heq in Hcx. apply (Hrebuilt x); [|done].
      cbn [field_values]. apply list_elem_of_fmap. by exists (k, x).
    + by apply (Hspecial c' n).
Qed.
End MapTree.

(** ** The rule on a rebuilt tree *)

Lemma not_declarator n :
  strict_eq_str (get n "type") "VariableDeclarator" = false →
  gate_declarator n = false.
Proof. unfold gate_declarator. cbv zeta. by intros ->. Qed.

Lemma not_call_initializer n :
  strict_eq_str (get (get n "init") "type") "CallExpression" = false →
  gate_declarator n = false.
Proof.
  unfold gate_declarator. cbv zeta. intros ->. by rewrite andb_false_r.
Qed.

Lemma gate_declarator_call n :
  gate_declarator n = true →
  get (get n "init") "type" = VStr "CallExpression"
  ∧ get n "init" ≠ VUndef.
Proof.
  unfold gate_declarator. cbv zeta. intros H.
  do 7 (apply andb_prop in H as [H _]).
  apply andb_prop in H as [H Hc]. apply andb_prop in H as [_ Ht].
  split; [by apply strict_eq_str_eq|]. by destruct (get n "init").
Qed.

Section RuleOnMapTree.
Variable h : value → string → value → value → value.
Hypothesis h_keys : ∀ parent k x x',
  k ≠ "init" → k ≠ "start" → k ≠ "end" → h parent k x x' = x'.

Lemma map_tree_getPropertyName c :
  getPropertyName (map_tree h c) = map_tree h (getPropertyName c).
Proof.
  unfold getPropertyName.
  rewrite !(get_map_tree h c "property") by (intros; by apply h_keys).
  rewrite !(get_map_tree h c "computed") by (intros; by apply h_keys).
  rewrite !(get_map_tree h _ "type") by (intros; by apply h_keys).
  rewrite !(get_map_tree h _ "name") by (intros; by apply h_keys).
  rewrite !(get_map_tree h _ "value") by (intros; by apply h_keys).
  rewrite !map_tree_truthy, !map_tree_strict_eq.
  by repeat case_match.
Qed.

Lemma map_tree_gate_declarator v :
  (∀ x x', h v "init" x x' = x') →
  gate_declarator (map_tree h v) = gate_declarator v.
Proof.
  intros Hinit. unfold gate_declarator. cbv zeta.
  rewrite !(get_map_tree h v "init") by done.
  rewrite !(get_map_tree h v "type") by (intros; by apply h_keys).
  rewrite !(get_map_tree h _ "callee") by (intros; by apply h_keys).
  rewrite !(get_map_tree h _ "arguments") by (intros; by apply h_keys).
  rewrite !(get_map_tree h _ "type") by (intros; by apply h_keys).
  rewrite map_tree_getPropertyName.
  rewrite !map_tree_elements, length_fmap.
  change VUndef with (map_tree h VUndef) at 1 2.
  rewrite !(map_nth (map_tree h)).
  rewrite !(get_map_tree h _ "type") by (intros; by apply h_keys).
  rewrite !(get_map_tree h _ "value") by (intros; by apply h_keys).
  by rewrite !map_tree_truthy, !map_tree_strict_eq.
Qed.
End RuleOnMapTree.

Lemma offset_field_keys f k x x' :
  k ≠ "start" → k ≠ "end" → offset_field f k x x' = x'.
Proof.
  intros H1 H2. unfold offset_field.
  apply String.eqb_neq in H1, H2. by rewrite H1, H2.
Qed.

Lemma offset_field_cases f k x x' :
  offset_field f k x x' = x' ∨ ∃ n, offset_field f k x x' = VNum n.
Proof.
  unfold offset_field. destruct (_ || _); [|by left].
  destruct x; eauto.
Qed.

Lemma patched_field_keys ps source parent k x x' :
  k ≠ "init" → k ≠ "start" → k ≠ "end" →
  patched_field ps source parent k x x' = x'.
Proof.
  intros H0 H1 H2. unfold patched_field.
  apply String.eqb_neq in H0 as H0'. rewrite H0'.
  rewrite offset_field_keys by done. by destruct (enable_slash_commands_match _ _).
Qed.

Lemma patched_field_unmatched ps source parent k x x' :
  enable_slash_commands_match parent source = None →
  patched_field ps source parent k x x' = offset_field (moved ps) k x x'.
Proof. intros H. unfold patched_field. by rewrite H. Qed.

(** Moving the offsets of a tree makes no node a gate declaration. *)
Lemma reposition_walk f v :
  (∀ n, n ∈ walk_nodes v → gate_declarator n = false) →
  ∀ n, n ∈ walk_nodes (reposition f v) → gate_declarator n = false.
Proof.
  unfold reposition.
  apply (map_tree_walk (fun _ => offset_field f)
           ltac:(intros; by apply offset_field_keys)
           (fun n => gate_declarator n = false)
           (fun n => gate_declarator n = false)).
  - intros n Hn. rewrite map_tree_gate_declarator; [done| |].
    + intros. by apply offset_field_keys.
    + intros. by apply offset_field_keys.
  - intros fields k x _ _. cbv zeta.
    destruct (offset_field_cases f k x (map_tree (fun _ => offset_field f) x))
      as [H|[m H]]; [by left|].
    right. rewrite H. intros c n Hlike [->|Hc]; [by rewrite is_node_like_num in Hlike|].
    by apply elem_of_nil in Hc.
Qed.

Lemma electron_test_walk z n :
  n ∈ walk_nodes (Samples.electron_test z) → gate_declarator n = false.
Proof.
  unfold Samples.electron_test, BinaryExpression, MemberExpression, Identifier,
    Literal, node.
  walk_compute. intros Hin.
  repeat (apply elem_of_cons in Hin as [->|Hin]; [reflexivity|]).
  by apply elem_of_nil in Hin.
Qed.

(** Neither is any node of a wrapped initializer. *)
Lemma guarded_walk ps r init n :
  (∀ m, m ∈ walk_nodes init → gate_declarator m = false) →
  n ∈ walk_nodes (guarded ps r init) → gate_declarator n = false.
Proof.
  intros Hinit Hn.
  apply elem_walk_nodes in Hn as [_ [->|(s & c & Hc & Hn)]]; [reflexivity|].
  apply children_values in Hc as (Hlike & x & Hx & Hcx).
  unfold guarded, LogicalExpression, node in Hx. cbv zeta in Hx.
  cbn [field_values fmap list_fmap snd] in Hx.
  repeat (apply elem_of_cons in Hx as [->|Hx]).
  - destruct Hcx as [->|Hcx]; [by rewrite is_node_like_str in Hlike|].
    by apply elem_of_nil in Hcx.
  - destruct Hcx as [->|Hcx]; [by rewrite is_node_like_num in Hlike|].
    by apply elem_of_nil in Hcx.
  - destruct Hcx as [->|Hcx]; [by rewrite is_node_like_num in Hlike|].
    by apply elem_of_nil in Hcx.
  - destruct Hcx as [->|Hcx].
    + by eapply reposition_walk.
    + unfold reposition in Hcx. rewrite map_tree_elements in Hcx.
      apply list_elem_of_fmap in Hcx as (c0 & -> & Hc0).
      rewrite map_tree_node_like in Hlike
        by (intros; by apply offset_field_keys).
      eapply reposition_walk; [|exact Hn].
      intros m Hm. apply Hinit.
      destruct init as [| | | | |items|fields];
        try by apply elem_of_nil in Hc0.
      destruct (values_children (VArr items) c0 c0) as [s0 Hs0];
        [done|done|by left|].
      by apply (walk_nodes_child _ s0 c0).
  - destruct Hcx as [->|Hcx]; [by rewrite is_node_like_str in Hlike|].
    by apply elem_of_nil in Hcx.
  - destruct Hcx as [->|Hcx]; [by eapply electron_test_walk|].
    by apply elem_of_nil in Hcx.
  - by apply elem_of_nil in Hx.
Qed.

(** ** The second run *)

Lemma map_fst_fmap (fields : list (string * value)) :
  map fst fields = fields.*1.
Proof. induction fields as [|kv fields IH]; [done|]. cbn. by rewrite IH. Qed.

Lemma estree_shape_keys fields :
  estree_shape (VObj fields) = true → NoDup fields.*1.
Proof.
  cbn [estree_shape]. intros H.
  do 3 (apply andb_prop in H as [H _]).
  apply bool_decide_eq_true in H. by rewrite <- map_fst_fmap.
Qed.

Lemma estree_shape_value v x :
  estree_shape v = true → x ∈ field_values v → estree_shape x = true.
Proof.
  destruct v as [| | | | |items|fields]; try by intros _ ?%elem_of_nil.
  - cbn [estree_shape field_values]. intros H Hx.
    rewrite forallb_forall in H. by apply H, list_elem_of_In.
  - cbn [estree_shape field_values]. intros H Hx.
    apply andb_prop in H as [_ H]. rewrite forallb_forall in H.
    apply list_elem_of_fmap in Hx as (kv & -> & Hkv).
    by apply H, list_elem_of_In.
Qed.

Lemma estree_shape_nodes v n :
  estree_shape v = true → n ∈ walk_nodes v → estree_shape n = true.
Proof.
  revert n. induction v as [v IH] using children_ind. intros n Hv Hn.
  apply elem_walk_nodes in Hn as [_ [->|(s & c & Hc & Hn)]]; [done|].
  apply (IH s c Hc); [|done].
  apply children_values in Hc as (_ & x & Hx & [->|Hcx]).
  - by apply (estree_shape_value v).
  - apply (estree_shape_value x); [by apply (estree_shape_value v)|].
    destruct x; try done; by apply elem_of_nil in Hcx.
Qed.

Lemma StronglySorted_strengthen {A} (R R' : relation A) l :
  StronglySorted R l → NoDup l →
  (∀ p q, p ∈ l → q ∈ l → p ≠ q → R p q → R' p q) →
  StronglySorted R' l.
Proof.
  induction 1 as [|p l Hs IH Hp]; intros Hn HR; [constructor|].
  apply NoDup_cons in Hn as [Hpl Hn]. constructor.
  - apply IH; [done|]. intros q1 q2 H1 H2. apply HR; by right.
  - apply Forall_forall. intros q Hq. apply HR; [by left|by right| |].
    + intros ->. done.
    + by apply (proj1 (Forall_forall _ _) Hp).
Qed.

Section Rerun.
Variable ast : value.
Variable source : string.
#[local] Abbreviation ps := (fst (collectPatches ast source)).
#[local] Abbreviation code := (splice_all source (sort_patches ps)).
#[local] Abbreviation len := (Z.of_nat (String.length source)).

Hypothesis ranges :
  Forall (fun p => in_bounds len p ∧ start (result p) < end_ (result p)) ps.
Hypothesis apart : ∀ p q, p ∈ ps → q ∈ ps → p ≠ q → disjoint p q.

Lemma collected_rule_patch p : p ∈ ps → rule_patch len p.
Proof.
  intros Hp.
  destruct (proj1 (Forall_forall _ _) ranges p Hp) as [(H0 & _ & He) Hlt].
  destruct (collected_anatomy ast source p Hp) as (Ho & Hr & _).
  split; [done|]. split; [done|]. split; [done|]. split.
  - rewrite Hr, length_wrap, Ho, Nat2Z.inj_add, length_slice by lia. lia.
  - rewrite Hr. apply wrap_includes_guard.
Qed.

Lemma moved_origin : moved ps 0 = 0.
Proof.
  apply moved_before, Forall_forall. intros q Hq.
  destruct (collected_rule_patch q Hq) as (? & ? & _). lia.
Qed.

Lemma written_is_rebuilt :
  code = rebuild source 0 (sort_ascending ps).
Proof.
  apply sorted_splice_rebuild; [| |done].
  - eapply Forall_impl; [exact ranges|]. cbn. by intros ? [? _].
  - rewrite collectPatches_keep_first. apply keep_first_NoDup.
Qed.

Lemma sorted_apart :
  StronglySorted (fun p q => end_ (result p) ≤ start (result q))
                 (sort_ascending ps).
Proof.
  eapply StronglySorted_strengthen.
  - apply sort_ascending_sorted.
  - apply sort_ascending_elements_NoDup.
    rewrite collectPatches_keep_first. apply keep_first_NoDup.
  - intros p q Hp Hq Hpq Hasc. rewrite sort_ascending_perm in Hp, Hq.
    destruct (collected_rule_patch p Hp) as (? & ? & _).
    destruct (collected_rule_patch q Hq) as (? & ? & _).
    unfold ascending, patch_start in Hasc.
    destruct (apart p q Hp Hq Hpq) as [?|?]; lia.
Qed.

(** A range of the source that holds the guard string holds it in the
    written text. *)
Lemma written_text_guard a b :
  0 ≤ a → a ≤ b → b ≤ len →
  Forall (inside_or_apart a b) ps →
  includes (slice source a b) GUARD = true →
  includes (slice code (moved ps a) (moved ps b)) GUARD = true.
Proof.
  intros Ha Hab Hb Hio Hg. rewrite written_is_rebuilt.
  rewrite <- !(moved_perm _ _ _ (sort_ascending_perm ps)).
  rewrite <- (Z.sub_0_r (moved _ a)), <- (Z.sub_0_r (moved _ b)).
  apply guard_survives; try done; [apply sorted_apart|].
  apply Forall_forall. intros p Hp. rewrite sort_ascending_perm in Hp.
  pose proof (collected_rule_patch p Hp) as Hrp.
  split; [by destruct Hrp|]. split; [done|].
  by apply (proj1 (Forall_forall _ _) Hio).
Qed.

(** The wrapped initializer of a patch stands in the written text where
    the start of its range moved to. *)
Lemma written_text_wrapped p :
  p ∈ ps →
  slice code (moved ps (start (result p)))
        (moved ps (start (result p))
         + (end_ (result p) - start (result p) + 39))
  = wrap (slice source (start (result p)) (end_ (result p))).
Proof.
  intros Hp. rewrite written_is_rebuilt.
  rewrite <- !(moved_perm _ _ _ (sort_ascending_perm ps)).
  destruct (collected_anatomy ast source p Hp) as (Ho & Hr & _).
  rewrite <- Ho, <- Hr.
  rewrite <- (Z.sub_0_r (moved _ (start (result p)))).
  apply wrapped_at; [apply sorted_apart| |done|by rewrite sort_ascending_perm].
  apply Forall_forall. intros q Hq. rewrite sort_ascending_perm in Hq.
  pose proof (collected_rule_patch q Hq) as Hrq.
  split; [by destruct Hrq|done].
Qed.

(** The offsets of a node that is not a patched declarator move with the
    text. *)
Lemma offset_patched i k :
  k = "start" ∨ k = "end" →
  enable_slash_commands_match i source = None →
  offset (get (patched_tree ps source i) k) = moved ps (offset (get i k)).
Proof.
  intros Hk Hi. unfold patched_tree.
  destruct i as [| | | | |items|fields];
    try (cbn [map_tree get offset]; by rewrite moved_origin).
  cbn [map_tree get].
  rewrite (lookup_field_map
             (fun k x => patched_field ps source (VObj fields) k x
                           (map_tree (patched_field ps source) x))).
  2:{ right. rewrite patched_field_unmatched by done.
      unfold offset_field. by destruct Hk as [-> | ->]. }
  rewrite patched_field_unmatched by done. unfold offset_field.
  replace (String.eqb k "start" || String.eqb k "end") with true
    by (by destruct Hk as [-> | ->]).
  destruct (lookup_field k fields) as [| | |n| | |] eqn:E; try done;
    cbn [map_tree offset]; by rewrite moved_origin.
Qed.

(** The initializer text of a gate declaration that is not patched, in the
    written text. *)
Lemma guarded_declarator_stays d :
  gate_declarator d = true →
  enable_slash_commands_match d source = None →
  let a := offset (get (get d "init") "start") in
  let b := offset (get (get d "init") "end") in
  0 ≤ a → a ≤ b → b ≤ len → Forall (inside_or_apart a b) ps →
  includes (init_text (patched_tree ps source d) code) GUARD = true.
Proof.
  intros Hg Hm a b Ha Hab Hb Hio.
  assert (Htext : includes (slice source a b) GUARD = true).
  { rewrite match_unfold, Hg in Hm. unfold init_text in Hm.
    by destruct (includes _ _). }
  destruct (gate_declarator_call d Hg) as [Htype _].
  assert (Hi : enable_slash_commands_match (get d "init") source = None).
  { rewrite match_unfold, not_declarator; [done|]. by rewrite Htype. }
  unfold init_text.
  assert (Hinit : get (patched_tree ps source d) "init"
                  = patched_tree ps source (get d "init")).
  { unfold patched_tree. apply get_map_tree. intros x x'.
    rewrite patched_field_unmatched by done. by apply offset_field_keys. }
  rewrite Hinit, !offset_patched by auto.
  by apply written_text_guard.
Qed.

Lemma patched_tree_walk v :
  (∀ n, n ∈ walk_nodes v → settled ps source code n) →
  ∀ n, n ∈ walk_nodes (patched_tree ps source v) →
       enable_slash_commands_match n code = None.
Proof.
  unfold patched_tree.
  apply (map_tree_walk (patched_field ps source)
           ltac:(intros; by apply patched_field_keys)
           (settled ps source code)
           (fun n => enable_slash_commands_match n code = None)).
  - (* the rebuilt node itself *)
    intros n (Hshape & Hnest & Htext).
    destruct (enable_slash_commands_match n source) as [r|] eqn:Hm.
    + rewrite match_unfold, not_call_initializer; [done|].
      assert (Hg : gate_declarator n = true).
      { rewrite match_unfold in Hm. by destruct (gate_declarator n). }
      destruct (gate_declarator_call n Hg) as [_ Hi].
      destruct n as [| | | | |items|fields]; try done.
      cbn [map_tree get].
      rewrite (lookup_field_map
                 (fun k x => patched_field ps source (VObj fields) k x
                               (map_tree (patched_field ps source) x)))
        by (left; by apply lookup_field_present).
      unfold patched_field. rewrite Hm. reflexivity.
    + rewrite match_unfold.
      rewrite map_tree_gate_declarator.
      * destruct (gate_declarator n) eqn:Hg; [|done].
        unfold patched_tree in Htext. by rewrite (Htext eq_refl eq_refl).
      * intros. by apply patched_field_keys.
      * intros x x'. rewrite patched_field_unmatched by done.
        by apply offset_field_keys.
  - (* its fields *)
    intros fields k x (Hshape & Hnest & _) Hkx. cbv zeta.
    assert (Hoff : ∀ x',
      offset_field (moved ps) k x x' = x'
      ∨ ∀ c n, is_node_like c = true →
               c = offset_field (moved ps) k x x'
               ∨ c ∈ elements (offset_field (moved ps) k x x') →
               n ∈ walk_nodes c →
               enable_slash_commands_match n code = None).
    { intros x'. destruct (offset_field_cases (moved ps) k x x') as [H|[m H]];
        [by left|].
      right. rewrite H. intros c n Hlike [->|Hc];
        [by rewrite is_node_like_num in Hlike|]. by apply elem_of_nil in Hc. }
    unfold patched_field.
    destruct (enable_slash_commands_match (VObj fields) source) as [r|] eqn:Hm;
      [|apply Hoff].
    destruct (String.eqb_spec k "init") as [->|Hk]; [|apply Hoff].
    right. intros c n Hlike [->|Hc] Hn; [|by apply elem_of_nil in Hc].
    rewrite match_unfold, (guarded_walk ps r x n); [done| |done].
    intros m Hmx. apply (Hnest r eq_refl).
    cbn [get].
    by rewrite (lookup_field_elem "init" x fields (estree_shape_keys _ Hshape) Hkx).
Qed.
End Rerun.

(** The tree [patched_tree] gives is the tree of the written text on the
    samples. *)
Example patched_tree_samples :
  patched_tree (fst (collectPatches Samples.member_ast Samples.member_src))
    Samples.member_src Samples.member_ast
  = Samples.member_patched_ast
  ∧ main_apply kept_ast kept_src = mkOutcome 0 (Some kept_patched) (Patched 1)
  ∧ patched_tree (fst (collectPatches kept_ast kept_src)) kept_src kept_ast
    = kept_patched_ast
  ∧ estree_shape kept_ast = true ∧ estree_shape kept_patched_ast = true
  ∧ String.length kept_src = 144%nat ∧ String.length kept_patched = 183%nat.
Proof. repeat split; vm_compute; reflexivity. Qed.

(** C2, amended.  Let an apply run patch a bundle in which no patched
    initializer holds another gate declaration: the patched ranges lie in
    the text, are not empty and do not overlap, no node below a patched
    initializer has the shape of a gate declaration, and a gate declaration
    that is guarded already holds each patched range entirely or not at
    all.  Then the run writes the text with every patched initializer
    wrapped; in the tree of that text the rule returns null at every node;
    and a second apply run collects no patch, writes nothing and exits
    0. *)
Theorem rerun_after_apply_changes_nothing (ast : value) (source : string) :
  let ps := fst (collectPatches ast source) in
  let code := splice_all source (sort_patches ps) in
  let len := Z.of_nat (String.length source) in
  let ast' := patched_tree ps source ast in
  estree_shape ast = true →
  ps ≠ [] →
  Forall (fun p => in_bounds len p ∧ start (result p) < end_ (result p)) ps →
  (∀ p q, p ∈ ps → q ∈ ps → p ≠ q → disjoint p q) →
  (∀ d r n, d ∈ walk_nodes ast →
            enable_slash_commands_match d source = Some r →
            n ∈ walk_nodes (get d "init") → gate_declarator n = false) →
  (∀ d, d ∈ walk_nodes ast → gate_declarator d = true →
        enable_slash_commands_match d source = None →
        0 ≤ offset (get (get d "init") "start")
        ∧ offset (get (get d "init") "start") ≤ offset (get (get d "init") "end")
        ∧ offset (get (get d "init") "end") ≤ len
        ∧ Forall (inside_or_apart (offset (get (get d "init") "start"))
                                  (offset (get (get d "init") "end"))) ps) →
  main_apply ast source = mkOutcome 0 (Some code) (Patched (length ps))
  ∧ (∀ p, p ∈ ps →
          slice code (moved ps (start (result p)))
                (moved ps (start (result p))
                 + (end_ (result p) - start (result p) + 39))
          = wrap (slice source (start (result p)) (end_ (result p))))
  ∧ Forall (fun node => enable_slash_commands_match node code = None)
           (walk_nodes ast')
  ∧ fst (collectPatches ast' code) = []
  ∧ scanMatches ast' code = []
  ∧ main_apply ast' code
    = mkOutcome 0 None
        (if countAllOccurrences code =? 0 then NoGateReference
         else AlreadyEnabled).
Proof.
  intros ps code len ast' Hshape Hne Hranges Hapart Hnest Hkept.
  assert (Hfirst : main_apply ast source
                   = mkOutcome 0 (Some code) (Patched (length ps))).
  { unfold main_apply. cbv zeta. fold ps.
    destruct (Z.eqb_spec (Z.of_nat (length ps)) 0) as [Hz|_]; [|done].
    destruct ps; [done|simpl in Hz; lia]. }
  assert (Hnone : ∀ node, node ∈ walk_nodes ast' →
                          enable_slash_commands_match node code = None).
  { apply (patched_tree_walk ast source ast).
    intros n Hn. split; [by apply (estree_shape_nodes ast)|].
    split; [intros r Hr m Hm; by apply (Hnest n r m)|].
    intros Hg Hm. destruct (Hkept n Hn Hg Hm) as (Ha & Hab & Hb & Hio).
    by apply guarded_declarator_stays. }
  destruct (no_match_no_patch ast' code Hnone) as [Hps Hscan].
  split; [exact Hfirst|].
  split; [intros p Hp; by apply written_text_wrapped|].
  split; [by apply Forall_forall|].
  split; [exact Hps|]. split; [exact Hscan|].
  rewrite main_apply_no_patch by done.
  assert (Hw : written (main_apply ast source) = Some code) by (by rewrite Hfirst).
  rewrite (written_includes_marker ast source code Hw).
  by destruct (countAllOccurrences code =? 0).
Qed.

Lemma rerun_after_apply_changes_nothing_witness :
  main_apply kept_ast kept_src = mkOutcome 0 (Some kept_patched) (Patched 1)
  ∧ Forall (fun node => enable_slash_commands_match node kept_patched = None)
           (walk_nodes kept_patched_ast)
  ∧ main_apply kept_patched_ast kept_patched = mkOutcome 0 None AlreadyEnabled.
Proof.
  assert (Hps : ∀ p, p ∈ fst (collectPatches kept_ast kept_src) →
                     start (result p) = 94 ∧ end_ (result p) = 142).
  { intros p Hp. apply list_elem_of_In in Hp. vm_compute in Hp.
    destruct Hp as [<-|[]]. by split. }
  assert (Et : patched_tree (fst (collectPatches kept_ast kept_src)) kept_src
                 kept_ast = kept_patched_ast) by (vm_compute; reflexivity).
  assert (Ec : splice_all kept_src
                 (sort_patches (fst (collectPatches kept_ast kept_src)))
               = kept_patched) by (vm_compute; reflexivity).
  destruct (rerun_after_apply_changes_nothing kept_ast kept_src)
    as (H1 & _ & H2 & _ & _ & H5).
  - vm_compute; reflexivity.
  - vm_compute. discriminate.
  - apply Forall_forall. intros p Hp. destruct (Hps p Hp) as [Hs He].
    unfold in_bounds. rewrite Hs, He.
    change (String.length kept_src) with 144%nat. lia.
  - intros p q Hp Hq Hpq. exfalso. apply Hpq.
    apply list_elem_of_In in Hp, Hq. vm_compute in Hp, Hq.
    destruct Hp as [<-|[]], Hq as [<-|[]]. reflexivity.
  - intros d r n Hd Hm Hn. apply list_elem_of_In in Hd. vm_compute in Hd.
    repeat (destruct Hd as [<-|Hd];
            [first [ vm_compute in Hm; discriminate Hm
                   | apply list_elem_of_In in Hn; vm_compute in Hn;
                     repeat (destruct Hn as [<-|Hn]; [vm_compute; reflexivity|]);
                     destruct Hn ]|]).
    destruct Hd.
  - intros d Hd Hg Hm. apply list_elem_of_In in Hd. vm_compute in Hd.
    repeat (destruct Hd as [<-|Hd];
            [first [ vm_compute in Hg; discriminate Hg
                   | vm_compute in Hm; discriminate Hm
                   | idtac ]|]); [|destruct Hd].
    change (String.length kept_src) with 144%nat.
    split; [vm_compute; discriminate|]. split; [vm_compute; discriminate|].
    split; [vm_compute; discriminate|].
    apply Forall_forall. intros p Hp. destruct (Hps p Hp) as [Hs He].
    left. rewrite Hs, He. split; vm_compute; discriminate.
  - rewrite Et, Ec in H2, H5. rewrite Ec in H1.
    split; [exact H1|]. split; [exact H2|].
    etrans; [exact H5|]. vm_compute; reflexivity.
Defined.

(** The bundle of the counterexample is one the amended claim leaves out:
    its two patched ranges overlap, and the inner gate declaration lies
    below the initializer of the outer one. *)
Example nested_sample_is_nested :
  ¬ (∀ p q, p ∈ fst (collectPatches Samples.nested_ast Samples.nested_src) →
            q ∈ fst (collectPatches Samples.nested_ast Samples.nested_src) →
            p ≠ q → disjoint p q)
  ∧ ∃ d r n,
      d ∈ walk_nodes Samples.nested_ast
      ∧ enable_slash_commands_match d Samples.nested_src = Some r
      ∧ n ∈ walk_nodes (get d "init")
      ∧ gate_declarator n = true.
Proof.
  split.
  - remember (fst (collectPatches Samples.nested_ast Samples.nested_src))
      as ps eqn:E.
    vm_compute in E. subst ps. intros H.
    destruct (H _ _ (list_elem_of_here _ _)
                (list_elem_of_further _ _ _ (list_elem_of_here _ _)))
      as [Hd|Hd]; [intros [=]| |]; vm_compute in Hd; by apply Hd.
  - exists (VariableDeclarator 4 161 (Identifier 4 5 "x") (Samples.outer_call 6)).
    eexists.
    exists (VariableDeclarator 69 119 (Identifier 69 70 "y")
              (Samples.gate_call 71 "b" [] 119)).
    split; [|split; [|split]].
    + apply list_elem_of_In. vm_compute.
      repeat (first [left; reflexivity | right]).
    + vm_compute. reflexivity.
    + apply list_elem_of_In. vm_compute.
      repeat (first [left; reflexivity | right]).
    + vm_compute. reflexivity.
Qed.

(** * Properties of the node-pty Spectre patch *)

Section SpectreProperties.
Import SpectrePatch.

Lemma prefix_cons_eq a p b s :
  String.prefix (String a p) (String b s) = true ↔ a = b ∧ String.prefix p s = true.
Proof.
  change (String.prefix (String a p) (String b s))
    with (if ascii_dec a b then String.prefix p s else false).
  destruct (ascii_dec a b); [tauto|]. split; [done | by intros [? _]].
Qed.

Lemma prefix_nil s : String.prefix "" s = true.
Proof. by destruct s. Qed.

Lemma split_lines_lf rest :
  split_lines (String LF rest) = "" :: split_lines rest.
Proof. reflexivity. Qed.

Lemma split_lines_crlf rest :
  split_lines (String CR (String LF rest)) = "" :: split_lines rest.
Proof. reflexivity. Qed.

Lemma split_lines_nonempty s : split_lines s ≠ [].
Proof.
  induction s as [|c rest IH]; [done|]. simpl.
  destruct (split_lines rest); [done|].
  repeat case_match; done.
Qed.

(** A code unit that starts no line break goes to the first line of what
    follows. *)
Lemma split_lines_plain c rest :
  c ≠ LF → (c = CR → String.prefix newline rest = false) →
  ∃ l ls, split_lines rest = l :: ls
          ∧ split_lines (String c rest) = String c l :: ls.
Proof.
  intros Hlf Hcr.
  destruct (split_lines rest) as [|l ls] eqn:Hs; [by destruct (split_lines_nonempty rest)|].
  exists l, ls. split; [done|]. simpl. rewrite Hs.
  rewrite bool_decide_eq_false_2 by done.
  case_bool_decide as Hc; [|done].
  destruct rest as [|c2 rest2]; [done|].
  case_bool_decide as Hc2; [|done]. subst.
  specialize (Hcr eq_refl).
  assert (String.prefix newline (String LF rest2) = true) by (by destruct rest2).
  congruence.
Qed.

Lemma split_lines_cases c rest :
  (c = LF ∧ split_lines (String c rest) = "" :: split_lines rest)
  ∨ (c = CR ∧ ∃ rest2, rest = String LF rest2
                       ∧ split_lines (String c rest) = "" :: split_lines rest2)
  ∨ (c ≠ LF ∧ (c = CR → String.prefix newline rest = false)
     ∧ ∃ l ls, split_lines rest = l :: ls
               ∧ split_lines (String c rest) = String c l :: ls).
Proof.
  destruct (decide (c = LF)) as [->|Hlf]; [by left|].
  destruct (decide (c = CR ∧ String.prefix newline rest = true)) as [[-> Hp]|Hn].
  - right. left. split; [done|].
    destruct rest as [|c2 rest2]; [done|].
    destruct (decide (c2 = LF)) as [->|Hc2]; [by exists rest2|].
    exfalso. apply prefix_cons_eq in Hp as [? _]. congruence.
  - right. right. split; [done|].
    assert (Hcr : c = CR → String.prefix newline rest = false).
    { intros ->. destruct (String.prefix newline rest); [|done]. by destruct Hn. }
    split; [done|]. by apply split_lines_plain.
Qed.

(** The first line is what the text starts with. *)
Lemma first_line_prefix s l ls :
  split_lines s = l :: ls → ∃ b, s = l +:+ b.
Proof.
  revert l ls. induction s as [|c rest IH]; intros l ls Hs.
  - injection Hs as <- <-. by exists "".
  - destruct (split_lines_cases c rest)
      as [(-> & Heq)|[(-> & r2 & -> & Heq)|(_ & _ & l' & ls' & Hr & Heq)]];
      rewrite Heq in Hs; injection Hs as <- <-.
    + by exists (String LF rest).
    + by exists (String CR (String LF r2)).
    + destruct (IH l' ls' Hr) as (b & ->). by exists b.
Qed.

Lemma split_lines_substring s line :
  line ∈ split_lines s → ∃ a b, s = a +:+ line +:+ b.
Proof.
  remember (String.length s) as n eqn:Hn. revert s Hn line.
  induction n as [n IH] using lt_wf_ind. intros s -> line Hin.
  destruct s as [|c rest].
  - apply list_elem_of_singleton in Hin as ->. by exists "", "".
  - destruct (split_lines_cases c rest)
      as [(-> & Heq)|[(-> & r2 & -> & Heq)|(_ & _ & l & ls & Hr & Heq)]];
      rewrite Heq in Hin.
    + apply elem_of_cons in Hin as [->|Hin]; [by exists "", (String LF rest)|].
      destruct (IH _ (Nat.lt_succ_diag_r _) rest eq_refl line Hin) as (a & b & ->).
      by exists (String LF a), b.
    + apply elem_of_cons in Hin as [->|Hin];
        [by exists "", (String CR (String LF r2))|].
      destruct (IH (String.length r2) ltac:(simpl; lia) r2 eq_refl line Hin)
        as (a & b & ->).
      by exists (String CR (String LF a)), b.
    + apply elem_of_cons in Hin as [->|Hin].
      * destruct (first_line_prefix rest l ls Hr) as (b & ->). by exists "", b.
      * destruct (IH _ (Nat.lt_succ_diag_r _) rest eq_refl line) as (a & b & ->).
        { rewrite Hr. by right. }
        by exists (String c a), b.
Qed.

(** The lines hold no line feed. *)
Lemma split_lines_free_of_lf s :
  Forall (fun l => free_of LF l = true) (split_lines s).
Proof.
  remember (String.length s) as n eqn:Hn. revert s Hn.
  induction n as [n IH] using lt_wf_ind. intros s ->.
  destruct s as [|c rest]; [by repeat constructor|].
  destruct (split_lines_cases c rest)
    as [(-> & ->)|[(-> & r2 & -> & ->)|(Hc & _ & l & ls & Hr & ->)]].
  - constructor; [done|]. by apply (IH _ (Nat.lt_succ_diag_r _) rest).
  - constructor; [done|]. by apply (IH (String.length r2) ltac:(simpl; lia) r2).
  - pose proof (IH _ (Nat.lt_succ_diag_r _) rest eq_refl) as H. rewrite Hr in H.
    apply Forall_cons in H as [Hl Hls]. constructor; [|done].
    simpl. rewrite Hl. by rewrite bool_decide_eq_false_2.
Qed.

Lemma one_line_cons c m :
  one_line (String c m) = true → c ≠ LF ∧ c ≠ CR ∧ one_line m = true.
Proof.
  simpl. intros H. apply andb_prop in H as [H Hm]. apply andb_prop in H as [H1 H2].
  repeat split; [| |done]; intros ->; by rewrite bool_decide_eq_true_2 in *.
Qed.

(** What a text starts with, if it holds no line break, its first line
    starts with. *)
Lemma prefix_first_line m s l ls :
  one_line m = true → split_lines s = l :: ls →
  String.prefix m s = true → String.prefix m l = true.
Proof.
  revert m l ls. induction s as [|c rest IH]; intros m l ls Hm Hs Hp.
  - injection Hs as <- <-. exact Hp.
  - destruct m as [|a m]; [apply prefix_nil|].
    apply prefix_cons_eq in Hp as [-> Hp].
    apply one_line_cons in Hm as (Hlf & Hcr & Hm).
    destruct (split_lines_plain c rest Hlf) as (l' & ls' & Hr & Heq); [done|].
    rewrite Heq in Hs. injection Hs as <- <-.
    apply prefix_cons_eq. split; [done|]. by apply (IH m l' ls').
Qed.

(** A text without line break occurs in the source exactly when it occurs
    in one of its lines. *)
Lemma includes_in_a_line s m :
  one_line m = true →
  includes s m = true ↔ ∃ line, line ∈ split_lines s ∧ includes line m = true.
Proof.
  intros Hm. split.
  - induction s as [|c rest IH]; rewrite includes_unfold; intros H.
    + rewrite orb_false_r in H. exists "". split; [by left|].
      by apply includes_prefix.
    + apply orb_prop in H as [H|H].
      * destruct (split_lines (String c rest)) as [|l' ls'] eqn:Hs';
          [by destruct (split_lines_nonempty (String c rest))|].
        exists l'. split; [by left|].
        apply includes_prefix. by apply (prefix_first_line m (String c rest) l' ls').
      * destruct (IH H) as (line & Hin & Hinc).
        destruct (split_lines_cases c rest)
          as [(-> & ->)|[(-> & r2 & -> & ->)|(_ & _ & l' & ls' & Hr & ->)]].
        -- exists line. split; [by right|done].
        -- exists line. split; [|done]. by rewrite split_lines_lf in Hin.
        -- rewrite Hr in Hin. apply elem_of_cons in Hin as [->|Hin].
           ++ exists (String c l'). split; [by left|].
              by apply (includes_append_r (String c "")).
           ++ exists line. split; [by right|done].
  - intros (line & Hin & Hinc).
    destruct (split_lines_substring s line Hin) as (a & b & ->).
    by apply includes_append_r, includes_append_l.
Qed.

(** Once a line has been dropped, [removed] stays set. *)
Lemma remove_loop_removed lines isSkipping out :
  fst (remove_loop lines isSkipping true out) = true.
Proof.
  revert isSkipping out. induction lines as [|line lines IH]; intros sk out; [done|].
  simpl. by repeat case_match.
Qed.

(** The accumulator only grows. *)
Lemma remove_loop_out lines isSkipping removed out :
  snd (remove_loop lines isSkipping removed out)
  = out ++ snd (remove_loop lines isSkipping false []).
Proof.
  revert isSkipping removed out.
  induction lines as [|line lines IH]; intros sk rm out; simpl.
  - by rewrite app_nil_r.
  - repeat case_match; try apply IH.
    + rewrite (IH _ true out), (IH _ true []). done.
    + rewrite (IH _ rm (out ++ [line])), (IH _ false [line]).
      by rewrite app_assoc.
Qed.

Lemma remove_loop_changed lines out :
  fst (remove_loop lines false false out) = true
  ↔ ∃ line, line ∈ lines ∧ includes line ATTRIBUTES = true.
Proof.
  revert out. induction lines as [|line lines IH]; intros out; simpl.
  - split; [done|]. by intros (? & ?%elem_of_nil & _).
  - destruct (includes line ATTRIBUTES) eqn:Hi; simpl.
    + rewrite remove_loop_removed. split; [|done]. intros _. exists line.
      split; [by left|done].
    + rewrite IH. split.
      * intros (l & Hl & Hinc). exists l. split; [by right|done].
      * intros (l & [->|Hl]%elem_of_cons & Hinc); [congruence|]. by exists l.
Qed.

Lemma remove_loop_kept lines isSkipping :
  sublist (snd (remove_loop lines isSkipping false [])) lines
  ∧ Forall (fun l => includes l ATTRIBUTES = false)
           (snd (remove_loop lines isSkipping false [])).
Proof.
  revert isSkipping. induction lines as [|line lines IH]; intros sk; simpl.
  - split; constructor.
  - destruct sk; simpl.
    + destruct (IH (negb (closes_block line))) as [Hs Hf].
      split; [by apply sublist_cons | done].
    + destruct (includes line ATTRIBUTES) eqn:Hi; simpl.
      * rewrite remove_loop_out. simpl. destruct (IH true) as [Hs Hf].
        split; [by apply sublist_cons | done].
      * rewrite remove_loop_out. simpl. destruct (IH false) as [Hs Hf].
        split; [by apply sublist_skip | by constructor].
Qed.

(** ** The loop, piece by piece *)

Lemma remove_loop_pre pre rest removed out :
  Forall (fun l => includes l ATTRIBUTES = false) pre →
  remove_loop (pre ++ rest) false removed out
  = remove_loop rest false removed (out ++ pre).
Proof.
  intros H. revert out. induction H as [|l pre Hl _ IH]; intros out.
  - by rewrite app_nil_r.
  - simpl. rewrite Hl. simpl. rewrite IH. by rewrite <- app_assoc.
Qed.

Lemma remove_loop_open line rest removed out :
  includes line ATTRIBUTES = true →
  remove_loop (line :: rest) false removed out = remove_loop rest true true out.
Proof. intros H. simpl. by rewrite H. Qed.

Lemma remove_loop_body body rest removed out :
  Forall (fun l => closes_block l = false) body →
  remove_loop (body ++ rest) true removed out = remove_loop rest true removed out.
Proof.
  intros H. induction H as [|l body Hl _ IH]; [done|].
  simpl. rewrite Hl. simpl. exact IH.
Qed.

Lemma remove_loop_close line rest removed out :
  closes_block line = true →
  remove_loop (line :: rest) true removed out = remove_loop rest false removed out.
Proof. intros H. simpl. by rewrite H. Qed.

Lemma kept_lines_clean lines :
  Forall (fun l => includes l ATTRIBUTES = false) lines → kept_lines lines = lines.
Proof.
  intros H. unfold kept_lines.
  rewrite <- (app_nil_r lines) at 1. by rewrite remove_loop_pre.
Qed.

(** ** Joining lines *)

Lemma concat_cons2 sep x y ys :
  String.concat sep (x :: y :: ys) = x +:+ sep +:+ String.concat sep (y :: ys).
Proof. reflexivity. Qed.

Lemma newline_append s : newline +:+ s = String LF s.
Proof. reflexivity. Qed.

(** What a text starts with, if it holds no line break, ends before the
    first line feed. *)
Lemma prefix_before_lf m l rest :
  one_line m = true →
  String.prefix m (l +:+ newline +:+ rest) = true → String.prefix m l = true.
Proof.
  intros Hm. revert m Hm. induction l as [|c l IH]; intros m Hm H.
  - destruct m as [|a m]; [done|].
    rewrite append_nil_l, newline_append in H.
    apply prefix_cons_eq in H as [-> _].
    by apply one_line_cons in Hm as (? & _).
  - destruct m as [|a m]; [apply prefix_nil|].
    rewrite append_cons in H. apply prefix_cons_eq in H as [-> H].
    apply one_line_cons in Hm as (_ & _ & Hm).
    apply prefix_cons_eq. split; [done|]. by apply IH.
Qed.

Lemma includes_across_lf m l rest :
  one_line m = true →
  includes (l +:+ newline +:+ rest) m = true →
  includes l m = true ∨ includes rest m = true.
Proof.
  intros Hm. induction l as [|c l IH]; intros H.
  - rewrite append_nil_l, newline_append, includes_unfold in H.
    apply orb_prop in H as [H|H]; [|by right].
    left. apply includes_prefix.
    apply (prefix_before_lf m "" rest Hm).
    by rewrite append_nil_l, newline_append.
  - rewrite append_cons, includes_unfold in H.
    apply orb_prop in H as [H|H].
    + left. apply includes_prefix.
      apply (prefix_before_lf m (String c l) rest Hm). by rewrite append_cons.
    + destruct (IH H) as [Hl|Hr]; [left|by right].
      rewrite includes_unfold, Hl. apply orb_true_r.
Qed.

Lemma includes_concat m ls :
  one_line m = true → includes "" m = false →
  Forall (fun l => includes l m = false) ls →
  includes (String.concat newline ls) m = false.
Proof.
  intros Hm He H. induction H as [|l ls Hl Hls IH]; [done|].
  destruct ls as [|l2 ls]; [done|].
  rewrite concat_cons2.
  destruct (includes (l +:+ newline +:+ String.concat newline (l2 :: ls)) m) eqn:Hi;
    [|done].
  apply includes_across_lf in Hi as [Hi|Hi]; congruence.
Qed.

(** Splitting and joining gives the text back when no line break has a
    carriage return. *)
Lemma concat_split_lines s :
  includes s (String CR newline) = false →
  String.concat newline (split_lines s) = s.
Proof.
  induction s as [|c rest IH]; [done|].
  rewrite includes_unfold. intros [Hp Hi]%orb_false_elim.
  specialize (IH Hi).
  destruct (split_lines_cases c rest)
    as [(-> & ->)|[(-> & r2 & -> & _)|(_ & _ & l & ls & Hr & ->)]].
  - destruct (split_lines rest) as [|l ls] eqn:Hr;
      [by destruct (split_lines_nonempty rest)|].
    rewrite concat_cons2, append_nil_l, newline_append. by rewrite IH.
  - exfalso. revert Hp. unfold newline.
    rewrite (proj2 (prefix_cons_eq CR (String LF "") CR (String LF r2))); [done|].
    split; [done|]. apply prefix_cons_eq. split; [done|]. apply prefix_nil.
  - rewrite Hr in IH. destruct ls as [|l2 ls].
    + simpl in *. by rewrite IH.
    + rewrite concat_cons2 in IH. rewrite concat_cons2, append_cons. by rewrite IH.
Qed.

(** ** The closing line *)

Lemma skip_spaces_split line :
  ∃ a, line = a +:+ skip_spaces line ∧ all_spaces a = true.
Proof.
  induction line as [|c line (a & IH & Ha)]; [by exists ""|].
  simpl. destruct (is_space c) eqn:Hc.
  - exists (String c a). split; [by rewrite append_cons, <- IH|].
    simpl. by rewrite Hc, Ha.
  - by exists "".
Qed.

Lemma skip_spaces_append a rest :
  all_spaces a = true → skip_spaces (a +:+ rest) = skip_spaces rest.
Proof.
  induction a as [|c a IH]; [done|].
  intros H. simpl in H. apply andb_prop in H as [Hc Ha].
  rewrite append_cons. simpl. rewrite Hc. by apply IH.
Qed.

Lemma skip_spaces_closing b : skip_spaces ("}," +:+ b) = "}," +:+ b.
Proof. reflexivity. Qed.

(** ** What [removeSpectreBlock] returns *)

Lemma changed_is_key_present source :
  changed (removeSpectreBlock source) = includes source ATTRIBUTES.
Proof.
  unfold removeSpectreBlock. cbn [changed].
  destruct (includes source ATTRIBUTES) eqn:Hi.
  - apply remove_loop_changed. by apply includes_in_a_line.
  - destruct (fst (remove_loop (split_lines source) false false [])) eqn:Hc; [|done].
    apply remove_loop_changed in Hc. apply includes_in_a_line in Hc; [|done].
    congruence.
Qed.

Lemma code_lacks_key source :
  includes (code (removeSpectreBlock source)) ATTRIBUTES = false.
Proof.
  unfold removeSpectreBlock. cbn [code].
  apply includes_concat; [done..|]. apply remove_loop_kept.
Qed.

Lemma removeSpectreBlock_clean source :
  includes source ATTRIBUTES = false →
  includes source (String CR newline) = false →
  removeSpectreBlock source = {| changed := false; code := source |}.
Proof.
  intros Hk Hcr.
  assert (Hc : changed (removeSpectreBlock source) = false)
    by (by rewrite changed_is_key_present).
  unfold removeSpectreBlock in *. cbn [changed] in Hc. rewrite Hc. f_equal.
  fold (kept_lines (split_lines source)).
  rewrite kept_lines_clean; [by apply concat_split_lines|].
  apply Forall_forall. intros l Hl.
  destruct (includes l ATTRIBUTES) eqn:Hi; [|done].
  assert (includes source ATTRIBUTES = true); [|congruence].
  apply includes_in_a_line; [done|]. by exists l.
Qed.

(** X15.  [removeSpectreBlock] reports [changed] exactly when the source
    text contains ['msvs_configuration_attributes'] (quotes included), no
    matter where: the key cannot lie across a line break, and the first line
    that holds it is always reached outside a skipped block. *)
Theorem removeSpectreBlock_changed_iff_key (source : string) :
  changed (removeSpectreBlock source) = includes source ATTRIBUTES.
Proof. apply changed_is_key_present. Qed.

(** X16.  The text [removeSpectreBlock] returns never contains the key
    ['msvs_configuration_attributes'], and every line of it is a line of the
    source, in the source's order; so a second pass over the returned text
    reports no change. *)
Theorem removeSpectreBlock_output_lacks_key (source : string) :
  includes (code (removeSpectreBlock source)) ATTRIBUTES = false
  ∧ (∃ kept, code (removeSpectreBlock source) = String.concat newline kept
             ∧ sublist kept (split_lines source))
  ∧ changed (removeSpectreBlock (code (removeSpectreBlock source))) = false.
Proof.
  split; [apply code_lacks_key|]. split.
  - exists (kept_lines (split_lines source)). split; [done|].
    apply remove_loop_kept.
  - rewrite changed_is_key_present. apply code_lacks_key.
Qed.

(** X17.  A closed block is cut out whole.  When the lines of the source
    are some lines without the key, a line with the key, lines none of which
    is a closing line, a closing line, and the rest, then the result is
    changed and its text is the lines before the block followed by what the
    function keeps of the rest: the opening line, the body and the closing
    line are gone, whatever the body holds. *)
Theorem removeSpectreBlock_cuts_closed_block
    (source : string) (pre : list string) (opening : string)
    (body : list string) (closing : string) (post : list string) :
  split_lines source = pre ++ opening :: body ++ closing :: post →
  Forall (fun l => includes l ATTRIBUTES = false) pre →
  includes opening ATTRIBUTES = true →
  Forall (fun l => closes_block l = false) body →
  closes_block closing = true →
  removeSpectreBlock source
  = {| changed := true;
       code := String.concat newline (pre ++ kept_lines post) |}.
Proof.
  intros Hs Hpre Hopen Hbody Hclose. unfold removeSpectreBlock. rewrite Hs.
  rewrite remove_loop_pre by done.
  rewrite remove_loop_open by done.
  rewrite remove_loop_body by done.
  rewrite remove_loop_close by done.
  cbv zeta. rewrite remove_loop_removed, remove_loop_out. done.
Qed.

Lemma removeSpectreBlock_cuts_closed_block_witness :
  removeSpectreBlock SpectreSamples.gyp
  = {| changed := true; code := SpectreSamples.gyp_clean |}.
Proof.
  etrans.
  - apply (removeSpectreBlock_cuts_closed_block SpectreSamples.gyp
             ["{"; "  'conditions': ["]
             "    'msvs_configuration_attributes': {"
             ["      'SpectreMitigation': 'Spectre'"]
             "    },"
             ["    'sources': []"; "  ]"; "}"]).
    + vm_compute; reflexivity.
    + repeat (apply List.Forall_cons; [vm_compute; reflexivity|]).
      apply List.Forall_nil.
    + vm_compute; reflexivity.
    + repeat (apply List.Forall_cons; [vm_compute; reflexivity|]).
      apply List.Forall_nil.
    + vm_compute; reflexivity.
  - vm_compute; reflexivity.
Defined.

(** X18.  A block that is never closed takes the rest of the file with it.
    When a line with the key is followed only by lines that are no closing
    line (a closing line is [},] alone between white space), the result is
    changed and its text is just the lines before the key line. *)
Theorem removeSpectreBlock_unclosed_block_drops_rest
    (source : string) (pre : list string) (opening : string)
    (body : list string) :
  split_lines source = pre ++ opening :: body →
  Forall (fun l => includes l ATTRIBUTES = false) pre →
  includes opening ATTRIBUTES = true →
  Forall (fun l => closes_block l = false) body →
  removeSpectreBlock source
  = {| changed := true; code := String.concat newline pre |}.
Proof.
  intros Hs Hpre Hopen Hbody. unfold removeSpectreBlock. rewrite Hs.
  rewrite remove_loop_pre by done.
  rewrite remove_loop_open by done.
  rewrite <- (app_nil_r body).
  rewrite remove_loop_body by done.
  done.
Qed.

Lemma removeSpectreBlock_unclosed_block_drops_rest_witness :
  removeSpectreBlock SpectreSamples.gyp_open = {| changed := true; code := "{" |}.
Proof.
  etrans.
  - apply (removeSpectreBlock_unclosed_block_drops_rest SpectreSamples.gyp_open
             ["{"]
             "  'msvs_configuration_attributes': {"
             ["    'SpectreMitigation': 'Spectre' },"; "  'sources': []"; "}"]).
    + vm_compute; reflexivity.
    + repeat (apply List.Forall_cons; [vm_compute; reflexivity|]).
      apply List.Forall_nil.
    + vm_compute; reflexivity.
    + repeat (apply List.Forall_cons; [vm_compute; reflexivity|]).
      apply List.Forall_nil.
  - vm_compute; reflexivity.
Defined.

(** X19.  A source without the key comes back as it is, provided no line
    break of it has a carriage return (the lines are joined with a bare line
    feed): the result is unchanged and its text is the source. *)
Theorem removeSpectreBlock_keeps_clean_source (source : string) :
  includes source ATTRIBUTES = false →
  includes source (String CR newline) = false →
  removeSpectreBlock source = {| changed := false; code := source |}.
Proof. apply removeSpectreBlock_clean. Qed.

Lemma removeSpectreBlock_keeps_clean_source_witness :
  removeSpectreBlock SpectreSamples.gyp_clean
  = {| changed := false; code := SpectreSamples.gyp_clean |}.
Proof.
  apply (removeSpectreBlock_keeps_clean_source SpectreSamples.gyp_clean);
    vm_compute; reflexivity.
Defined.

(** X20.  The test that ends a skipped block, [/^\s*},\s*$/], holds for a
    line exactly when the line is [},] with nothing but white space before
    and after it. *)
Theorem closes_block_iff (line : string) :
  closes_block line = true
  ↔ ∃ a b, line = a +:+ "}," +:+ b
           ∧ all_spaces a = true ∧ all_spaces b = true.
Proof.
  unfold closes_block. cbv zeta. split.
  - intros [Hp Hb]%andb_prop.
    destruct (skip_spaces_split line) as (a & Hl & Ha).
    exists a, (drop 2 (skip_spaces line)). split; [|done].
    rewrite Hl at 1. f_equal. by apply (prefix_split "},").
  - intros (a & b & -> & Ha & Hb).
    rewrite skip_spaces_append, skip_spaces_closing by done.
    rewrite prefix_append. by change (drop 2 ("}," +:+ b)) with b.
Qed.

(** ** The driver *)

Lemma main_win32 isCheck source :
  main isCheck "win32" (Some source)
  = if isCheck then mkRun 0 None (Checked (hasSpectre source)) else
    if negb (hasSpectre source) then mkRun 0 None AlreadyClean else
    if negb (includes source ATTRIBUTES) then mkRun 1 None BlockNotFound
    else mkRun 0 (Some (code (removeSpectreBlock source))) BlockRemoved.
Proof.
  unfold main. change (negb ("win32" =? "win32")%string) with false. cbv iota zeta.
  by rewrite changed_is_key_present.
Qed.

Lemma main_elsewhere isCheck platform file :
  platform ≠ "win32" → main isCheck platform file = mkRun 0 None NotWindows.
Proof.
  intros H. unfold main. apply String.eqb_neq in H. by rewrite H.
Qed.

(** When the calls return, the run is the one of [main]. *)
Lemma spectre_main_when_calls_return
    isCheck platform path existsSync source writeFileSync :
  (∀ text, writeFileSync text = true) →
  Throwing.Spectre.main isCheck platform path existsSync (Some source)
    writeFileSync
  = Throwing.Ended
      (main isCheck platform (if existsSync then Some source else None)).
Proof.
  intros Hw. unfold Throwing.Spectre.main, main.
  destruct (negb (platform =? "win32")%string); [done|].
  destruct existsSync; [|done]. cbn [negb]. cbv zeta.
  rewrite Hw. by repeat case_match.
Qed.


(** X22.  What the script has written it does not touch again.  If a run
    without [--check] wrote a text, that text lacks the key, and the next
    run on it writes nothing: it reports the file as clean and exits 0 when
    the text no longer holds both [SpectreMitigation] and ['Spectre'], and
    otherwise reports that no block was found and exits 1. *)
Theorem spectre_main_rerun
    (platform : string) (file : option string) (written : string) :
  wrote (main false platform file) = Some written →
  includes written ATTRIBUTES = false
  ∧ main false platform (Some written)
    = if hasSpectre written then mkRun 1 None BlockNotFound
      else mkRun 0 None AlreadyClean.
Proof.
  intros Hw. destruct (decide (platform = "win32")) as [->|Hp].
  - destruct file as [source|]; [|done].
    rewrite main_win32 in Hw.
    destruct (hasSpectre source), (includes source ATTRIBUTES);
      cbn [negb wrote] in Hw; try done.
    injection Hw as Hw.
    assert (Hk : includes written ATTRIBUTES = false)
      by (rewrite <- Hw; apply code_lacks_key).
    split; [done|]. rewrite main_win32, Hk.
    by destruct (hasSpectre written).
  - by rewrite main_elsewhere in Hw.
Qed.

Lemma spectre_main_rerun_witness :
  main false "win32" (Some SpectreSamples.gyp_clean) = mkRun 0 None AlreadyClean.
Proof.
  destruct (spectre_main_rerun "win32" (Some SpectreSamples.gyp)
              SpectreSamples.gyp_clean) as [_ H].
  - vm_compute; reflexivity.
  - etrans; [exact H|]. vm_compute; reflexivity.
Defined.

End SpectreProperties.

(** * The script for both build files *)

Section SpectreAllProperties.
Import SpectrePatchAll.

Lemma targets_loop_missing isCheck name rest p :
  targets_loop isCheck ((name, None) :: rest) p
  = targets_loop isCheck rest (say p (FileMissing name)).
Proof. reflexivity. Qed.

Lemma targets_loop_check name source rest p :
  targets_loop true ((name, Some source) :: rest) p
  = targets_loop true rest
      (mkProgress (if SpectrePatch.hasSpectre source then true else foundAny p)
                  (patchedAny p) (written p)
                  (printed p ++ [Checked name (SpectrePatch.hasSpectre source)])).
Proof. reflexivity. Qed.

(** A file without the two mitigation strings is passed over. *)
Lemma targets_loop_clean name source rest p :
  SpectrePatch.hasSpectre source = false →
  targets_loop false ((name, Some source) :: rest) p = targets_loop false rest p.
Proof.
  intros H. cbn [targets_loop]. cbv zeta. rewrite H. cbn [negb]. by destruct p.
Qed.

Lemma targets_loop_drift name source rest p :
  SpectrePatch.hasSpectre source = true →
  includes source SpectrePatch.ATTRIBUTES = false →
  targets_loop false ((name, Some source) :: rest) p
  = (true, mkProgress true (patchedAny p) (written p)
             (printed p ++ [BlockNotFound name])).
Proof.
  intros Hh Hk. cbn [targets_loop]. cbv zeta.
  rewrite Hh, changed_is_key_present, Hk. reflexivity.
Qed.

Lemma targets_loop_patch name source rest p :
  SpectrePatch.hasSpectre source = true →
  includes source SpectrePatch.ATTRIBUTES = true →
  targets_loop false ((name, Some source) :: rest) p
  = targets_loop false rest
      (mkProgress true true
         (written p
          ++ [(name, SpectrePatch.code (SpectrePatch.removeSpectreBlock source))])
         (printed p ++ [BlockRemoved name])).
Proof.
  intros Hh Hk. cbn [targets_loop]. cbv zeta.
  rewrite Hh, changed_is_key_present, Hk. reflexivity.
Qed.

(** How the loop treats its first target. *)
Lemma targets_loop_cases isCheck name file rest p :
  (∃ p', targets_loop isCheck ((name, file) :: rest) p = targets_loop isCheck rest p'
         ∧ written p' = written p
         ∧ ((∃ m, printed p' = printed p ++ [m] ∧ m ≠ AlreadyRemoved)
            ∨ printed p' = printed p)
         ∧ (isCheck = false →
            foundAny p' = foundAny p ∧ patchedAny p' = patchedAny p
            ∧ ∀ source, file = Some source → SpectrePatch.hasSpectre source = false))
  ∨ (∃ source, isCheck = false ∧ file = Some source
       ∧ SpectrePatch.hasSpectre source = true
       ∧ includes source SpectrePatch.ATTRIBUTES = false
       ∧ targets_loop isCheck ((name, file) :: rest) p
         = (true, mkProgress true (patchedAny p) (written p)
                    (printed p ++ [BlockNotFound name])))
  ∨ (∃ source, isCheck = false ∧ file = Some source
       ∧ SpectrePatch.hasSpectre source = true
       ∧ includes source SpectrePatch.ATTRIBUTES = true
       ∧ targets_loop isCheck ((name, file) :: rest) p
         = targets_loop isCheck rest
             (mkProgress true true
                (written p
                 ++ [(name, SpectrePatch.code (SpectrePatch.removeSpectreBlock source))])
                (printed p ++ [BlockRemoved name]))).
Proof.
  destruct file as [source|].
  - destruct isCheck.
    + left. eexists. split; [apply targets_loop_check|]. cbn.
      split; [done|]. split; [|done]. left. by eexists.
    + destruct (SpectrePatch.hasSpectre source) eqn:Hh.
      * destruct (includes source SpectrePatch.ATTRIBUTES) eqn:Hk.
        -- right. right. exists source. repeat split; try done.
           by apply targets_loop_patch.
        -- right. left. exists source. repeat split; try done.
           by apply targets_loop_drift.
      * left. exists p. split; [by apply targets_loop_clean|].
        split; [done|]. split; [by right|]. intros _.
        split; [done|]. split; [done|]. by intros ? [= <-].
  - left. eexists. split; [apply targets_loop_missing|]. cbn.
    split; [done|]. split; [|done]. left. by eexists.
Qed.

Lemma targets_loop_never_says_removed isCheck targets p :
  AlreadyRemoved ∉ printed p →
  AlreadyRemoved ∉ printed (snd (targets_loop isCheck targets p)).
Proof.
  revert p. induction targets as [|[name file] rest IH]; intros p Hp; [done|].
  destruct (targets_loop_cases isCheck name file rest p)
    as [(p' & -> & _ & Hpr & _)|[(s & _ & _ & _ & _ & ->)|(s & _ & _ & _ & _ & ->)]].
  - apply IH. destruct Hpr as [(m & -> & Hm)| ->]; [|done].
    rewrite not_elem_of_app, not_elem_of_cons. split; [done|]. split; [done|].
    apply not_elem_of_nil.
  - cbn. rewrite not_elem_of_app, not_elem_of_cons. split; [done|].
    split; [done|]. apply not_elem_of_nil.
  - apply IH. cbn. rewrite not_elem_of_app, not_elem_of_cons. split; [done|].
    split; [done|]. apply not_elem_of_nil.
Qed.

(** In a run that patches, a file is found exactly when one is patched. *)
Lemma targets_loop_flags targets p :
  foundAny p = patchedAny p →
  fst (targets_loop false targets p) = false →
  foundAny (snd (targets_loop false targets p))
  = patchedAny (snd (targets_loop false targets p)).
Proof.
  revert p. induction targets as [|[name file] rest IH]; intros p Hp; [done|].
  destruct (targets_loop_cases false name file rest p)
    as [(p' & -> & _ & _ & Hf)|[(s & _ & _ & _ & _ & ->)|(s & _ & _ & _ & _ & ->)]].
  - destruct (Hf eq_refl) as (Hf1 & Hf2 & _). apply IH. congruence.
  - done.
  - by apply IH.
Qed.

Lemma targets_loop_exit isCheck targets p :
  fst (targets_loop isCheck targets p) = true
  ↔ isCheck = false
    ∧ ∃ name source, (name, Some source) ∈ targets
        ∧ SpectrePatch.hasSpectre source = true
        ∧ includes source SpectrePatch.ATTRIBUTES = false.
Proof.
  revert p. induction targets as [|[name file] rest IH]; intros p.
  - split; [done|]. by intros (_ & ? & ? & ?%elem_of_nil & _).
  - destruct (targets_loop_cases isCheck name file rest p)
      as [(p' & -> & _ & _ & Hf)|[(s & -> & -> & Hh & Hk & ->)
                                 |(s & -> & -> & Hh & Hk & ->)]].
    + rewrite IH. split.
      * intros (-> & n & s & Hin & Hh & Hk). split; [done|].
        exists n, s. split; [by right|done].
      * intros (-> & n & s & Hin & Hh & Hk). split; [done|].
        apply elem_of_cons in Hin as [[= -> <-]|Hin]; [|by exists n, s].
        destruct (Hf eq_refl) as (_ & _ & Hn). rewrite (Hn s eq_refl) in Hh. done.
    + split; [|done]. intros _. split; [done|]. exists name, s.
      split; [by left|done].
    + rewrite IH. split.
      * intros (_ & n & s' & Hin & Hh' & Hk'). split; [done|].
        exists n, s'. split; [by right|done].
      * intros (_ & n & s' & Hin & Hh' & Hk'). split; [done|].
        apply elem_of_cons in Hin as [[= -> ->]|Hin]; [congruence|].
        by exists n, s'.
Qed.


Lemma targets_loop_written isCheck targets p name text :
  (name, text) ∈ written (snd (targets_loop isCheck targets p)) →
  (name, text) ∈ written p
  ∨ isCheck = false
    ∧ ∃ source, (name, Some source) ∈ targets
        ∧ SpectrePatch.hasSpectre source = true
        ∧ includes source SpectrePatch.ATTRIBUTES = true
        ∧ text = SpectrePatch.code (SpectrePatch.removeSpectreBlock source).
Proof.
  revert p. induction targets as [|[n file] rest IH]; intros p; [by left|].
  destruct (targets_loop_cases isCheck n file rest p)
    as [(p' & -> & Hw & _)|[(s & _ & _ & _ & _ & ->)|(s & -> & -> & Hh & Hk & ->)]].
  - intros [H|(-> & s & Hin & H)]%IH; [left; congruence|].
    right. split; [done|]. exists s. split; [by right|done].
  - by left.
  - intros [H|(_ & s' & Hin & H)]%IH.
    + cbn in H. apply elem_of_app in H as [H|[= -> ->]%list_elem_of_singleton];
        [by left|].
      right. split; [done|]. exists s. split; [by left|done].
    + right. split; [done|]. exists s'. split; [by right|done].
Qed.

Lemma main_all_win32 isCheck nodePty winpty :
  main isCheck "win32" nodePty winpty
  = let r := targets_loop isCheck [(NODE_PTY, nodePty); (WINPTY, winpty)] start in
    let p := snd r in
    if fst r then mkRun 1 (written p) (printed p) else
    if isCheck then mkRun 0 (written p) (printed p) else
    if negb (foundAny p) then mkRun 0 (written p) (printed p ++ [NothingFound]) else
    if negb (patchedAny p) then mkRun 0 (written p) (printed p ++ [AlreadyRemoved])
    else mkRun 0 (written p) (printed p).
Proof. reflexivity. Qed.

Lemma main_all_elsewhere isCheck platform nodePty winpty :
  platform ≠ "win32" → main isCheck platform nodePty winpty = mkRun 0 [] [NotWindows].
Proof. intros H. unfold main. apply String.eqb_neq in H. by rewrite H. Qed.

(** What [main] wrote and whether it failed, read off the loop. *)
Lemma main_all_loop isCheck nodePty winpty :
  let r := targets_loop isCheck [(NODE_PTY, nodePty); (WINPTY, winpty)] start in
  let m := main isCheck "win32" nodePty winpty in
  wrote m = written (snd r)
  ∧ status m = (if fst r then 1 else 0)
  ∧ AlreadyRemoved ∉ said m.
Proof.
  cbv zeta. rewrite main_all_win32. cbv zeta.
  pose proof (targets_loop_never_says_removed isCheck
                [(NODE_PTY, nodePty); (WINPTY, winpty)] start) as Hs.
  pose proof (targets_loop_flags [(NODE_PTY, nodePty); (WINPTY, winpty)] start eq_refl)
    as Hf.
  destruct (targets_loop isCheck _ start) as [exited p] eqn:Hl. cbn [fst snd] in *.
  specialize (Hs (not_elem_of_nil _)).
  destruct exited; [done|]. destruct isCheck; [done|].
  rewrite Hl in Hf. cbn [fst snd] in Hf. specialize (Hf eq_refl).
  destruct (foundAny p) eqn:Hfound; cbn [negb].
  - rewrite <- Hf. done.
  - cbn [wrote status said]. split; [done|]. split; [done|].
    rewrite not_elem_of_app, not_elem_of_cons. split; [done|]. split; [done|].
    apply not_elem_of_nil.
Qed.

(** X23.  The closing message "SpectreMitigation already removed" can
    never be printed.  It needs a file found with the mitigation strings and
    none patched, but in a run that patches every file found so is either
    patched or ends the run with status 1 on the spot. *)
Theorem already_removed_is_never_said
    (isCheck : bool) (platform : string) (nodePty winpty : option string) :
  AlreadyRemoved ∉ said (main isCheck platform nodePty winpty).
Proof.
  destruct (decide (platform = "win32")) as [->|Hp].
  - apply main_all_loop.
  - rewrite main_all_elsewhere by done. cbn.
    rewrite not_elem_of_cons. split; [done|]. apply not_elem_of_nil.
Qed.

(** When no call throws, [Throwing.SpectreAll.targets_loop] leaves through
    [process.exit(1)] or reaches its end; it leaves early exactly when a
    target stops the run. *)
Lemma throwing_loop_leaves isCheck writeFileSync targets p :
  fst (Throwing.SpectreAll.targets_loop isCheck writeFileSync targets p)
  ≠ Throwing.SpectreAll.Finished
  ↔ ∃ t, t ∈ targets ∧ Throwing.SpectreAll.stops isCheck writeFileSync t.
Proof.
  revert p. induction targets as [|t rest IH]; intros p.
  - cbn. split; [done|]. by intros (? & ?%elem_of_nil & _).
  - cbn [Throwing.SpectreAll.targets_loop].
    assert (Hrest : ∀ q,
      ¬ Throwing.SpectreAll.stops isCheck writeFileSync t →
      fst (Throwing.SpectreAll.targets_loop isCheck writeFileSync rest q)
      ≠ Throwing.SpectreAll.Finished
      ↔ ∃ t0, t0 ∈ t :: rest
              ∧ Throwing.SpectreAll.stops isCheck writeFileSync t0).
    { intros q Hn. rewrite IH. split.
      - intros (t0 & Hin & Hs). exists t0. split; [by right|done].
      - intros (t0 & Hin & Hs). apply elem_of_cons in Hin as [->|Hin]; [done|].
        by exists t0. }
    assert (Hhere : Throwing.SpectreAll.stops isCheck writeFileSync t →
      ∃ t0, t0 ∈ t :: rest
            ∧ Throwing.SpectreAll.stops isCheck writeFileSync t0).
    { intros Hs. exists t. split; [by left|done]. }
    unfold Throwing.SpectreAll.stops in Hrest, Hhere |- *.
    destruct (Throwing.SpectreAll.exists_ t) eqn:He; cbn [negb].
    2:{ apply Hrest. by intros [? _]. }
    destruct (Throwing.SpectreAll.content t) as [source|] eqn:Hc.
    2:{ cbn [fst]. split; [intros _|done]. apply Hhere. auto. }
    cbv zeta. rewrite changed_is_key_present.
    destruct isCheck.
    { apply Hrest. intros (_ & [?|(s & _ & ? & _)]); done. }
    destruct (SpectrePatch.hasSpectre source) eqn:Hh; cbn [negb].
    2:{ apply Hrest. intros (_ & [?|(s & [= <-] & _ & ? & _)]); congruence. }
    destruct (includes source SpectrePatch.ATTRIBUTES) eqn:Hk; cbn [negb].
    2:{ cbn [fst]. split; [intros _|done]. apply Hhere. split; [done|].
        right. exists source. auto. }
    destruct (writeFileSync (Throwing.SpectreAll.name t)
                (SpectrePatch.code (SpectrePatch.removeSpectreBlock source)))
      eqn:Hw; cbn [negb].
    + apply Hrest.
      intros (_ & [?|(s & [= <-] & _ & _ & [?|?])]); congruence.
    + cbn [fst]. split; [intros _|done]. apply Hhere. split; [done|].
      right. exists source. auto.
Qed.

(** The exception the loop ends with names the target whose call threw. *)
Lemma throwing_loop_threw isCheck writeFileSync targets p call :
  fst (Throwing.SpectreAll.targets_loop isCheck writeFileSync targets p)
  = Throwing.SpectreAll.Threw call →
  ∃ t, t ∈ targets ∧ Throwing.SpectreAll.exists_ t = true
       ∧ (Throwing.SpectreAll.content t = None
          ∧ call = Throwing.ReadFile (Throwing.SpectreAll.name t)
          ∨ ∃ source,
              Throwing.SpectreAll.content t = Some source ∧ isCheck = false
              ∧ SpectrePatch.hasSpectre source = true
              ∧ includes source SpectrePatch.ATTRIBUTES = true
              ∧ call = Throwing.WriteFile (Throwing.SpectreAll.name t)
                         (SpectrePatch.code (SpectrePatch.removeSpectreBlock source))
              ∧ writeFileSync (Throwing.SpectreAll.name t)
                  (SpectrePatch.code (SpectrePatch.removeSpectreBlock source))
                = false).
Proof.
  revert p. induction targets as [|t rest IH]; intros p; [done|].
  cbn [Throwing.SpectreAll.targets_loop].
  assert (Hrest : ∀ q,
    fst (Throwing.SpectreAll.targets_loop isCheck writeFileSync rest q)
    = Throwing.SpectreAll.Threw call →
    ∃ t0, t0 ∈ t :: rest ∧ Throwing.SpectreAll.exists_ t0 = true
       ∧ (Throwing.SpectreAll.content t0 = None
          ∧ call = Throwing.ReadFile (Throwing.SpectreAll.name t0)
          ∨ ∃ source,
              Throwing.SpectreAll.content t0 = Some source ∧ isCheck = false
              ∧ SpectrePatch.hasSpectre source = true
              ∧ includes source SpectrePatch.ATTRIBUTES = true
              ∧ call = Throwing.WriteFile (Throwing.SpectreAll.name t0)
                         (SpectrePatch.code (SpectrePatch.removeSpectreBlock source))
              ∧ writeFileSync (Throwing.SpectreAll.name t0)
                  (SpectrePatch.code (SpectrePatch.removeSpectreBlock source))
                = false)).
  { intros q (t0 & Hin & H)%IH. exists t0. split; [by right|done]. }
  destruct (Throwing.SpectreAll.exists_ t) eqn:He; cbn [negb]; [|apply Hrest].
  destruct (Throwing.SpectreAll.content t) as [source|] eqn:Hc.
  2:{ cbn [fst]. intros [= <-]. exists t. split; [by left|]. auto. }
  cbv zeta. rewrite changed_is_key_present.
  destruct isCheck; [apply Hrest|].
  destruct (SpectrePatch.hasSpectre source) eqn:Hh; cbn [negb]; [|apply Hrest].
  destruct (includes source SpectrePatch.ATTRIBUTES) eqn:Hk; cbn [negb]; [|done].
  destruct (writeFileSync (Throwing.SpectreAll.name t)
              (SpectrePatch.code (SpectrePatch.removeSpectreBlock source)))
    eqn:Hw; cbn [negb]; [apply Hrest|].
  cbn [fst]. intros [= <-]. exists t. split; [by left|]. split; [done|].
  right. exists source. auto 10.
Qed.

(** X24.  The script for both files exits with 0 or 1, and with 1 exactly
    when it runs on win32 and one of the two build files stops it: the file
    exists and reading it throws, or, without [--check], it contains both
    [SpectreMitigation] and ['Spectre'] and either lacks the key
    ['msvs_configuration_attributes'] or writing it back throws.  An
    exception comes from the read or the write of one of the two files. *)
Theorem spectre_all_exit_code
    (isCheck : bool) (platform : string) (nodePty winpty : bool * option string)
    (writeFileSync : string → string → bool) :
  let r := Throwing.SpectreAll.main isCheck platform nodePty winpty writeFileSync in
  let targets :=
    [ Throwing.SpectreAll.mkTarget NODE_PTY (fst nodePty) (snd nodePty);
      Throwing.SpectreAll.mkTarget WINPTY (fst winpty) (snd winpty) ] in
  (status (snd r) = 0 ∨ status (snd r) = 1)
  ∧ (status (snd r) = 1 ↔ fst r ≠ Throwing.SpectreAll.Finished)
  ∧ (status (snd r) = 1
     ↔ platform = "win32"
       ∧ ∃ t, t ∈ targets
           ∧ Throwing.SpectreAll.exists_ t = true
           ∧ (Throwing.SpectreAll.content t = None
              ∨ ∃ source,
                  Throwing.SpectreAll.content t = Some source ∧ isCheck = false
                  ∧ SpectrePatch.hasSpectre source = true
                  ∧ (includes source SpectrePatch.ATTRIBUTES = false
                     ∨ writeFileSync (Throwing.SpectreAll.name t)
                         (SpectrePatch.code
                            (SpectrePatch.removeSpectreBlock source)) = false)))
  ∧ (∀ call, fst r = Throwing.SpectreAll.Threw call →
       ∃ t, t ∈ targets
         ∧ (call = Throwing.ReadFile (Throwing.SpectreAll.name t)
            ∨ ∃ source,
                Throwing.SpectreAll.content t = Some source
                ∧ call = Throwing.WriteFile (Throwing.SpectreAll.name t)
                           (SpectrePatch.code
                              (SpectrePatch.removeSpectreBlock source)))).
Proof.
  cbv zeta. unfold Throwing.SpectreAll.main.
  destruct (decide (platform = "win32")) as [->|Hp].
  2:{ apply String.eqb_neq in Hp as Hp'. rewrite Hp'. cbn.
      split; [by left|]. split; [done|]. split; [|done].
      split; [done|]. by intros (? & _). }
  change (negb ("win32" =? "win32")%string) with false. cbv iota zeta.
  pose proof (throwing_loop_leaves isCheck writeFileSync
    [ Throwing.SpectreAll.mkTarget NODE_PTY (fst nodePty) (snd nodePty);
      Throwing.SpectreAll.mkTarget WINPTY (fst winpty) (snd winpty) ] start) as Hl.
  pose proof (throwing_loop_threw isCheck writeFileSync
    [ Throwing.SpectreAll.mkTarget NODE_PTY (fst nodePty) (snd nodePty);
      Throwing.SpectreAll.mkTarget WINPTY (fst winpty) (snd winpty) ] start) as Ht.
  unfold Throwing.SpectreAll.stops in Hl.
  destruct (Throwing.SpectreAll.targets_loop isCheck writeFileSync _ start)
    as [l p]. cbn [fst snd] in *.
  destruct l; cbn [fst snd status].
  - assert (Hs : status
                   (if isCheck then mkRun 0 (written p) (printed p)
                    else if negb (foundAny p)
                      then mkRun 0 (written p) (printed p ++ [NothingFound])
                      else if negb (patchedAny p)
                        then mkRun 0 (written p) (printed p ++ [AlreadyRemoved])
                        else mkRun 0 (written p) (printed p)) = 0)
      by (by repeat case_match).
    rewrite Hs. split; [by left|]. split; [done|]. split; [|done].
    split; [done|]. intros [_ H]. apply Hl in H. done.
  - split; [by right|]. split; [done|]. split; [|done].
    split; [intros _|done]. split; [done|]. by apply Hl.
  - split; [by right|]. split; [done|]. split.
    + split; [intros _|done]. split; [done|]. by apply Hl.
    + intros c [= <-]. destruct (Ht call eq_refl) as (t & Hin & _ & H).
      exists t. split; [done|].
      destruct H as [[_ ->]|(s & Hc & _ & _ & _ & -> & _)]; [by left|].
      right. by exists s.
Qed.

(** X25.  Every file the script writes is one of the two build files, it
    was found with both mitigation strings and with the key, the text
    written is [removeSpectreBlock] of its content and lacks the key; and
    nothing is written with [--check] or off win32. *)
Theorem spectre_all_writes
    (isCheck : bool) (platform : string) (nodePty winpty : option string)
    (name text : string) :
  (name, text) ∈ wrote (main isCheck platform nodePty winpty) →
  platform = "win32" ∧ isCheck = false
  ∧ includes text SpectrePatch.ATTRIBUTES = false
  ∧ ∃ source,
      (name = NODE_PTY ∧ nodePty = Some source
       ∨ name = WINPTY ∧ winpty = Some source)
      ∧ SpectrePatch.hasSpectre source = true
      ∧ includes source SpectrePatch.ATTRIBUTES = true
      ∧ text = SpectrePatch.code (SpectrePatch.removeSpectreBlock source).
Proof.
  destruct (decide (platform = "win32")) as [->|Hp].
  - destruct (main_all_loop isCheck nodePty winpty) as (-> & _ & _).
    intros [H|(-> & s & Hin & Hh & Hk & ->)]%targets_loop_written;
      [by apply elem_of_nil in H|].
    split; [done|]. split; [done|]. split; [apply code_lacks_key|].
    exists s. split; [|done].
    apply elem_of_cons in Hin as [[= -> <-]|Hin]; [by left|].
    apply list_elem_of_singleton in Hin as [= -> <-]. by right.
  - rewrite main_all_elsewhere by done. cbn. by intros ?%elem_of_nil.
Qed.

Lemma spectre_all_writes_witness :
  includes SpectreSamples.gyp_clean SpectrePatch.ATTRIBUTES = false.
Proof.
  destruct (spectre_all_writes false "win32" (Some SpectreSamples.gyp) None
              NODE_PTY SpectreSamples.gyp_clean) as (_ & _ & H & _).
  - vm_compute. apply list_elem_of_singleton. reflexivity.
  - exact H.
Defined.

(** X26.  The script can fail after it has already changed a file.  When
    the first build file has the mitigation strings and the key, and the
    second has the strings without the key, the run rewrites the first
    file, then warns about the second and exits with status 1. *)
Theorem spectre_all_partial_write (first second : string) :
  SpectrePatch.hasSpectre first = true →
  includes first SpectrePatch.ATTRIBUTES = true →
  SpectrePatch.hasSpectre second = true →
  includes second SpectrePatch.ATTRIBUTES = false →
  main false "win32" (Some first) (Some second)
  = mkRun 1
      [(NODE_PTY, SpectrePatch.code (SpectrePatch.removeSpectreBlock first))]
      [BlockRemoved NODE_PTY; BlockNotFound WINPTY].
Proof.
  intros Hh1 Hk1 Hh2 Hk2. rewrite main_all_win32. cbv zeta.
  rewrite targets_loop_patch by done.
  rewrite targets_loop_drift by done.
  reflexivity.
Qed.

Lemma spectre_all_partial_write_witness :
  main false "win32" (Some SpectreSamples.gyp) (Some gyp_drifted)
  = mkRun 1 [(NODE_PTY, SpectreSamples.gyp_clean)]
            [BlockRemoved NODE_PTY; BlockNotFound WINPTY].
Proof.
  etrans.
  - apply (spectre_all_partial_write SpectreSamples.gyp gyp_drifted);
      vm_compute; reflexivity.
  - vm_compute; reflexivity.
Defined.

End SpectreAllProperties.

(** * The performance patch *)

Section PerfProperties.
Import PerfPatch.

Lemma find_from_unfold s needle pos :
  find_from s needle pos
  = if String.prefix needle s then Some pos
    else match s with
         | EmptyString => None
         | String _ s' => find_from s' needle (S pos)
         end.
Proof. by destruct s. Qed.

Lemma find_from_none s needle pos :
  find_from s needle pos = None ↔ includes s needle = false.
Proof.
  revert pos. induction s as [|c s IH]; intros pos;
    rewrite find_from_unfold, includes_unfold;
    destruct (String.prefix needle _); cbn [orb]; done.
Qed.

Lemma find_from_ge s needle pos i :
  find_from s needle pos = Some i → (pos ≤ i)%nat.
Proof.
  revert pos. induction s as [|c s IH]; intros pos;
    rewrite find_from_unfold; destruct (String.prefix needle _);
    try (intros [= <-]; lia); try done.
  intros H%IH. lia.
Qed.

Lemma indexOf_0 s needle :
  indexOf s needle 0
  = match find_from s needle 0 with
    | Some i => Z.of_nat i
    | None => -1
    end.
Proof.
  unfold indexOf.
  replace (Z.to_nat (Z.min (Z.max 0 0) (Z.of_nat (String.length s)))) with 0%nat
    by lia.
  by rewrite drop_0.
Qed.

Lemma indexOf_absent s needle :
  (indexOf s needle 0 =? -1) = negb (includes s needle).
Proof.
  rewrite indexOf_0. destruct (find_from s needle 0) as [i|] eqn:Hf.
  - destruct (includes s needle) eqn:Hi.
    + cbn [negb]. apply Z.eqb_neq. lia.
    + apply (find_from_none s needle 0) in Hi. congruence.
  - apply find_from_none in Hf. rewrite Hf. reflexivity.
Qed.

Lemma indexOf_head s needle :
  (indexOf s needle 0 =? 0) = String.prefix needle s.
Proof.
  rewrite indexOf_0, find_from_unfold.
  destruct (String.prefix needle s); [reflexivity|].
  destruct s as [|c s]; [reflexivity|].
  destruct (find_from s needle 1) as [i|] eqn:Hf; [|reflexivity].
  apply find_from_ge in Hf. apply Z.eqb_neq. lia.
Qed.

Lemma slice_from_append a b :
  slice_from (a +:+ b) (Z.of_nat (String.length a)) = b.
Proof.
  unfold slice_from. rewrite clamp_index_in_range.
  - by rewrite Nat2Z.id, drop_append_length.
  - rewrite length_append. lia.
Qed.

(** The replacement texts hold no [$], so [replace] takes them literally. *)
Lemma replacements_are_literal :
  forallb (fun r => negb (includes r "$"))
    [ install_replacement; gone_replacement; finish_replacement;
      unresponsive_replacement; fail_replacement; recover_replacement ] = true.
Proof. vm_compute. reflexivity. Qed.

(** ** Each injector and its marker *)

Lemma injectPerfHelpers_marker s r :
  injectPerfHelpers s = Some r →
  hasMarker (contents r) PERF_MARKER = true
  ∧ changed r = negb (hasMarker s PERF_MARKER)
  ∧ (changed r = false → contents r = s).
Proof.
  unfold injectPerfHelpers. destruct (hasMarker s PERF_MARKER) eqn:Hm.
  - by intros [= <-].
  - cbv zeta. destruct (negb _); [done|]. intros [= <-]. cbn [contents changed].
    split; [|done]. unfold hasMarker, perf_injection.
    do 2 apply includes_append_r. apply includes_append_l.
    apply includes_prefix, prefix_append.
Qed.

Lemma injectWindowHooks_marker s r :
  injectWindowHooks s = Some r →
  hasMarker (contents r) WINDOW_MARKER = true
  ∧ changed r = negb (hasMarker s WINDOW_MARKER)
  ∧ (changed r = false → contents r = s).
Proof.
  unfold injectWindowHooks. destruct (hasMarker s WINDOW_MARKER) eqn:Hm.
  - by intros [= <-].
  - cbv zeta. destruct (_ =? _); [done|]. intros [= <-]. cbn [contents changed].
    split; [|done]. unfold hasMarker.
    apply includes_append_r, includes_append_l. vm_compute. reflexivity.
Qed.

Lemma injectWhenReadyOptimization_marker s r :
  injectWhenReadyOptimization s = Some r →
  hasMarker (contents r) STARTUP_MARKER = true
  ∧ changed r = negb (hasMarker s STARTUP_MARKER)
  ∧ (changed r = false → contents r = s).
Proof.
  unfold injectWhenReadyOptimization. destruct (hasMarker s STARTUP_MARKER) eqn:Hm.
  - by intros [= <-].
  - cbv zeta. destruct (_ =? _); [done|]. destruct (_ =? _); [done|].
    intros [= <-]. cbn [contents changed].
    split; [|done]. unfold hasMarker.
    apply includes_append_r, includes_append_l. vm_compute. reflexivity.
Qed.

Lemma required_has_diag out :
  forallb (includes out) requiredSignals = true → includes out DIAG_MARKER = true.
Proof. intros H. by apply andb_prop in H as [H _]. Qed.

Lemma injectDiagnosticsMarks_marker s r :
  injectDiagnosticsMarks s = Some r →
  hasMarker (contents r) DIAG_MARKER = true
  ∧ changed r = negb (hasMarker s DIAG_MARKER)
  ∧ (changed r = false → contents r = s).
Proof.
  unfold injectDiagnosticsMarks. destruct (hasMarker s DIAG_MARKER) eqn:Hm.
  - by intros [= <-].
  - destruct (negb _); [done|].
    set (out := replace _ recover_pattern recover_replacement).
    cbv zeta.
    destruct (forallb (includes out) requiredSignals) eqn:Hf; [|done].
    intros [= <-]. split; [|done]. by apply required_has_diag.
Qed.

Lemma injectProcessErrorMarks_marker s r :
  injectProcessErrorMarks s = Some r →
  hasMarker (contents r) PROCESS_MARKER = true
  ∧ changed r = negb (hasMarker s PROCESS_MARKER)
  ∧ (changed r = false → contents r = s).
Proof.
  unfold injectProcessErrorMarks. destruct (hasMarker s PROCESS_MARKER) eqn:Hm.
  - by intros [= <-].
  - cbv zeta. destruct (_ =? _); [done|]. intros [= <-]. cbn [contents changed].
    split; [|done]. unfold hasMarker.
    apply includes_append_r, includes_append_l. vm_compute. reflexivity.
Qed.

Lemma injector_marker m f s r :
  (m, f) ∈ injectors → f s = Some r →
  hasMarker (contents r) m = true
  ∧ changed r = negb (hasMarker s m)
  ∧ (changed r = false → contents r = s).
Proof.
  unfold injectors. intros Hin.
  repeat (apply elem_of_cons in Hin as [[= -> ->]|Hin]).
  - apply injectPerfHelpers_marker.
  - apply injectWindowHooks_marker.
  - apply injectWhenReadyOptimization_marker.
  - apply injectDiagnosticsMarks_marker.
  - apply injectProcessErrorMarks_marker.
  - by apply elem_of_nil in Hin.
Qed.

(** With its marker in the text an injector gives the text back. *)
Lemma injector_marked m f s :
  (m, f) ∈ injectors → hasMarker s m = true → f s = Some (mkInjected false s).
Proof.
  unfold injectors. intros Hin Hm.
  repeat (apply elem_of_cons in Hin as [[= -> ->]|Hin]);
    [unfold injectPerfHelpers|unfold injectWindowHooks
    |unfold injectWhenReadyOptimization|unfold injectDiagnosticsMarks
    |unfold injectProcessErrorMarks|by apply elem_of_nil in Hin];
    by rewrite Hm.
Qed.

(** X27.  Each of the five injectors is guarded by its marker.  A call
    that returns has put the marker into the text it returns; it reports
    [changed] exactly when the marker was missing from its input, and when
    it reports no change it returns its input.  So a second call on what an
    injector returned changes nothing. *)
Theorem injectors_are_idempotent
    (marker : string) (inject : string → option injected)
    (mainBundle : string) (r : injected) :
  (marker, inject) ∈ injectors →
  inject mainBundle = Some r →
  hasMarker (contents r) marker = true
  ∧ changed r = negb (hasMarker mainBundle marker)
  ∧ (changed r = false → contents r = mainBundle)
  ∧ inject (contents r) = Some (mkInjected false (contents r)).
Proof.
  intros Hin Hr.
  destruct (injector_marker marker inject mainBundle r Hin Hr) as (H1 & H2 & H3).
  repeat split; try done. by apply (injector_marked marker).
Qed.

Lemma injectors_are_idempotent_witness :
  ∃ r, injectWhenReadyOptimization plain_bundle = Some r
       ∧ changed r = true
       ∧ injectWhenReadyOptimization (contents r)
         = Some (mkInjected false (contents r)).
Proof.
  destruct (injectWhenReadyOptimization plain_bundle) as [r|] eqn:E.
  - exists r. split; [reflexivity|].
    destruct (injectors_are_idempotent STARTUP_MARKER injectWhenReadyOptimization
                plain_bundle r) as (_ & H2 & _ & H4).
    + unfold injectors. do 2 right. left.
    + exact E.
    + split; [|exact H4]. etrans; [exact H2|]. vm_compute. reflexivity.
  - vm_compute in E. discriminate E.
Defined.

(** ** The driver *)

Lemma all_markers_unfold s :
  all_markers s
  = hasMarker s PERF_MARKER
    && (hasMarker s WINDOW_MARKER
        && (hasMarker s STARTUP_MARKER
            && (hasMarker s DIAG_MARKER && (hasMarker s PROCESS_MARKER && true)))).
Proof. reflexivity. Qed.

Lemma locate_reads buildDir name :
  locateMainBundle buildDir = Some name → ∃ original, buildDir name = Some original.
Proof.
  unfold locateMainBundle. destruct (buildDir "main.js"); [|done].
  destruct (match_require _) as [b|]; [|done].
  destruct (buildDir b) as [original|] eqn:Hb; [|done].
  intros [= <-]. by exists original.
Qed.

(** The three ways a run without [--check] on a located bundle can end. *)
Lemma main_apply_cases buildDir name original :
  locateMainBundle buildDir = Some name → buildDir name = Some original →
  main false buildDir = exit1
  ∨ (main false buildDir = mkRun 0 None AlreadyPatched
     ∧ all_markers original = true)
  ∨ (∃ c, main false buildDir = mkRun 0 (Some (name, c)) Patched
          ∧ hasMarker c PROCESS_MARKER = true
          ∧ all_markers original = false).
Proof.
  intros Hl Hb. unfold main. rewrite Hl, Hb. cbv zeta iota.
  rewrite all_markers_unfold.
  destruct (injectPerfHelpers original) as [r1|] eqn:E1; [|by left].
  apply injectPerfHelpers_marker in E1 as (_ & C1 & S1).
  destruct (injectWindowHooks (contents r1)) as [r2|] eqn:E2; [|by left].
  apply injectWindowHooks_marker in E2 as (_ & C2 & S2).
  destruct (injectWhenReadyOptimization (contents r2)) as [r3|] eqn:E3; [|by left].
  apply injectWhenReadyOptimization_marker in E3 as (_ & C3 & S3).
  destruct (injectDiagnosticsMarks (contents r3)) as [r4|] eqn:E4; [|by left].
  apply injectDiagnosticsMarks_marker in E4 as (_ & C4 & S4).
  destruct (injectProcessErrorMarks (contents r4)) as [r5|] eqn:E5; [|by left].
  apply injectProcessErrorMarks_marker in E5 as (M5 & C5 & S5).
  right.
  destruct (changed r1).
  { right. exists (contents r5). cbn [orb negb]. split; [done|]. split; [done|].
    symmetry in C1. apply negb_true_iff in C1. by rewrite C1. }
  rewrite (S1 eq_refl) in *. symmetry in C1. apply negb_false_iff in C1.
  rewrite C1. clear S1.
  destruct (changed r2).
  { right. exists (contents r5). cbn [orb negb]. split; [done|]. split; [done|].
    symmetry in C2. apply negb_true_iff in C2. rewrite C2. apply andb_false_r. }
  rewrite (S2 eq_refl) in *. symmetry in C2. apply negb_false_iff in C2.
  rewrite C2. clear S2.
  destruct (changed r3).
  { right. exists (contents r5). cbn [orb negb]. split; [done|]. split; [done|].
    symmetry in C3. apply negb_true_iff in C3. by rewrite C3. }
  rewrite (S3 eq_refl) in *. symmetry in C3. apply negb_false_iff in C3.
  rewrite C3. clear S3.
  destruct (changed r4).
  { right. exists (contents r5). cbn [orb negb]. split; [done|]. split; [done|].
    symmetry in C4. apply negb_true_iff in C4. by rewrite C4. }
  rewrite (S4 eq_refl) in *. symmetry in C4. apply negb_false_iff in C4.
  rewrite C4. clear S4.
  destruct (changed r5).
  { right. exists (contents r5). cbn [orb negb]. split; [done|]. split; [done|].
    symmetry in C5. apply negb_true_iff in C5. by rewrite C5. }
  symmetry in C5. apply negb_false_iff in C5. rewrite C5.
  left. by cbn [orb negb].
Qed.

Ltac in_injectors :=
  unfold injectors;
  first [ apply list_elem_of_here
        | do 1 apply list_elem_of_further; apply list_elem_of_here
        | do 2 apply list_elem_of_further; apply list_elem_of_here
        | do 3 apply list_elem_of_further; apply list_elem_of_here
        | do 4 apply list_elem_of_further; apply list_elem_of_here ].

Lemma main_already_patched buildDir name original :
  locateMainBundle buildDir = Some name → buildDir name = Some original →
  all_markers original = true →
  main false buildDir = mkRun 0 None AlreadyPatched.
Proof.
  intros Hl Hb. rewrite all_markers_unfold.
  intros (H1 & (H2 & (H3 & (H4 & (H5 & _)%andb_prop)%andb_prop)%andb_prop
         )%andb_prop)%andb_prop.
  unfold main. rewrite Hl, Hb. cbv zeta iota.
  rewrite (injector_marked PERF_MARKER injectPerfHelpers original)
    by first [done | in_injectors].
  cbn [contents changed].
  rewrite (injector_marked WINDOW_MARKER injectWindowHooks original)
    by first [done | in_injectors].
  cbn [contents changed].
  rewrite (injector_marked STARTUP_MARKER injectWhenReadyOptimization original)
    by first [done | in_injectors].
  cbn [contents changed].
  rewrite (injector_marked DIAG_MARKER injectDiagnosticsMarks original)
    by first [done | in_injectors].
  cbn [contents changed].
  rewrite (injector_marked PROCESS_MARKER injectProcessErrorMarks original)
    by first [done | in_injectors].
  reflexivity.
Qed.

(** ** Runs in which a call throws *)

(** [Throwing.Perf.locateMainBundle] against [locateMainBundle] on the
    directory of the files that exist and can be read. *)
Lemma throwing_locate existsSync readFileSync name :
  Throwing.Perf.locateMainBundle existsSync readFileSync
  = Throwing.Ended (Some name)
  ↔ ∃ entry, existsSync "main.js" = true ∧ readFileSync "main.js" = Some entry
             ∧ match_require entry = Some name ∧ existsSync name = true.
Proof.
  unfold Throwing.Perf.locateMainBundle.
  destruct (existsSync "main.js"); cbn [negb].
  2:{ split; [done|]. by intros (? & ? & _). }
  destruct (readFileSync "main.js") as [entry|].
  2:{ split; [done|]. by intros (? & _ & ? & _). }
  destruct (match_require entry) as [b|] eqn:Hm.
  2:{ split; [done|]. intros (? & _ & [= <-] & ? & _). congruence. }
  destruct (existsSync b) eqn:Hb; cbn [negb].
  - split.
    + intros [= <-]. by exists entry.
    + intros (? & _ & [= <-] & ? & _). congruence.
  - split; [done|]. intros (? & _ & [= <-] & ? & ?). congruence.
Qed.

Lemma throwing_locate_readable existsSync readFileSync name original :
  Throwing.Perf.locateMainBundle existsSync readFileSync
  = Throwing.Ended (Some name) →
  readFileSync name = Some original →
  locateMainBundle (Throwing.Perf.buildDir existsSync readFileSync) = Some name
  ∧ Throwing.Perf.buildDir existsSync readFileSync name = Some original.
Proof.
  intros (entry & He & Hr & Hm & Hb)%throwing_locate Ho.
  unfold locateMainBundle, Throwing.Perf.buildDir.
  by rewrite He, Hr, Hm, Hb, Ho.
Qed.

(** From a readable bundle on, the run is the one of [main] up to the
    write. *)
Lemma throwing_main_located isCheck existsSync readFileSync writeFileSync
    name original :
  Throwing.Perf.locateMainBundle existsSync readFileSync
  = Throwing.Ended (Some name) →
  readFileSync name = Some original →
  Throwing.Perf.main isCheck existsSync readFileSync writeFileSync
  = let old := main isCheck (Throwing.Perf.buildDir existsSync readFileSync) in
    match wrote old with
    | Some (path, text) =>
        if writeFileSync path text then Throwing.Ended old
        else Throwing.Thrown (Throwing.WriteFile path text)
    | None => Throwing.Ended old
    end.
Proof.
  intros Hl Ho.
  destruct (throwing_locate_readable _ _ _ _ Hl Ho) as [Hl' Ho'].
  unfold Throwing.Perf.main, main. rewrite Hl, Hl', Ho, Ho'. cbv zeta.
  destruct isCheck; [done|].
  destruct (injectPerfHelpers original) as [r1|]; [|done].
  destruct (injectWindowHooks (contents r1)) as [r2|]; [|done].
  destruct (injectWhenReadyOptimization (contents r2)) as [r3|]; [|done].
  destruct (injectDiagnosticsMarks (contents r3)) as [r4|]; [|done].
  destruct (injectProcessErrorMarks (contents r4)) as [r5|]; [|done].
  destruct (negb _); [done|]. cbn [wrote].
  by destruct (writeFileSync name (contents r5)).
Qed.

(** X28.  How the performance patch ends.  The exit status is 0 or 1.  An
    exception comes from reading [main.js], from reading the bundle it
    names, or from writing that bundle, and a run that ends through
    [process.exit(1)] has not called [fs.writeFileSync].  With [--check]
    the call is never made, and the status is 0 exactly when the bundle is
    located and can be read.  Without it, on a located and readable bundle,
    the run ends with "already patched" exactly when the bundle holds all
    five markers; and whatever is passed to [fs.writeFileSync] goes to the
    located bundle, holds the process-errors marker, and replaces a text
    that lacked at least one marker. *)
Theorem perf_main_contract
    (isCheck : bool) (existsSync : string → bool)
    (readFileSync : string → option string)
    (writeFileSync : string → string → bool) :
  let r := Throwing.Perf.main isCheck existsSync readFileSync writeFileSync in
  let located name :=
    Throwing.Perf.locateMainBundle existsSync readFileSync
    = Throwing.Ended (Some name) in
  (Throwing.Perf.exit_status r = 0 ∨ Throwing.Perf.exit_status r = 1)
  ∧ (∀ call, r = Throwing.Thrown call →
       call = Throwing.ReadFile "main.js"
         ∧ existsSync "main.js" = true ∧ readFileSync "main.js" = None
       ∨ (∃ name, call = Throwing.ReadFile name ∧ located name
                  ∧ readFileSync name = None)
       ∨ (∃ name text, call = Throwing.WriteFile name text ∧ located name
                       ∧ isCheck = false ∧ writeFileSync name text = false))
  ∧ (∀ o, r = Throwing.Ended o → status o = 1 → wrote o = None)
  ∧ (isCheck = true →
     Throwing.Perf.passed_to_write r = None
     ∧ (Throwing.Perf.exit_status r = 0
        ↔ ∃ name original, located name ∧ readFileSync name = Some original))
  ∧ (∀ name original,
       located name → readFileSync name = Some original → isCheck = false →
       (r = Throwing.Ended (mkRun 0 None AlreadyPatched)
        ↔ all_markers original = true))
  ∧ (∀ name c,
       Throwing.Perf.passed_to_write r = Some (name, c) →
       isCheck = false ∧ located name
       ∧ hasMarker c PROCESS_MARKER = true
       ∧ ∃ original, readFileSync name = Some original
                     ∧ all_markers original = false).
Proof.
  cbv zeta.
  destruct (Throwing.Perf.locateMainBundle existsSync readFileSync)
    as [call|[name|]] eqn:Hl.
  - (* reading main.js threw *)
    assert (Hc : call = Throwing.ReadFile "main.js"
                 ∧ existsSync "main.js" = true ∧ readFileSync "main.js" = None).
    { revert Hl. unfold Throwing.Perf.locateMainBundle.
      destruct (existsSync "main.js"); [|done]. cbn [negb].
      destruct (readFileSync "main.js"); [by repeat case_match|].
      by intros [= <-]. }
    unfold Throwing.Perf.main. rewrite Hl.
    cbn [Throwing.Perf.exit_status Throwing.Perf.passed_to_write].
    split; [by right|]. split; [intros c [= <-]; by left|]. split; [done|].
    split.
    { intros _. split; [by destruct Hc as [-> _]|]. split; [done|].
      by intros (? & ? & ? & _). }
    split; [done|]. destruct Hc as [-> _]. done.
  - destruct (readFileSync name) as [original|] eqn:Ho.
    2:{ (* reading the bundle threw *)
        unfold Throwing.Perf.main. rewrite Hl, Ho.
        cbn [Throwing.Perf.exit_status Throwing.Perf.passed_to_write].
        split; [by right|]. split.
        { intros c [= <-]. right. left. by exists name. }
        split; [done|]. split.
        { intros _. split; [done|]. split; [done|].
          intros (n & o & [= <-] & Hn). congruence. }
        split; [|done]. intros n o [= <-] Hn. congruence. }
    rewrite (throwing_main_located isCheck _ _ writeFileSync name original Hl Ho).
    destruct (throwing_locate_readable _ _ _ _ Hl Ho) as [Hl' Ho'].
    cbv zeta.
    set (bd := Throwing.Perf.buildDir existsSync readFileSync) in *.
    destruct isCheck.
    + unfold main. rewrite Hl', Ho'. cbv zeta iota.
      cbn [wrote Throwing.Perf.exit_status Throwing.Perf.passed_to_write status].
      split; [by left|]. split; [done|]. split; [by intros o [= <-]|].
      split; [|done]. intros _. split; [done|]. split; [|done].
      intros _. by exists name, original.
    + destruct (main_apply_cases bd name original Hl' Ho')
        as [H|[[H Hm]|(c & H & Hp & Hm)]]; rewrite H;
        cbn [wrote exit1 Throwing.Perf.exit_status Throwing.Perf.passed_to_write
             status].
      * split; [by right|]. split; [done|]. split; [by intros o [= <-]|].
        split; [done|]. split; [|done].
        intros n o [= <-] Hn _. split; [done|]. intros Ha. exfalso.
        rewrite Ho in Hn. injection Hn as <-.
        pose proof (main_already_patched bd name original Hl' Ho' Ha) as H'.
        rewrite H in H'. discriminate H'.
      * split; [by left|]. split; [done|]. split; [by intros o [= <-]|].
        split; [done|]. split; [|done].
        intros n o [= <-] Hn _. rewrite Ho in Hn. injection Hn as <-. done.
      * destruct (writeFileSync name c) eqn:Hw;
          cbn [Throwing.Perf.exit_status Throwing.Perf.passed_to_write status
               wrote].
        -- split; [by left|]. split; [done|]. split; [by intros o [= <-]|].
           split; [done|]. split.
           ++ intros n o [= <-] Hn _. rewrite Ho in Hn. injection Hn as <-.
              split; [done|]. congruence.
           ++ intros n c' [= <- <-]. split; [done|]. split; [done|].
              split; [done|]. by exists original.
        -- split; [by right|]. split.
           { intros call [= <-]. right. right. by exists name, c. }
           split; [done|]. split; [done|]. split.
           ++ intros n o [= <-] Hn _. rewrite Ho in Hn. injection Hn as <-.
              split; [done|]. congruence.
           ++ intros n c' [= <- <-]. split; [done|]. split; [done|].
              split; [done|]. by exists original.
  - unfold Throwing.Perf.main. rewrite Hl.
    cbn [Throwing.Perf.exit_status Throwing.Perf.passed_to_write status wrote
         exit1].
    split; [by right|]. split; [done|]. split; [by intros o [= <-]|]. split.
    { intros _. split; [done|]. split; [done|]. by intros (? & ? & ? & _). }
    split; done.
Qed.

(** ** The helpers at the head of the bundle *)

Lemma length_perf_injection : String.length perf_injection = 1804%nat.
Proof. vm_compute. reflexivity. Qed.

Lemma perf_injection_has_process_needle :
  includes perf_injection process_needle = true.
Proof. vm_compute. reflexivity. Qed.

Lemma injectProcessErrorMarks_returns s :
  includes s process_needle = true → injectProcessErrorMarks s ≠ None.
Proof.
  intros H. unfold injectProcessErrorMarks.
  destruct (hasMarker s PROCESS_MARKER); [done|]. cbv zeta.
  by rewrite indexOf_absent, H.
Qed.

(** X29.  On a bundle without the perf marker [injectPerfHelpers] returns
    exactly when the bundle starts with ["use strict";], and then it puts a
    line feed and its helper text right behind that directive and leaves the
    rest as it is: the text grows by 1805 code units.  What it returns
    always holds the function [__codexPerfMark], so
    [injectProcessErrorMarks] never fails on it. *)
Theorem injectPerfHelpers_at_the_head (mainBundle : string) (r : injected) :
  hasMarker mainBundle PERF_MARKER = false →
  (injectPerfHelpers mainBundle = Some r
   ↔ ∃ rest, mainBundle = perf_needle +:+ rest
             ∧ r = mkInjected true
                     (perf_needle +:+ nl +:+ perf_injection +:+ rest))
  ∧ (injectPerfHelpers mainBundle = Some r →
     String.length (contents r) = (String.length mainBundle + 1805)%nat
     ∧ injectProcessErrorMarks (contents r) ≠ None).
Proof.
  intros Hm.
  assert (Hiff : injectPerfHelpers mainBundle = Some r
                 ↔ ∃ rest, mainBundle = perf_needle +:+ rest
                           ∧ r = mkInjected true
                                   (perf_needle +:+ nl +:+ perf_injection +:+ rest)).
  { unfold injectPerfHelpers. rewrite Hm. cbv zeta. rewrite indexOf_head. split.
    - destruct (String.prefix perf_needle mainBundle) eqn:Hp; [|done].
      cbn [negb]. intros [= <-]. apply prefix_split in Hp.
      exists (drop (String.length perf_needle) mainBundle). split; [done|].
      do 4 f_equal. rewrite Hp at 1. apply slice_from_append.
    - intros (rest & -> & ->). rewrite prefix_append. cbn [negb].
      by rewrite slice_from_append. }
  split; [exact Hiff|]. intros (rest & -> & ->)%Hiff. cbn [contents]. split.
  - rewrite !length_append, length_perf_injection.
    change (String.length nl) with 1%nat. lia.
  - apply injectProcessErrorMarks_returns.
    do 2 apply includes_append_r. apply includes_append_l.
    apply perf_injection_has_process_needle.
Qed.

Lemma injectPerfHelpers_at_the_head_witness :
  ∃ r, injectPerfHelpers plain_bundle = Some r
       ∧ String.length (contents r) = (String.length plain_bundle + 1805)%nat
       ∧ injectProcessErrorMarks (contents r) ≠ None.
Proof.
  destruct (injectPerfHelpers plain_bundle) as [r|] eqn:E.
  - exists r. split; [reflexivity|].
    destruct (injectPerfHelpers_at_the_head plain_bundle r) as [_ H].
    + vm_compute. reflexivity.
    + exact (H E).
  - vm_compute in E. discriminate E.
Defined.

(** ** Finding the bundle *)

Lemma span_unquoted_split s :
  s = fst (span_unquoted s) +:+ snd (span_unquoted s).
Proof.
  induction s as [|c s IH]; [done|]. simpl.
  destruct (is_quote c); [done|]. cbn [fst snd]. by rewrite append_cons, <- IH.
Qed.

Lemma span_unquoted_free s q :
  is_quote q = true → SpectrePatch.free_of q (fst (span_unquoted s)) = true.
Proof.
  intros Hq. induction s as [|c s IH]; [done|]. simpl.
  destruct (is_quote c) eqn:Hc; [done|]. cbn [fst]. simpl. rewrite IH.
  rewrite bool_decide_eq_false_2; [done|]. intros ->. congruence.
Qed.

Lemma strip_prefix_split p s rest :
  strip_prefix p s = Some rest → s = p +:+ rest.
Proof.
  unfold strip_prefix. destruct (String.prefix p s) eqn:Hp; [|done].
  intros [= <-]. by apply prefix_split.
Qed.

Lemma ends_with_split s suffix :
  ends_with s suffix = true →
  s = take (String.length s - String.length suffix) s +:+ suffix.
Proof.
  unfold ends_with. intros H%String.eqb_eq.
  set (n := (String.length s - String.length suffix)%nat) in *.
  rewrite <- H. symmetry. apply take_drop_append.
Qed.

(** What the expression matches at the head of a text. *)
Lemma match_require_here_shape s name :
  match_require_here s = Some name →
  ∃ stem a q tail,
    name = "main-" +:+ stem +:+ ".js" ∧ stem ≠ ""
    ∧ (∀ c, is_quote c = true → SpectrePatch.free_of c name = true)
    ∧ s = "require(" +:+ a +:+ String q ("./" +:+ name +:+ tail).
Proof.
  unfold match_require_here.
  destruct (strip_prefix "require(" s) as [rest1|] eqn:H1; [|done].
  apply strip_prefix_split in H1.
  destruct (skip_spaces_split rest1) as (a & Ha & _).
  destruct (SpectrePatch.skip_spaces rest1) as [|q rest2]; [done|].
  destruct (is_quote q); [|done]. cbn [negb].
  destruct (strip_prefix "./main-" rest2) as [rest3|] eqn:H3; [|done].
  apply strip_prefix_split in H3.
  pose proof (span_unquoted_split rest3) as Hsplit.
  pose proof (fun c => span_unquoted_free rest3 c) as Hfree.
  destruct (span_unquoted rest3) as [run tail]. cbn [fst snd] in *.
  destruct (3 <? String.length run)%nat eqn:Hlen; [|done].
  destruct (ends_with run ".js") eqn:He; [|done]. cbn [andb negb].
  destruct tail as [|q' tail]; [done|].
  destruct (String.prefix ")" _); [|done]. intros [= <-].
  apply Nat.ltb_lt in Hlen. apply ends_with_split in He.
  change (String.length ".js") with 3%nat in He.
  exists (take (String.length run - 3) run), a, q, (String q' tail).
  split; [by rewrite <- He|]. split.
  { intros Hs. apply (f_equal String.length) in Hs.
    rewrite length_take in Hs. simpl in Hs. lia. }
  split.
  { intros c Hc. change ("main-" +:+ run)
      with (String "m" (String "a" (String "i" (String "n" (String "-" run))))).
    cbn [SpectrePatch.free_of]. rewrite (Hfree c Hc).
    unfold is_quote in Hc. apply orb_prop in Hc as [Hc|Hc];
      apply bool_decide_eq_true in Hc; subst c; reflexivity. }
  rewrite H1, Ha, H3, Hsplit. reflexivity.
Qed.

Lemma match_require_somewhere entry name :
  match_require entry = Some name →
  ∃ before s, entry = before +:+ s ∧ match_require_here s = Some name.
Proof.
  induction entry as [|c entry IH].
  - done.
  - change (match_require (String c entry))
      with (match match_require_here (String c entry) with
            | Some n => Some n
            | None => match_require entry
            end).
    destruct (match_require_here (String c entry)) as [n|] eqn:H.
    + intros [= <-]. by exists "", (String c entry).
    + intros (before & s & -> & Hs)%IH. by exists (String c before), s.
Qed.

(** X30.  The bundle [locateMainBundle] returns is named by the first
    [require] of [main.js] that fits the expression: the name is [main-],
    a stem that is not empty, and [.js]; it holds no quote of either kind;
    the entry file holds [./] followed by the name; and a file of that name
    exists in the build directory. *)
Theorem locateMainBundle_names_a_bundle
    (buildDir : string → option string) (name : string) :
  locateMainBundle buildDir = Some name →
  (∃ stem, name = "main-" +:+ stem +:+ ".js" ∧ stem ≠ "")
  ∧ (∀ c, is_quote c = true → SpectrePatch.free_of c name = true)
  ∧ buildDir name ≠ None
  ∧ ∃ entry, buildDir "main.js" = Some entry
             ∧ includes entry ("./" +:+ name) = true.
Proof.
  unfold locateMainBundle.
  destruct (buildDir "main.js") as [entry|] eqn:He; [|done].
  destruct (match_require entry) as [b|] eqn:Hm; [|done].
  destruct (buildDir b) as [original|] eqn:Hb; [|done].
  intros [= <-].
  apply match_require_somewhere in Hm as (before & s & -> & Hs).
  apply match_require_here_shape in Hs as (stem & a & q & tail & Hn & Hne & Hf & ->).
  split; [by exists stem|]. split; [done|]. split; [by rewrite Hb|].
  exists (before +:+ "require(" +:+ a +:+ String q ("./" +:+ b +:+ tail)).
  split; [done|].
  do 3 apply includes_append_r.
  apply (includes_append_r (String q "")).
  rewrite <- (append_assoc "./" b tail).
  exact (includes_middle "" ("./" +:+ b) tail).
Qed.

Lemma locateMainBundle_names_a_bundle_witness :
  includes plain_entry "./main-CQwPb0Th.js" = true.
Proof.
  destruct (locateMainBundle_names_a_bundle (plain_dir plain_bundle)
              "main-CQwPb0Th.js") as (_ & _ & _ & entry & He & Hi).
  - vm_compute. reflexivity.
  - injection He as <-. exact Hi.
Defined.

End PerfProperties.
